(** * Forge Vapor: the frame-update loop and the leaderboard

    A shallow embedding of the arcade game of this repository.  The
    enriched script (good and bad bars, phpstan bullets, levels, a win
    threshold and a persisted leaderboard) is modelled at top level; the
    first version of the script, [src/game/script.js], is modelled in
    [Module Baseline].

    Conventions.
    - [score], [lives], [level] and [currentSpawnInterval] only ever hold
      integers: they are [Z].  Coordinates, speeds and times are arbitrary
      JavaScript numbers: they are exact rationals [Q], so rounding of
      IEEE doubles is not part of the model.
    - Arrays are lists; [bars[i]] is the list lookup [bars !! i],
      [bars.splice(i, 1)] is [delete i bars], and the mutation of an
      object held in an array, [bar.y += bar.speed], is the list update
      [<[i := bar']> bars].
    - [keyState] is a JavaScript object used as a dictionary: a
      [gmap string bool], an absent key reading as [undefined] (falsy).
    - [Math.random()] is an input: the two draws that [spawnBar] makes in
      a tick are parameters of [update].
    - The canvas comes from the HTML page; its size is a parameter.
    - [localStorage] is written when a session ends, and the write can
      throw.  The exception changes no variable and the code after it
      writes none, so the model below follows the variables of the script,
      which are the same whether the write returns or throws; [Module
      Stored], further down, runs the same code on the variables together
      with the storage, and tells how each call ends.
    - Particles, floating texts, [draw] and the DOM text nodes are
      presentation only and do not feed back into the state modelled
      here.  Each [createParticles] site of [update] coincides with one
      [Event] of the log the model returns (a miss, which has no particle
      burst, is logged as well). *)

From Stdlib Require Import ZArith QArith Qround Qfield Lqa Sorted Permutation.
From Stdlib Require Import Ascii DecimalString DecimalZ.
From stdpp Require Import base list strings gmap.

Local Open Scope Z_scope.

(** ** JavaScript numbers and comparisons *)

(** [a < b] on numbers. *)
Definition Qltb (a b : Q) : bool := negb (Qle_bool b a).

(** [Math.min] on numbers. *)
Definition Math_min (a b : Q) : Q := if Qle_bool a b then a else b.

(** ** Entities *)

Record Bar := mkBar {
  bar_x : Q;
  bar_y : Q;
  bar_width : Q;
  bar_height : Q;
  bar_speed : Q;
  isBad : bool
}.

Record Bullet := mkBullet {
  bullet_x : Q;
  bullet_y : Q;
  bullet_width : Q;
  bullet_height : Q
}.

Record Player := mkPlayer {
  player_x : Q;
  player_y : Q;
  player_width : Q;
  player_height : Q
}.

(** One record of the leaderboard, [{ name, score }]. *)
Record Entry := mkEntry {
  entry_name : string;
  entry_score : Z
}.

Record Canvas := mkCanvas {
  canvas_width : Q;
  canvas_height : Q
}.

(** ** Constants of the enriched script *)

Definition BULLET_WIDTH : Q := 15.
Definition BULLET_HEIGHT : Q := 15.
Definition BULLET_SPEED : Q := 10.
Definition BAD_BAR_PROBABILITY : Q := 2 # 10.
Definition WIN_SCORE : Z := 20.
Definition GAME_DURATION : Q := 60.
Definition BAR_SPAWN_INTERVAL : Z := 1000.
Definition PLAYER_WIDTH : Q := 90.
Definition PLAYER_HEIGHT : Q := 112.
Definition PLAYER_SPEED : Q := 8.
Definition BAR_WIDTH : Q := 50.
Definition BAR_HEIGHT : Q := 20.
Definition INITIAL_LIVES : Z := 3.

Definition PLAYER_NAMES : list string :=
  ["Taylor"; "Artisan"; "Lambo"; "Eloquent"; "Nova"; "Sail"; "Jetstream";
   "Breeze"; "Valet"]%string.

Definition HEADING_LOST : string := "Game Over!".
Definition HEADING_WON : string := "You Win!".

(** ** The global state of the script *)

Record Game := mkGame {
  score : Z;
  timeLeft : Q;
  lives : Z;
  bars : list Bar;
  lastSpawn : Q;
  lastTime : Q;
  gameRunning : bool;
  keyState : gmap string bool;
  player : Player;
  level : Z;
  currentSpawnInterval : Z;
  bullets : list Bullet;
  instructionTimer : Q;
  currentPlayerName : string;
  gameOverHeading : string;
  highScores : list Entry
}.

Definition set_score (v : Z) (st : Game) : Game :=
  mkGame v (timeLeft st) (lives st) (bars st) (lastSpawn st) (lastTime st)
    (gameRunning st) (keyState st) (player st) (level st)
    (currentSpawnInterval st) (bullets st) (instructionTimer st)
    (currentPlayerName st) (gameOverHeading st) (highScores st).
Definition set_timeLeft (v : Q) (st : Game) : Game :=
  mkGame (score st) v (lives st) (bars st) (lastSpawn st) (lastTime st)
    (gameRunning st) (keyState st) (player st) (level st)
    (currentSpawnInterval st) (bullets st) (instructionTimer st)
    (currentPlayerName st) (gameOverHeading st) (highScores st).
Definition set_lives (v : Z) (st : Game) : Game :=
  mkGame (score st) (timeLeft st) v (bars st) (lastSpawn st) (lastTime st)
    (gameRunning st) (keyState st) (player st) (level st)
    (currentSpawnInterval st) (bullets st) (instructionTimer st)
    (currentPlayerName st) (gameOverHeading st) (highScores st).
Definition set_bars (v : list Bar) (st : Game) : Game :=
  mkGame (score st) (timeLeft st) (lives st) v (lastSpawn st) (lastTime st)
    (gameRunning st) (keyState st) (player st) (level st)
    (currentSpawnInterval st) (bullets st) (instructionTimer st)
    (currentPlayerName st) (gameOverHeading st) (highScores st).
Definition set_lastSpawn (v : Q) (st : Game) : Game :=
  mkGame (score st) (timeLeft st) (lives st) (bars st) v (lastTime st)
    (gameRunning st) (keyState st) (player st) (level st)
    (currentSpawnInterval st) (bullets st) (instructionTimer st)
    (currentPlayerName st) (gameOverHeading st) (highScores st).
Definition set_lastTime (v : Q) (st : Game) : Game :=
  mkGame (score st) (timeLeft st) (lives st) (bars st) (lastSpawn st) v
    (gameRunning st) (keyState st) (player st) (level st)
    (currentSpawnInterval st) (bullets st) (instructionTimer st)
    (currentPlayerName st) (gameOverHeading st) (highScores st).
Definition set_gameRunning (v : bool) (st : Game) : Game :=
  mkGame (score st) (timeLeft st) (lives st) (bars st) (lastSpawn st)
    (lastTime st) v (keyState st) (player st) (level st) (currentSpawnInterval
    st) (bullets st) (instructionTimer st) (currentPlayerName st)
    (gameOverHeading st) (highScores st).
Definition set_keyState (v : gmap string bool) (st : Game) : Game :=
  mkGame (score st) (timeLeft st) (lives st) (bars st) (lastSpawn st)
    (lastTime st) (gameRunning st) v (player st) (level st)
    (currentSpawnInterval st) (bullets st) (instructionTimer st)
    (currentPlayerName st) (gameOverHeading st) (highScores st).
Definition set_player (v : Player) (st : Game) : Game :=
  mkGame (score st) (timeLeft st) (lives st) (bars st) (lastSpawn st)
    (lastTime st) (gameRunning st) (keyState st) v (level st)
    (currentSpawnInterval st) (bullets st) (instructionTimer st)
    (currentPlayerName st) (gameOverHeading st) (highScores st).
Definition set_level (v : Z) (st : Game) : Game :=
  mkGame (score st) (timeLeft st) (lives st) (bars st) (lastSpawn st)
    (lastTime st) (gameRunning st) (keyState st) (player st) v
    (currentSpawnInterval st) (bullets st) (instructionTimer st)
    (currentPlayerName st) (gameOverHeading st) (highScores st).
Definition set_currentSpawnInterval (v : Z) (st : Game) : Game :=
  mkGame (score st) (timeLeft st) (lives st) (bars st) (lastSpawn st)
    (lastTime st) (gameRunning st) (keyState st) (player st) (level st) v
    (bullets st) (instructionTimer st) (currentPlayerName st) (gameOverHeading
    st) (highScores st).
Definition set_bullets (v : list Bullet) (st : Game) : Game :=
  mkGame (score st) (timeLeft st) (lives st) (bars st) (lastSpawn st)
    (lastTime st) (gameRunning st) (keyState st) (player st) (level st)
    (currentSpawnInterval st) v (instructionTimer st) (currentPlayerName st)
    (gameOverHeading st) (highScores st).
Definition set_instructionTimer (v : Q) (st : Game) : Game :=
  mkGame (score st) (timeLeft st) (lives st) (bars st) (lastSpawn st)
    (lastTime st) (gameRunning st) (keyState st) (player st) (level st)
    (currentSpawnInterval st) (bullets st) v (currentPlayerName st)
    (gameOverHeading st) (highScores st).
Definition set_currentPlayerName (v : string) (st : Game) : Game :=
  mkGame (score st) (timeLeft st) (lives st) (bars st) (lastSpawn st)
    (lastTime st) (gameRunning st) (keyState st) (player st) (level st)
    (currentSpawnInterval st) (bullets st) (instructionTimer st) v
    (gameOverHeading st) (highScores st).
Definition set_gameOverHeading (v : string) (st : Game) : Game :=
  mkGame (score st) (timeLeft st) (lives st) (bars st) (lastSpawn st)
    (lastTime st) (gameRunning st) (keyState st) (player st) (level st)
    (currentSpawnInterval st) (bullets st) (instructionTimer st)
    (currentPlayerName st) v (highScores st).
Definition set_highScores (v : list Entry) (st : Game) : Game :=
  mkGame (score st) (timeLeft st) (lives st) (bars st) (lastSpawn st)
    (lastTime st) (gameRunning st) (keyState st) (player st) (level st)
    (currentSpawnInterval st) (bullets st) (instructionTimer st)
    (currentPlayerName st) (gameOverHeading st) v.

Definition set_player_x (v : Q) (st : Game) : Game :=
  set_player
    (mkPlayer v (player_y (player st)) (player_width (player st))
       (player_height (player st))) st.

(** What the frame loop does on leaving a loop body.  [Ret] is where
    control leaves [update] after [endGame()] or [winGame()]: by the
    [return] that follows the call, or by the exception of
    [saveHighScores()] when the storage cannot be written; [st] holds the
    variables either way ([Stored.flow] tells the two apart). *)
Inductive ctl :=
  | Go (st : Game)      (* fall through to the next statement *)
  | Ret (st : Game)     (* control leaves [update] *)
  | Throw.              (* an uncaught TypeError: a read of [undefined.y] *)

(** The outcomes applied to falling bars; each carries the bar as it was
    when the outcome was applied. *)
Inductive Event :=
  | Caught (bar : Bar)
  | Missed (bar : Bar)
  | Shot (bar : Bar) (bullet : Bullet).

Definition event_bar (e : Event) : Bar :=
  match e with Caught b | Missed b | Shot b _ => b end.

(** The three phases of a session that the headings and [gameRunning]
    encode. *)
Inductive Phase := NotStarted | Running | Won | Lost.

Definition phase (st : Game) : Phase :=
  if gameRunning st then Running
  else if String.eqb (gameOverHeading st) HEADING_WON then Won
  else if String.eqb (gameOverHeading st) HEADING_LOST then Lost
  else NotStarted.

(** ** The leaderboard *)

(** [Array.prototype.sort] is a built-in of the language, not code of this
    repository.  ECMAScript requires it to be stable, so for a consistent
    comparator its result is determined; it is specified here by the
    stable insertion sort.  [cmp a b <= 0] keeps [a] before [b]. *)
Fixpoint sort_insert {A} (cmp : A → A → Z) (a : A) (l : list A) : list A :=
  match l with
  | [] => [a]
  | b :: l' => if cmp a b <=? 0 then a :: l else b :: sort_insert cmp a l'
  end.

Definition Array_sort {A} (cmp : A → A → Z) (l : list A) : list A :=
  foldr (sort_insert cmp) [] l.

(** What [updateHighScores] does to the variable [highScores]: insert the
    new score, keep the list sorted descending, trim to five.  The
    function goes on with [saveHighScores()] and [renderHighScores()],
    which write the storage and the page and no variable; that call, and
    the exception it can throw, are in [Stored.updateHighScores]. *)
Definition updateHighScores (newScore : Z) (playerName : string)
    (highScores : list Entry) : list Entry :=
  let highScores := highScores ++ [mkEntry playerName newScore] in
  let highScores :=
    Array_sort (λ a b, entry_score b - entry_score a) highScores in
  if (5 <? length highScores)%nat then take 5 highScores else highScores.

(** ** Ending a session *)

(** The variables after [endGame()] and [winGame()], whether the call
    returns or the save at its end throws: the save is their last
    statement that can change anything but the page.  [Stored.endGame] and
    [Stored.winGame] are the calls with the storage. *)
Definition endGame (st : Game) : Game :=
  let st := set_gameRunning false st in
  let st := set_gameOverHeading HEADING_LOST st in
  set_highScores
    (updateHighScores (score st) (currentPlayerName st) (highScores st)) st.

Definition winGame (st : Game) : Game :=
  let st := set_gameRunning false st in
  let st := set_gameOverHeading HEADING_WON st in
  set_highScores
    (updateHighScores (score st) (currentPlayerName st) (highScores st)) st.

(** ** Geometry *)

(** [bar.y += bar.speed] *)
Definition bar_fall (bar : Bar) : Bar :=
  mkBar (bar_x bar) (bar_y bar + bar_speed bar)%Q (bar_width bar)
    (bar_height bar) (bar_speed bar) (isBad bar).

(** [bullet.y -= BULLET_SPEED] *)
Definition bullet_rise (bullet : Bullet) : Bullet :=
  mkBullet (bullet_x bullet) (bullet_y bullet - BULLET_SPEED)%Q
    (bullet_width bullet) (bullet_height bullet).

(** The overlap test of a bar against the player. *)
Definition hits_player (bar : Bar) (p : Player) : bool :=
  Qltb (bar_x bar) (player_x p + player_width p)%Q
  && Qltb (player_x p) (bar_x bar + bar_width bar)%Q
  && Qltb (bar_y bar) (player_y p + player_height p)%Q
  && Qltb (player_y p) (bar_y bar + bar_height bar)%Q.

(** The overlap test of a bullet against a bar. *)
Definition hits_bar (bullet : Bullet) (bar : Bar) : bool :=
  Qltb (bullet_x bullet) (bar_x bar + bar_width bar)%Q
  && Qltb (bar_x bar) (bullet_x bullet + bullet_width bullet)%Q
  && Qltb (bullet_y bullet) (bar_y bar + bar_height bar)%Q
  && Qltb (bar_y bar) (bullet_y bullet + bullet_height bullet)%Q.

(** [Math.max(300, BAR_SPAWN_INTERVAL - (level - 1) * 100)] *)
Definition spawn_interval_at (level : Z) : Z :=
  Z.max 300 (BAR_SPAWN_INTERVAL - (level - 1) * 100).

(** [keyState[k]] read as a condition. *)
Definition pressed (k : string) (st : Game) : bool :=
  default false (keyState st !! k).

Section Frame.

Variable canvas : Canvas.

(** *** Input handlers *)

(** The two bound checks that follow every change of [player.x]. *)
Definition clamp_player (st : Game) : Game :=
  let st :=
    if Qltb (player_x (player st)) 0 then set_player_x 0%Q st else st in
  if Qltb (canvas_width canvas)
       (player_x (player st) + player_width (player st))%Q
  then set_player_x (canvas_width canvas - player_width (player st))%Q st
  else st.

(** [x] is [e.clientX - rect.left]. *)
Definition mousemove (x : Q) (st : Game) : Game :=
  let st := set_player_x (x - player_width (player st) / 2)%Q st in
  clamp_player st.

Definition shootBullet (st : Game) : Game :=
  let bulletX :=
    (player_x (player st) + player_width (player st) / 2
     - BULLET_WIDTH / 2)%Q in
  let bulletY := (player_y (player st) - BULLET_HEIGHT)%Q in
  set_bullets
    (bullets st ++ [mkBullet bulletX bulletY BULLET_WIDTH BULLET_HEIGHT]) st.

Definition click (st : Game) : Game :=
  if negb (gameRunning st) then st else shootBullet st.

(** Both [keydown] listeners, in registration order; [key] is [e.key] and
    [code] is [e.code]. *)
Definition keydown (key code : string) (st : Game) : Game :=
  let st := set_keyState (<[key := true]> (keyState st)) st in
  if negb (gameRunning st) then st
  else if String.eqb code "Space" then shootBullet st else st.

Definition keyup (key : string) (st : Game) : Game :=
  set_keyState (<[key := false]> (keyState st)) st.

(** *** Starting a session *)

Definition initial_player : Player :=
  mkPlayer (canvas_width canvas / 2 - PLAYER_WIDTH / 2)%Q
    (canvas_height canvas - PLAYER_HEIGHT - 20)%Q PLAYER_WIDTH PLAYER_HEIGHT.

(** The state once the script has run to its end, before any click on
    Start.  [score], [timeLeft], [lives], [lastSpawn], [lastTime], [level]
    and [currentSpawnInterval] are declared without a value and are first
    assigned by [startGame]; they are given 0 here.  The heading text
    comes from the page. *)
Definition page_loaded (stored : list Entry) : Game :=
  mkGame 0 0%Q 0 [] 0%Q 0%Q false ∅ initial_player 0 0 [] 0%Q "" "" stored.

(** [now] is [performance.now()], [r] the draw that picks the name.  The
    [bullets] array is not among the variables that are reset. *)
Definition startGame (now r : Q) (st : Game) : Game :=
  let st := set_score 0 st in
  let st := set_timeLeft GAME_DURATION st in
  let st := set_lives INITIAL_LIVES st in
  let st := set_bars [] st in
  let st := set_lastSpawn 0%Q st in
  let st := set_lastTime now st in
  let st :=
    set_player_x (canvas_width canvas / 2 - PLAYER_WIDTH / 2)%Q st in
  let st :=
    set_currentPlayerName
      (default ""%string
         (PLAYER_NAMES
            !! Z.to_nat (Qfloor (r * inject_Z (Z.of_nat (length PLAYER_NAMES))))))
      st in
  let st := set_level 1 st in
  let st := set_currentSpawnInterval BAR_SPAWN_INTERVAL st in
  let st := set_instructionTimer 4000%Q st in
  set_gameRunning true st.

(** *** Spawning *)

(** [r1] and [r2] are the two draws of [Math.random()], in call order.
    The speed is computed in exact rationals: where the script's doubles
    round [score * 0.1], as they do at scores 14 and 19 (the script gets
    3.9000000000000004 for the latter), the model has 2 + score / 10. *)
Definition spawnBar (r1 r2 : Q) (st : Game) : Game :=
  let speed := (2 + Math_min (inject_Z (score st) * (1 # 10)) 5)%Q in
  let x := (r1 * (canvas_width canvas - BAR_WIDTH))%Q in
  let isBad := Qltb r2 BAD_BAR_PROBABILITY in
  set_bars
    (bars st ++ [mkBar x (- BAR_HEIGHT)%Q BAR_WIDTH BAR_HEIGHT speed isBad])
    st.

(** *** The phases of [update] *)

(** Keyboard movement, then the bound checks. *)
Definition move_player (st : Game) : Game :=
  let st :=
    if pressed "ArrowLeft" st || pressed "a" st
    then set_player_x (player_x (player st) - PLAYER_SPEED)%Q st else st in
  let st :=
    if pressed "ArrowRight" st || pressed "d" st
    then set_player_x (player_x (player st) + PLAYER_SPEED)%Q st else st in
  clamp_player st.

(** [lastSpawn += delta], and one [spawnBar] when the interval is reached. *)
Definition spawn_phase (delta r1 r2 : Q) (st : Game) : Game :=
  let st := set_lastSpawn (lastSpawn st + delta)%Q st in
  if Qle_bool (inject_Z (currentSpawnInterval st)) (lastSpawn st)
  then set_lastSpawn 0%Q (spawnBar r1 r2 st)
  else st.

(** The level progression inside a good catch. *)
Definition level_up (st : Game) : Game :=
  let st := set_level (level st + 1) st in
  set_currentSpawnInterval (spawn_interval_at (level st)) st.

(** The body of the first loop, at index [i]. *)
Definition bar_body (i : nat) (st : Game) : ctl * list Event :=
  match bars st !! i with
  | None => (Throw, [])
  | Some bar =>
    let bar := bar_fall bar in
    let st := set_bars (<[i := bar]> (bars st)) st in
    if hits_player bar (player st) then
      let st := set_bars (delete i (bars st)) st in
      if isBad bar then
        let st := set_lives (lives st - 1) st in
        if lives st <=? 0 then (Ret (endGame st), [Caught bar])
        else (Go st, [Caught bar])
      else
        let st := set_score (score st + 1) st in
        if WIN_SCORE <=? score st then (Ret (winGame st), [Caught bar])
        else
          let st := if Z.rem (score st) 5 =? 0 then level_up st else st in
          (Go st, [Caught bar])
    else if Qltb (canvas_height canvas) (bar_y bar) then
      let st := set_bars (delete i (bars st)) st in
      let st := set_lives (lives st - 1) st in
      if lives st <=? 0 then (Ret (endGame st), [Missed bar])
      else (Go st, [Missed bar])
    else (Go st, [])
  end.

(** [for (let i = n - 1; i >= 0; i--)] over the bars. *)
Fixpoint bars_loop (n : nat) (st : Game) : ctl * list Event :=
  match n with
  | O => (Go st, [])
  | S i =>
    match bar_body i st with
    | (Go st, ev) =>
      let '(c, evs) := bars_loop i st in (c, ev ++ evs)
    | r => r
    end
  end.

Definition instruction_phase (delta : Q) (st : Game) : Game :=
  if Qltb 0 (instructionTimer st) then
    let st := set_instructionTimer (instructionTimer st - delta)%Q st in
    if Qltb (instructionTimer st) 0 then set_instructionTimer 0%Q st else st
  else st.

(** The inner loop of the bullets: [for (let i = n - 1; i >= 0; i--)] with
    its [break].  The boolean is [bulletRemoved]. *)
Fixpoint bullet_scan (n bi : nat) (bullet : Bullet) (st : Game)
    : option (Game * bool * list Event) :=
  match n with
  | O => Some (st, false, [])
  | S i =>
    match bars st !! i with
    | None => None
    | Some bar =>
      if hits_bar bullet bar then
        let st := set_bars (delete i (bars st)) st in
        let st := set_bullets (delete bi (bullets st)) st in
        let st := if isBad bar then set_lives (lives st + 1) st else st in
        Some (st, true, [Shot bar bullet])
      else bullet_scan i bi bullet st
    end
  end.

(** The body of the bullets loop, at index [bi]. *)
Definition bullet_body (bi : nat) (st : Game) : ctl * list Event :=
  match bullets st !! bi with
  | None => (Throw, [])
  | Some bullet =>
    let bullet := bullet_rise bullet in
    let st := set_bullets (<[bi := bullet]> (bullets st)) st in
    if Qltb (bullet_y bullet + bullet_height bullet)%Q 0 then
      (Go (set_bullets (delete bi (bullets st)) st), [])
    else
      match bullet_scan (length (bars st)) bi bullet st with
      | None => (Throw, [])
      | Some (st, _, ev) => (Go st, ev)
      end
  end.

Fixpoint bullets_loop (n : nat) (st : Game) : ctl * list Event :=
  match n with
  | O => (Go st, [])
  | S bi =>
    match bullet_body bi st with
    | (Go st, ev) =>
      let '(c, evs) := bullets_loop bi st in (c, ev ++ evs)
    | r => r
    end
  end.

Definition time_phase (delta : Q) (st : Game) : Game :=
  let st := set_timeLeft (timeLeft st - delta / 1000)%Q st in
  if Qle_bool (timeLeft st) 0 then endGame (set_timeLeft 0%Q st) else st.

(** *** [update] *)

(** One call of [update(delta)]: the variables it leaves, with the log of
    the outcomes it applied.  [None] stands for an uncaught TypeError. *)
Definition update_log (delta r1 r2 : Q) (st : Game)
    : option Game * list Event :=
  let st := move_player st in
  let st := spawn_phase delta r1 r2 st in
  match bars_loop (length (bars st)) st with
  | (Throw, evs) => (None, evs)
  | (Ret st, evs) => (Some st, evs)
  | (Go st, evs) =>
    let st := instruction_phase delta st in
    match bullets_loop (length (bullets st)) st with
    | (Throw, evs') => (None, evs ++ evs')
    | (Ret st, evs') => (Some st, evs ++ evs')
    | (Go st, evs') => (Some (time_phase delta st), evs ++ evs')
    end
  end.

Definition update (delta r1 r2 : Q) (st : Game) : option Game :=
  fst (update_log delta r1 r2 st).

(** [gameLoop(timestamp)]; drawing and the request of the next frame are
    left to the caller. *)
Definition gameLoop (timestamp r1 r2 : Q) (st : Game) : option Game :=
  if negb (gameRunning st) then Some st
  else
    let delta := (timestamp - lastTime st)%Q in
    let st := set_lastTime timestamp st in
    update delta r1 r2 st.

End Frame.

(** ** The first version of the script, [src/game/script.js]

    Bars have no classification, every catch scores, there are no bullets,
    no levels and no win threshold; only a miss costs a life. *)
Module Baseline.

Definition GAME_DURATION : Q := 60.
Definition BAR_SPAWN_INTERVAL : Q := 1000.
Definition PLAYER_WIDTH : Q := 72.
Definition PLAYER_HEIGHT : Q := 90.
Definition PLAYER_SPEED : Q := 6.
Definition BAR_WIDTH : Q := 40.
Definition BAR_HEIGHT : Q := 16.
Definition INITIAL_LIVES : Z := 3.

Record Bar := mkBar {
  bar_x : Q;
  bar_y : Q;
  bar_width : Q;
  bar_height : Q;
  bar_speed : Q
}.

Record Game := mkGame {
  score : Z;
  timeLeft : Q;
  lives : Z;
  bars : list Bar;
  lastSpawn : Q;
  gameRunning : bool;
  keyState : gmap string bool;
  player : Player
}.

Definition set_score (v : Z) (st : Game) : Game :=
  mkGame v (timeLeft st) (lives st) (bars st) (lastSpawn st)
    (gameRunning st) (keyState st) (player st).
Definition set_timeLeft (v : Q) (st : Game) : Game :=
  mkGame (score st) v (lives st) (bars st) (lastSpawn st)
    (gameRunning st) (keyState st) (player st).
Definition set_lives (v : Z) (st : Game) : Game :=
  mkGame (score st) (timeLeft st) v (bars st) (lastSpawn st)
    (gameRunning st) (keyState st) (player st).
Definition set_bars (v : list Bar) (st : Game) : Game :=
  mkGame (score st) (timeLeft st) (lives st) v (lastSpawn st)
    (gameRunning st) (keyState st) (player st).
Definition set_lastSpawn (v : Q) (st : Game) : Game :=
  mkGame (score st) (timeLeft st) (lives st) (bars st) v
    (gameRunning st) (keyState st) (player st).
Definition set_gameRunning (v : bool) (st : Game) : Game :=
  mkGame (score st) (timeLeft st) (lives st) (bars st) (lastSpawn st)
    v (keyState st) (player st).
Definition set_player_x (v : Q) (st : Game) : Game :=
  mkGame (score st) (timeLeft st) (lives st) (bars st) (lastSpawn st)
    (gameRunning st) (keyState st)
    (mkPlayer v (player_y (player st)) (player_width (player st))
       (player_height (player st))).

Inductive ctl :=
  | Go (st : Game)
  | Ret (st : Game)
  | Throw.

Definition pressed (k : string) (st : Game) : bool :=
  default false (keyState st !! k).

Definition endGame (st : Game) : Game := set_gameRunning false st.

Definition bar_fall (bar : Bar) : Bar :=
  mkBar (bar_x bar) (bar_y bar + bar_speed bar)%Q (bar_width bar)
    (bar_height bar) (bar_speed bar).

Definition hits_player (bar : Bar) (p : Player) : bool :=
  Qltb (bar_x bar) (player_x p + player_width p)%Q
  && Qltb (player_x p) (bar_x bar + bar_width bar)%Q
  && Qltb (bar_y bar) (player_y p + player_height p)%Q
  && Qltb (player_y p) (bar_y bar + bar_height bar)%Q.

Section Frame.

Variable canvas : Canvas.

Definition move_player (st : Game) : Game :=
  let st :=
    if pressed "ArrowLeft" st || pressed "a" st
    then set_player_x (player_x (player st) - PLAYER_SPEED)%Q st else st in
  let st :=
    if pressed "ArrowRight" st || pressed "d" st
    then set_player_x (player_x (player st) + PLAYER_SPEED)%Q st else st in
  let st :=
    if Qltb (player_x (player st)) 0 then set_player_x 0%Q st else st in
  if Qltb (canvas_width canvas)
       (player_x (player st) + player_width (player st))%Q
  then set_player_x (canvas_width canvas - player_width (player st))%Q st
  else st.

Definition spawnBar (r : Q) (st : Game) : Game :=
  let speed := (2 + Math_min (inject_Z (score st) * (1 # 10)) 5)%Q in
  let x := (r * (canvas_width canvas - BAR_WIDTH))%Q in
  set_bars (bars st ++ [mkBar x (- BAR_HEIGHT)%Q BAR_WIDTH BAR_HEIGHT speed])
    st.

Definition spawn_phase (delta r : Q) (st : Game) : Game :=
  let st := set_lastSpawn (lastSpawn st + delta)%Q st in
  if Qle_bool BAR_SPAWN_INTERVAL (lastSpawn st)
  then set_lastSpawn 0%Q (spawnBar r st)
  else st.

Definition bar_body (i : nat) (st : Game) : ctl :=
  match bars st !! i with
  | None => Throw
  | Some bar =>
    let bar := bar_fall bar in
    let st := set_bars (<[i := bar]> (bars st)) st in
    if hits_player bar (player st) then
      let st := set_bars (delete i (bars st)) st in
      Go (set_score (score st + 1) st)
    else if Qltb (canvas_height canvas) (bar_y bar) then
      let st := set_bars (delete i (bars st)) st in
      let st := set_lives (lives st - 1) st in
      if lives st <=? 0 then Ret (endGame st) else Go st
    else Go st
  end.

Fixpoint bars_loop (n : nat) (st : Game) : ctl :=
  match n with
  | O => Go st
  | S i =>
    match bar_body i st with
    | Go st => bars_loop i st
    | r => r
    end
  end.

Definition time_phase (delta : Q) (st : Game) : Game :=
  let st := set_timeLeft (timeLeft st - delta / 1000)%Q st in
  if Qle_bool (timeLeft st) 0 then endGame (set_timeLeft 0%Q st) else st.

Definition update (delta r : Q) (st : Game) : option Game :=
  let st := move_player st in
  let st := spawn_phase delta r st in
  match bars_loop (length (bars st)) st with
  | Throw => None
  | Ret st => Some st
  | Go st => Some (time_phase delta st)
  end.

End Frame.

End Baseline.

(** ** Persistence of the leaderboard *)

(** The values [JSON.parse] can return.  (No induction over them is needed,
    so none is generated.) *)
Local Unset Elimination Schemes.
Inductive json :=
  | JNull
  | JBool (b : bool)
  | JNum (n : Q)
  | JStr (s : string)
  | JArr (items : list json)
  | JObj (fields : list (string * json)).
Local Set Elimination Schemes.

(** A leaderboard as the JavaScript value [highScores] holds it. *)
Definition entry_to_json (e : Entry) : json :=
  JObj [("name"%string, JStr (entry_name e));
        ("score"%string, JNum (inject_Z (entry_score e)))].

Definition board_to_json (highScores : list Entry) : json :=
  JArr (entry_to_json <$> highScores).

(** Exceptions, and statements that complete normally or throw. *)
Inductive exn := SyntaxError | SecurityError.

Inductive completion (A : Type) :=
  | Normal (a : A)
  | Thrown (e : exn).
Arguments Normal {A} a.
Arguments Thrown {A} e.

Global Instance completion_bind : MBind completion := λ A B k c,
  match c with Normal a => k a | Thrown e => Thrown e end.

Definition try_catch {A} (body : completion A) (handler : exn → completion A)
    : completion A :=
  match body with Normal a => Normal a | Thrown e => handler e end.

(** [localStorage]: the browser may deny access to it, and then every
    call throws. *)
Inductive Storage :=
  | Denied
  | Items (m : gmap string string).

Definition getItem (key : string) (ls : Storage) : completion (option string) :=
  match ls with
  | Denied => Thrown SecurityError
  | Items m => Normal (m !! key)
  end.

Definition setItem (key value : string) (ls : Storage) : completion Storage :=
  match ls with
  | Denied => Thrown SecurityError
  | Items m => Normal (Items (<[key := value]> m))
  end.

Definition STORAGE_KEY : string := "forgeVaporHighScores".

(** [if (stored)]: [null] and the empty string are falsy. *)
Definition truthy (stored : option string) : bool :=
  match stored with
  | None => false
  | Some s => negb (String.eqb s "")
  end.

Section Persistence.

(** [JSON.parse] and [JSON.stringify] are built-ins of the language;
    [None] stands for the SyntaxError that [JSON.parse] throws. *)
Variable JSON_parse : string → option json.
Variable JSON_stringify : json → string.

Definition parse (text : string) : completion json :=
  match JSON_parse text with
  | Some v => Normal v
  | None => Thrown SyntaxError
  end.

(** The [try]/[catch] block at the top of the script; the result is the
    value of [highScores] after it. *)
Definition load_highScores (ls : Storage) : completion json :=
  let highScores := JArr [] in
  try_catch
    (stored ← getItem STORAGE_KEY ls;
     if truthy stored
     then parse (default ""%string stored)
     else Normal highScores)
    (λ err, Normal (JArr [])).

Definition saveHighScores (highScores : json) (ls : Storage)
    : completion Storage :=
  setItem STORAGE_KEY (JSON_stringify highScores) ls.

End Persistence.

(** ** A reference codec for leaderboards

    A printer and a parser for the text form of a leaderboard,
    [[{"name":"Nova","score":20},...]], with [\] escaping a quote or a
    backslash inside a name.  It shows that what is assumed of the two
    JSON built-ins below can be met. *)
Module Codec.

Definition quote : ascii := "034"%char.
Definition backslash : ascii := "092"%char.
Definition rbrace : ascii := "}"%char.

(** Printers take the text that follows as their last argument. *)
Fixpoint print_name (name k : string) : string :=
  match name with
  | EmptyString => String quote k
  | String c name' =>
    if Ascii.eqb c quote || Ascii.eqb c backslash
    then String backslash (String c (print_name name' k))
    else String c (print_name name' k)
  end.

Definition NAME_KEY : string :=
  String "{" (String quote ("name" +:+ String quote (String ":" (String quote "")))).
Definition SCORE_KEY : string :=
  String "," (String quote ("score" +:+ String quote ":")).

Definition print_score (score : Z) (k : string) : string :=
  NilEmpty.string_of_int (Z.to_int score) +:+ String rbrace k.

Definition print_entry (e : Entry) (k : string) : string :=
  NAME_KEY +:+ print_name (entry_name e)
                 (SCORE_KEY +:+ print_score (entry_score e) k).

Fixpoint print_tail (hs : list Entry) : string :=
  match hs with
  | [] => "]"
  | e :: hs' => String "," (print_entry e (print_tail hs'))
  end.

Definition print_board (hs : list Entry) : string :=
  match hs with
  | [] => "[]"
  | e :: hs' => String "[" (print_entry e (print_tail hs'))
  end.

(** [strip p s] removes the prefix [p] from [s]. *)
Fixpoint strip (p s : string) : option string :=
  match p with
  | EmptyString => Some s
  | String c p' =>
    match s with
    | EmptyString => None
    | String d s' => if Ascii.eqb c d then strip p' s' else None
    end
  end.

(** The name up to its closing quote, and the text after it. *)
Fixpoint read_name (s : string) : option (string * string) :=
  match s with
  | EmptyString => None
  | String c s' =>
    if Ascii.eqb c quote then Some (EmptyString, s')
    else if Ascii.eqb c backslash then
      match s' with
      | EmptyString => None
      | String d s'' =>
        match read_name s'' with
        | Some (name, k) => Some (String d name, k)
        | None => None
        end
      end
    else
      match read_name s' with
      | Some (name, k) => Some (String c name, k)
      | None => None
      end
  end.

(** The text up to the next closing brace, and the text after it. *)
Fixpoint read_token (s : string) : option (string * string) :=
  match s with
  | EmptyString => None
  | String c s' =>
    if Ascii.eqb c rbrace then Some (EmptyString, s')
    else
      match read_token s' with
      | Some (tok, k) => Some (String c tok, k)
      | None => None
      end
  end.

Definition read_entry (s : string) : option (Entry * string) :=
  s ← strip NAME_KEY s;
  '(name, s) ← read_name s;
  s ← strip SCORE_KEY s;
  '(tok, s) ← read_token s;
  d ← NilEmpty.int_of_string tok;
  Some (mkEntry name (Z.of_int d), s).

(** The entries after the opening bracket. *)
Fixpoint read_entries (fuel : nat) (s : string) : option (list Entry) :=
  match fuel with
  | O => None
  | S fuel =>
    '(e, s) ← read_entry s;
    match s with
    | String "]" EmptyString => Some [e]
    | String "," s' => es ← read_entries fuel s'; Some (e :: es)
    | _ => None
    end
  end.

Definition read_board (s : string) : option (list Entry) :=
  match s with
  | String "[" (String "]" EmptyString) => Some []
  | String "[" s' => read_entries (String.length s') s'
  | _ => None
  end.

Definition entry_of_json (v : json) : option Entry :=
  match v with
  | JObj [(k1, JStr name); (k2, JNum n)] =>
    if String.eqb k1 "name" && String.eqb k2 "score" && Pos.eqb (Qden n) 1
    then Some (mkEntry name (Qnum n)) else None
  | _ => None
  end.

Definition board_of_json (v : json) : option (list Entry) :=
  match v with
  | JArr items => mapM entry_of_json items
  | _ => None
  end.

Definition stringify (v : json) : string :=
  match board_of_json v with
  | Some hs => print_board hs
  | None => "null"
  end.

Definition parse (s : string) : option json :=
  board_to_json <$> read_board s.

End Codec.

(** * Properties *)

(** ** Comparisons *)

Lemma Qltb_lt (a b : Q) : Qltb a b = true ↔ (a < b)%Q.
Proof.
  unfold Qltb. rewrite negb_true_iff. split.
  - intros H. apply Qnot_le_lt. intros Hle.
    apply Qle_bool_iff in Hle. congruence.
  - intros H. destruct (Qle_bool b a) eqn:E; [|reflexivity].
    apply Qle_bool_iff in E. exfalso. exact (Qlt_not_le _ _ H E).
Qed.

Lemma Qltb_ge (a b : Q) : Qltb a b = false ↔ (b <= a)%Q.
Proof.
  unfold Qltb. rewrite negb_false_iff. apply Qle_bool_iff.
Qed.

Lemma Qle_bool_gt (a b : Q) : Qle_bool a b = false ↔ (b < a)%Q.
Proof.
  rewrite <- Qltb_lt. unfold Qltb. destruct (Qle_bool a b); simpl; intuition congruence.
Qed.

(** Reduce projections of updated states without touching arithmetic. *)
Ltac proj :=
  cbn [score timeLeft lives bars lastSpawn lastTime gameRunning keyState
       player level currentSpawnInterval bullets instructionTimer
       currentPlayerName gameOverHeading highScores
       set_score set_timeLeft set_lives set_bars set_lastSpawn set_lastTime
       set_gameRunning set_keyState set_player set_level
       set_currentSpawnInterval set_bullets set_instructionTimer
       set_currentPlayerName set_gameOverHeading set_highScores set_player_x
       player_x player_y player_width player_height
       endGame winGame level_up fst snd] in *.

(** ** The player stays on the field *)

Definition on_field (canvas : Canvas) (p : Player) : Prop :=
  (0 <= player_x p)%Q ∧ (player_x p <= canvas_width canvas - player_width p)%Q.

Lemma clamp_player_on_field canvas st :
  (player_width (player st) <= canvas_width canvas)%Q →
  on_field canvas (player (clamp_player canvas st)).
Proof.
  intros Hfit. unfold clamp_player, on_field.
  destruct (Qltb (player_x (player st)) 0) eqn:E1; proj;
    match goal with
    | |- context [Qltb ?a ?b] => destruct (Qltb a b) eqn:E2
    end; proj;
    try apply Qltb_lt in E1; try apply Qltb_ge in E1;
    try apply Qltb_lt in E2; try apply Qltb_ge in E2; split; lra.
Qed.

Lemma move_player_on_field canvas st :
  (player_width (player st) <= canvas_width canvas)%Q →
  on_field canvas (player (move_player canvas st)).
Proof.
  intros Hfit. unfold move_player. apply clamp_player_on_field.
  repeat match goal with
         | |- context [if ?c then _ else _] => destruct c
         end; exact Hfit.
Qed.

(** ** Invariant rules for the two loops *)

Ltac split_body H :=
  cbv zeta in H;
  repeat match type of H with
         | context [match ?x with _ => _ end] => destruct x eqn:?
         end;
  try discriminate H; inversion H; subst; clear H.

Section LoopRules.

Variable canvas : Canvas.

(** A property kept by every continuing iteration holds when the loop
    falls through; what every returning iteration establishes holds when
    the loop returns. *)
Lemma bars_loop_rule (P R : Game → Prop) :
  (∀ i st st' ev, P st → bar_body canvas i st = (Go st', ev) → P st') →
  (∀ i st st' ev, P st → bar_body canvas i st = (Ret st', ev) → R st') →
  ∀ n st, P st →
    match fst (bars_loop canvas n st) with
    | Go st' => P st'
    | Ret st' => R st'
    | Throw => True
    end.
Proof.
  intros HGo HRet. induction n as [|i IH]; intros st HP; simpl; [exact HP|].
  destruct (bar_body canvas i st) as [[s|s|] ev] eqn:Hb; simpl.
  - specialize (IH s (HGo _ _ _ _ HP Hb)).
    destruct (bars_loop canvas i s) as [c evs]. exact IH.
  - exact (HRet _ _ _ _ HP Hb).
  - exact I.
Qed.

Lemma bullets_loop_rule (P R : Game → Prop) :
  (∀ i st st' ev, P st → bullet_body i st = (Go st', ev) → P st') →
  (∀ i st st' ev, P st → bullet_body i st = (Ret st', ev) → R st') →
  ∀ n st, P st →
    match fst (bullets_loop n st) with
    | Go st' => P st'
    | Ret st' => R st'
    | Throw => True
    end.
Proof.
  intros HGo HRet. induction n as [|i IH]; intros st HP; simpl; [exact HP|].
  destruct (bullet_body i st) as [[s|s|] ev] eqn:Hb; simpl.
  - specialize (IH s (HGo _ _ _ _ HP Hb)).
    destruct (bullets_loop i s) as [c evs]. exact IH.
  - exact (HRet _ _ _ _ HP Hb).
  - exact I.
Qed.

(** The bullets loop has no [return]. *)
Lemma bullet_body_no_ret i st st' ev : bullet_body i st ≠ (Ret st', ev).
Proof.
  unfold bullet_body. intros H. split_body H.
Qed.

Lemma bullet_scan_player n bi bullet st st' b ev :
  bullet_scan n bi bullet st = Some (st', b, ev) → player st' = player st.
Proof.
  revert st. induction n as [|i IH]; intros st H; simpl in H.
  - by inversion H.
  - split_body H; proj; try reflexivity; eauto.
Qed.

Lemma bar_body_player i st c ev :
  bar_body canvas i st = (c, ev) →
  match c with Go st' | Ret st' => player st' = player st | Throw => True end.
Proof.
  intros H. unfold bar_body in H. split_body H; proj; try reflexivity;
  unfold level_up; reflexivity.
Qed.

Lemma bullet_body_player i st st' ev :
  bullet_body i st = (Go st', ev) → player st' = player st.
Proof.
  intros H. unfold bullet_body in H. split_body H; proj; try reflexivity.
  match goal with
  | H : bullet_scan _ _ _ _ = _ |- _ => apply bullet_scan_player in H
  end.
  assumption.
Qed.

Lemma time_phase_player delta st : player (time_phase delta st) = player st.
Proof. unfold time_phase. cbv zeta. destruct (Qle_bool _ _); reflexivity. Qed.

Lemma instruction_phase_player delta st :
  player (instruction_phase delta st) = player st.
Proof.
  unfold instruction_phase. cbv zeta.
  repeat match goal with
         | |- context [if ?c then _ else _] => destruct c
         end; reflexivity.
Qed.

Lemma spawn_phase_player delta r1 r2 st :
  player (spawn_phase canvas delta r1 r2 st) = player st.
Proof.
  unfold spawn_phase. cbv zeta. destruct (Qle_bool _ _); reflexivity.
Qed.

(** The rule for a whole tick: [P] is carried from the end of the spawn
    phase through the continuing iterations and the instruction timer,
    [R] holds of every state [update] leaves behind. *)
Lemma update_rule (P R : Game → Prop) delta r1 r2 st st' :
  P (spawn_phase canvas delta r1 r2 (move_player canvas st)) →
  (∀ i s s' ev, P s → bar_body canvas i s = (Go s', ev) → P s') →
  (∀ i s s' ev, P s → bar_body canvas i s = (Ret s', ev) → R s') →
  (∀ s, P s → P (instruction_phase delta s)) →
  (∀ i s s' ev, P s → bullet_body i s = (Go s', ev) → P s') →
  (∀ s, P s → R (time_phase delta s)) →
  update canvas delta r1 r2 st = Some st' → R st'.
Proof.
  intros H1 HGo HRet Hins HBul Htime. unfold update, update_log. cbv zeta.
  generalize dependent (spawn_phase canvas delta r1 r2 (move_player canvas st)).
  intros st1 H1.
  pose proof (bars_loop_rule P R HGo HRet (length (bars st1)) st1 H1) as Hbars.
  destruct (bars_loop canvas (length (bars st1)) st1) as [[s|s|] evs];
    cbn [fst] in Hbars.
  - apply Hins in Hbars. revert Hbars.
    generalize (instruction_phase delta s). intros s2 H2.
    pose proof (bullets_loop_rule P (λ _, False) HBul
      ltac:(intros i t t' ev HP Hb; exact (bullet_body_no_ret _ _ _ _ Hb))
      (length (bullets s2)) s2 H2) as Hbul.
    destruct (bullets_loop (length (bullets s2)) s2) as [[t|t|] evs'];
      cbn [fst] in *; intros H; try discriminate; try contradiction.
    inversion H; subst. by apply Htime.
  - cbn [fst]. intros H. inversion H; subst. exact Hbars.
  - cbn [fst]. discriminate.
Qed.

(** [update] writes [player.x] only in its first phase. *)
Lemma update_player delta r1 r2 st st' :
  update canvas delta r1 r2 st = Some st' →
  player st' = player (move_player canvas st).
Proof.
  apply (update_rule (λ s, player s = player (move_player canvas st))
           (λ s, player s = player (move_player canvas st))).
  - apply spawn_phase_player.
  - intros i s s' ev HP Hb. apply bar_body_player in Hb. congruence.
  - intros i s s' ev HP Hb. apply bar_body_player in Hb. congruence.
  - intros s HP. by rewrite instruction_phase_player.
  - intros i s s' ev HP Hb. apply bullet_body_player in Hb. congruence.
  - intros s HP. by rewrite time_phase_player.
Qed.

End LoopRules.

(** ** The same rules for the first version of the script *)

Ltac bproj :=
  cbn [Baseline.score Baseline.timeLeft Baseline.lives Baseline.bars
       Baseline.lastSpawn Baseline.gameRunning Baseline.keyState
       Baseline.player Baseline.set_score Baseline.set_timeLeft
       Baseline.set_lives Baseline.set_bars Baseline.set_lastSpawn
       Baseline.set_gameRunning Baseline.set_player_x Baseline.endGame
       player_x player_y player_width player_height] in *.

Section BaselineRules.

Variable canvas : Canvas.

Lemma baseline_bars_loop_rule (P R : Baseline.Game → Prop) :
  (∀ i st st', P st → Baseline.bar_body canvas i st = Baseline.Go st' → P st') →
  (∀ i st st', P st → Baseline.bar_body canvas i st = Baseline.Ret st' → R st') →
  ∀ n st, P st →
    match Baseline.bars_loop canvas n st with
    | Baseline.Go st' => P st'
    | Baseline.Ret st' => R st'
    | Baseline.Throw => True
    end.
Proof.
  intros HGo HRet. induction n as [|i IH]; intros st HP; simpl; [exact HP|].
  destruct (Baseline.bar_body canvas i st) as [s|s|] eqn:Hb.
  - exact (IH s (HGo _ _ _ HP Hb)).
  - exact (HRet _ _ _ HP Hb).
  - exact I.
Qed.

Lemma baseline_update_rule (P R : Baseline.Game → Prop) delta r st st' :
  P (Baseline.spawn_phase canvas delta r (Baseline.move_player canvas st)) →
  (∀ i s s', P s → Baseline.bar_body canvas i s = Baseline.Go s' → P s') →
  (∀ i s s', P s → Baseline.bar_body canvas i s = Baseline.Ret s' → R s') →
  (∀ s, P s → R (Baseline.time_phase delta s)) →
  Baseline.update canvas delta r st = Some st' → R st'.
Proof.
  intros H1 HGo HRet Htime. unfold Baseline.update. cbv zeta.
  generalize dependent
    (Baseline.spawn_phase canvas delta r (Baseline.move_player canvas st)).
  intros st1 H1.
  pose proof (baseline_bars_loop_rule P R HGo HRet
                (length (Baseline.bars st1)) st1 H1) as Hbars.
  destruct (Baseline.bars_loop canvas (length (Baseline.bars st1)) st1)
    as [s|s|]; intros H; inversion H; subst; auto.
Qed.

Lemma baseline_bar_body_player i st c :
  Baseline.bar_body canvas i st = c →
  match c with
  | Baseline.Go st' | Baseline.Ret st' =>
      Baseline.player st' = Baseline.player st
  | Baseline.Throw => True
  end.
Proof.
  intros H. unfold Baseline.bar_body in H. cbv zeta in H.
  repeat match type of H with
         | context [match ?x with _ => _ end] => destruct x eqn:?
         end; subst; bproj; reflexivity.
Qed.

Lemma baseline_move_player_on_field st :
  (player_width (Baseline.player st) <= canvas_width canvas)%Q →
  on_field canvas (Baseline.player (Baseline.move_player canvas st)).
Proof.
  intros Hfit. unfold Baseline.move_player. cbv zeta.
  set (s2 := if Baseline.pressed "ArrowRight" _ || _ then _ else _).
  assert (Hw : player_width (Baseline.player s2)
               = player_width (Baseline.player st)).
  { unfold s2.
    repeat match goal with
           | |- context [if ?c then _ else _] => destruct c
           end; reflexivity. }
  rewrite <- Hw in Hfit. clearbody s2. unfold on_field.
  destruct (Qltb (player_x (Baseline.player s2)) 0) eqn:E1; bproj;
    match goal with
    | |- context [Qltb ?a ?b] => destruct (Qltb a b) eqn:E2
    end; bproj;
    try apply Qltb_lt in E1; try apply Qltb_ge in E1;
    try apply Qltb_lt in E2; try apply Qltb_ge in E2; split; lra.
Qed.

Lemma baseline_update_player delta r st st' :
  Baseline.update canvas delta r st = Some st' →
  Baseline.player st' = Baseline.player (Baseline.move_player canvas st).
Proof.
  apply (baseline_update_rule
           (λ s, Baseline.player s
                 = Baseline.player (Baseline.move_player canvas st))
           (λ s, Baseline.player s
                 = Baseline.player (Baseline.move_player canvas st))).
  - unfold Baseline.spawn_phase. cbv zeta.
    destruct (Qle_bool _ _); reflexivity.
  - intros i s s' HP Hb. apply baseline_bar_body_player in Hb. congruence.
  - intros i s s' HP Hb. apply baseline_bar_body_player in Hb. congruence.
  - intros s HP. unfold Baseline.time_phase. cbv zeta.
    destruct (Qle_bool _ _); exact HP.
Qed.

End BaselineRules.

(** ** Sample data *)

(** A field of 1000 by 750 and a session that has just started on it. *)
Definition sample_canvas : Canvas := mkCanvas 1000 750.

Definition sample_start : Game :=
  startGame sample_canvas 0 (1 # 2) (page_loaded sample_canvas []).

Definition baseline_start : Baseline.Game :=
  Baseline.mkGame 0 60 3 [] 0 true ∅
    (mkPlayer (1000 / 2 - 72 / 2) (750 - 90 - 20) 72 90).

(** C10.  After every call of [update], of either version of the script,
    and after every mouse move, the player's horizontal position lies
    between 0 and the field width minus the player's width, whatever keys
    are held and wherever the pointer is; the field is taken to be at
    least as wide as the player. *)
Theorem player_stays_on_field canvas (st : Game) (bst : Baseline.Game) :
  (player_width (player st) <= canvas_width canvas)%Q →
  (player_width (Baseline.player bst) <= canvas_width canvas)%Q →
  (∀ delta r1 r2 st',
     update canvas delta r1 r2 st = Some st' → on_field canvas (player st'))
  ∧ (∀ x, on_field canvas (player (mousemove canvas x st)))
  ∧ (∀ delta r bst',
       Baseline.update canvas delta r bst = Some bst' →
       on_field canvas (Baseline.player bst')).
Proof.
  intros Hfit Hbfit. split; [|split].
  - intros delta r1 r2 st' H. apply update_player in H. rewrite H.
    by apply move_player_on_field.
  - intros x. unfold mousemove. cbv zeta.
    apply (clamp_player_on_field canvas
             (set_player_x (x - player_width (player st) / 2)%Q st) Hfit).
  - intros delta r bst' H. apply baseline_update_player in H. rewrite H.
    by apply baseline_move_player_on_field.
Qed.

Lemma player_stays_on_field_witness :
  on_field sample_canvas (player (mousemove sample_canvas 2000 sample_start))
  ∧ (∃ st', update sample_canvas 16 0 0 sample_start = Some st'
       ∧ on_field sample_canvas (player st'))
  ∧ (∃ bst', Baseline.update sample_canvas 16 0 baseline_start = Some bst'
       ∧ on_field sample_canvas (Baseline.player bst')).
Proof.
  destruct (player_stays_on_field sample_canvas sample_start baseline_start
              ltac:(apply Qle_bool_iff; reflexivity)
              ltac:(apply Qle_bool_iff; reflexivity))
    as (Hup & Hmouse & Hbase).
  split; [apply Hmouse|]. split.
  - eexists. split; [vm_compute; reflexivity|].
    apply (Hup 16%Q 0%Q 0%Q). vm_compute. reflexivity.
  - eexists. split; [vm_compute; reflexivity|].
    apply (Hbase 16%Q 0%Q). vm_compute. reflexivity.
Defined.

(** ** The spawner *)

Lemma Qdiv_le_iff (a r W : Q) :
  (0 < W)%Q → (a / W <= r)%Q ↔ (a <= r * W)%Q.
Proof.
  intros HW. split; intros H.
  - assert (E : (a == a / W * W)%Q) by (field; lra).
    rewrite E. apply Qmult_le_compat_r; lra.
  - by apply Qle_shift_div_r.
Qed.

Lemma Qlt_div_iff (b r W : Q) :
  (0 < W)%Q → (r < b / W)%Q ↔ (r * W < b)%Q.
Proof.
  intros HW. split; intros H.
  - assert (E : (b == b / W * W)%Q) by (field; lra).
    rewrite E. by apply Qmult_lt_compat_r.
  - by apply Qlt_shift_div_l.
Qed.

Lemma delete_insert_same {A} (l : list A) i x :
  delete i (<[i := x]> l) = delete i l.
Proof.
  revert i. induction l as [|y l IH]; intros [|i]; simpl; try reflexivity.
  by rewrite IH.
Qed.

Section BarCount.

Variable canvas : Canvas.

Lemma bullet_scan_bars_length n bi bullet st st' b ev :
  bullet_scan n bi bullet st = Some (st', b, ev) →
  (length (bars st') ≤ length (bars st))%nat.
Proof.
  revert st. induction n as [|i IH]; intros st H; simpl in H.
  - inversion H; subst. lia.
  - split_body H; proj; try (rewrite length_delete by eauto; lia); eauto.
Qed.

Lemma bar_body_bars_length i st c ev :
  bar_body canvas i st = (c, ev) →
  match c with
  | Go st' | Ret st' => (length (bars st') ≤ length (bars st))%nat
  | Throw => True
  end.
Proof.
  intros H. unfold bar_body in H. split_body H; proj; unfold level_up; proj;
    rewrite ?delete_insert_same, ?length_insert;
    try (rewrite length_delete by eauto); lia.
Qed.

Lemma bullet_body_bars_length i st st' ev :
  bullet_body i st = (Go st', ev) →
  (length (bars st') ≤ length (bars st))%nat.
Proof.
  intros H. unfold bullet_body in H. split_body H; proj; try lia.
  match goal with
  | H : bullet_scan _ _ _ _ = _ |- _ => apply bullet_scan_bars_length in H
  end.
  proj. assumption.
Qed.

Lemma spawn_phase_bars_length delta r1 r2 st :
  (length (bars (spawn_phase canvas delta r1 r2 st))
   ≤ S (length (bars st)))%nat.
Proof.
  unfold spawn_phase, spawnBar. cbv zeta. proj.
  destruct (Qle_bool _ _); proj; rewrite ?length_app; simpl; lia.
Qed.

Lemma move_player_bars st : bars (move_player canvas st) = bars st.
Proof.
  unfold move_player, clamp_player. cbv zeta.
  repeat match goal with
         | |- context [if ?c then _ else _] => destruct c
         end; reflexivity.
Qed.

Lemma update_bars_length delta r1 r2 st st' :
  update canvas delta r1 r2 st = Some st' →
  (length (bars st') ≤ S (length (bars st)))%nat.
Proof.
  apply (update_rule canvas
           (λ s, (length (bars s) ≤ S (length (bars st)))%nat)
           (λ s, (length (bars s) ≤ S (length (bars st)))%nat)).
  - pose proof (spawn_phase_bars_length delta r1 r2 (move_player canvas st))
      as H.
    by rewrite move_player_bars in H.
  - intros i s s' ev HP Hb. apply bar_body_bars_length in Hb. lia.
  - intros i s s' ev HP Hb. apply bar_body_bars_length in Hb. lia.
  - intros s HP. unfold instruction_phase. cbv zeta.
    repeat match goal with
           | |- context [if ?c then _ else _] => destruct c
           end; exact HP.
  - intros i s s' ev HP Hb. apply bullet_body_bars_length in Hb. lia.
  - intros s HP. unfold time_phase. cbv zeta.
    destruct (Qle_bool _ _); exact HP.
Qed.

End BarCount.

(** ** Level progression *)

(** What ties [level] and [currentSpawnInterval] to [score] during a
    session; [startGame] establishes it. *)
Definition level_inv (st : Game) : Prop :=
  0 <= score st
  ∧ level st = 1 + Z.min (score st) (WIN_SCORE - 1) / 5
  ∧ currentSpawnInterval st = spawn_interval_at (level st).

Lemma spawn_interval_at_floor l : 300 <= spawn_interval_at l.
Proof. unfold spawn_interval_at. lia. Qed.

Lemma spawn_interval_at_antitone l l' :
  l <= l' → spawn_interval_at l' <= spawn_interval_at l.
Proof. unfold spawn_interval_at, BAR_SPAWN_INTERVAL. lia. Qed.

Section Levels.

Variable canvas : Canvas.

Lemma level_inv_startGame now r st : level_inv (startGame canvas now r st).
Proof.
  unfold level_inv, startGame. cbv zeta. proj.
  split; [lia|split; reflexivity].
Qed.

Lemma bar_body_level_inv i st c ev :
  level_inv st → bar_body canvas i st = (c, ev) →
  match c with
  | Go st' | Ret st' => level_inv st' ∧ level st <= level st'
  | Throw => True
  end.
Proof.
  unfold level_inv, WIN_SCORE. intros (Hs & Hl & Hi) H.
  unfold bar_body in H. split_body H; proj; unfold level_up; proj;
    repeat match goal with
           | H : (_ <=? _) = _ |- _ =>
               first [apply Z.leb_le in H | apply Z.leb_gt in H]
           | H : (_ =? _) = _ |- _ =>
               first [apply Z.eqb_eq in H | apply Z.eqb_neq in H]
           end;
    unfold WIN_SCORE in *;
    try (rewrite Z.rem_mod_nonneg in * by lia);
    repeat split; try assumption; try lia;
    Z.to_euclidean_division_equations; lia.
Qed.

Lemma bullet_scan_level n bi bullet st st' b ev :
  bullet_scan n bi bullet st = Some (st', b, ev) →
  score st' = score st ∧ level st' = level st
  ∧ currentSpawnInterval st' = currentSpawnInterval st.
Proof.
  revert st. induction n as [|i IH]; intros st H; simpl in H.
  - by inversion H.
  - split_body H; proj; eauto.
Qed.

Lemma bullet_body_level i st st' ev :
  bullet_body i st = (Go st', ev) →
  score st' = score st ∧ level st' = level st
  ∧ currentSpawnInterval st' = currentSpawnInterval st.
Proof.
  intros H. unfold bullet_body in H. split_body H; proj; auto.
  match goal with
  | H : bullet_scan _ _ _ _ = _ |- _ => apply bullet_scan_level in H
  end.
  proj. assumption.
Qed.

Lemma update_level_inv delta r1 r2 st st' :
  level_inv st → update canvas delta r1 r2 st = Some st' →
  level_inv st' ∧ level st <= level st'.
Proof.
  intros Hinv.
  apply (update_rule canvas (λ s, level_inv s ∧ level st <= level s)
           (λ s, level_inv s ∧ level st <= level s)).
  - unfold spawn_phase, spawnBar, move_player, clamp_player, level_inv in *.
    cbv zeta.
    repeat match goal with
           | |- context [if ?c then _ else _] => destruct c
           end; proj; (split; [assumption|lia]).
  - intros i s s' ev [HP Hle] Hb.
    apply bar_body_level_inv in Hb; [|assumption]. split; [tauto|lia].
  - intros i s s' ev [HP Hle] Hb.
    apply bar_body_level_inv in Hb; [|assumption]. split; [tauto|lia].
  - intros s HP. unfold instruction_phase, level_inv in *. cbv zeta.
    repeat match goal with
           | |- context [if ?c then _ else _] => destruct c
           end; proj; exact HP.
  - intros i s s' ev HP Hb. apply bullet_body_level in Hb.
    unfold level_inv in *. destruct Hb as (-> & -> & ->). exact HP.
  - intros s HP. unfold time_phase, level_inv in *. cbv zeta.
    destruct (Qle_bool _ _); proj; exact HP.
Qed.

End Levels.

(** A session one good catch away from the win threshold: score 19,
    level 4, one good bar just above the player. *)
Definition near_win : Game :=
  set_bars [mkBar 480 630 50 20 3 false]
    (set_currentSpawnInterval 700 (set_level 4 (set_score 19 sample_start))).

(** C8, as stated, fails on the catch that reaches the win threshold: the
    score goes from 19 to 20, five points after the level-up at 15, and
    the level stays at 4. *)
Lemma level_progression_counterexample :
  ∃ st', update sample_canvas 16 0 0 near_win = Some st'
    ∧ level_inv near_win
    ∧ score st' = score near_win + 1
    ∧ Z.rem (score st') 5 = 0
    ∧ level st' = level near_win.
Proof.
  eexists. split; [vm_compute; reflexivity|].
  split; [|repeat split].
  unfold level_inv. split; [vm_compute; discriminate|split; reflexivity].
Qed.

(** C8 (amended).  A good catch that brings the score to a multiple of 5
    below the win threshold raises [level] by exactly 1 and recomputes the
    spawn interval as max(300, 1000 - (level - 1) * 100); any other good
    catch below the threshold leaves both alone, and the catch that
    reaches the threshold ends the session before the level check.  So
    through a session [level = 1 + min(score, 19) div 5]; over a tick
    [level] never decreases, and the spawn interval is the antitone
    function [spawn_interval_at] of the level, never below 300 and never
    above what it was before the tick. *)
Theorem level_progression canvas (delta r1 r2 : Q) (st st' : Game) :
  level_inv st →
  update canvas delta r1 r2 st = Some st' →
  (level st' = 1 + Z.min (score st') (WIN_SCORE - 1) / 5
   ∧ level st <= level st'
   ∧ currentSpawnInterval st' = Z.max 300 (1000 - (level st' - 1) * 100)
   ∧ 300 <= currentSpawnInterval st' <= currentSpawnInterval st)
  ∧ (∀ l l', l <= l' → spawn_interval_at l' <= spawn_interval_at l)
  ∧ (∀ i s bar,
       bars s !! i = Some bar →
       hits_player (bar_fall bar) (player s) = true →
       isBad bar = false →
       score s + 1 < WIN_SCORE →
       ∃ s', fst (bar_body canvas i s) = Go s'
         ∧ score s' = score s + 1
         ∧ level s' = (if Z.rem (score s') 5 =? 0 then level s + 1 else level s)
         ∧ currentSpawnInterval s'
           = (if Z.rem (score s') 5 =? 0
              then Z.max 300 (1000 - (level s' - 1) * 100)
              else currentSpawnInterval s)).
Proof.
  intros Hinv Hup.
  destruct (update_level_inv canvas delta r1 r2 st st' Hinv Hup)
    as [(Hs' & Hl' & Hi') Hle].
  split; [|split].
  - split; [exact Hl'|]. split; [exact Hle|]. split; [exact Hi'|].
    rewrite Hi'. destruct Hinv as (_ & _ & ->).
    split; [apply spawn_interval_at_floor|by apply spawn_interval_at_antitone].
  - apply spawn_interval_at_antitone.
  - intros i s bar Hbar Hhit Hgood Hlt. unfold bar_body. rewrite Hbar.
    cbv zeta. proj. rewrite Hhit.
    change (isBad (bar_fall bar)) with (isBad bar). rewrite Hgood. proj.
    apply Z.leb_gt in Hlt. rewrite Hlt.
    destruct (Z.rem (score s + 1) 5 =? 0) eqn:E; proj;
      eexists; (split; [reflexivity|]); proj; rewrite ?E; auto.
Qed.

Lemma level_progression_witness :
  ∃ st', update sample_canvas 16 0 0 near_win = Some st'
    ∧ level near_win <= level st'
    ∧ 300 <= currentSpawnInterval st'.
Proof.
  eexists. split; [vm_compute; reflexivity|].
  destruct (level_progression sample_canvas 16 0 0 near_win _
              ltac:(split; [vm_compute; discriminate|split; reflexivity])
              ltac:(vm_compute; reflexivity))
    as [(_ & Hle & _ & Hfloor & _) _].
  split; [exact Hle|exact Hfloor].
Defined.

(** ** Outcomes of a single bar *)

(** Take as witness the state the unfolded loop body ends in. *)
Ltac body_state :=
  match goal with
  | |- context [(Ret ?X, _)] => exists X
  | |- context [(Go ?X, _)] => exists X
  | |- context [Baseline.Ret ?X] => exists X
  | |- context [Baseline.Go ?X] => exists X
  end.

Lemma phase_endGame st : phase (endGame st) = Lost.
Proof. reflexivity. Qed.

Lemma phase_winGame st : phase (winGame st) = Won.
Proof. reflexivity. Qed.

Lemma phase_running st : gameRunning st = true → phase st = Running.
Proof. unfold phase. by intros ->. Qed.

(** A running session with one life left, one point short of the
    threshold; [low_bar] is about to leave the field and [near_bar] is
    over the player. *)
Definition low_bar : Bar := mkBar 0 749 50 20 3 false.
Definition near_bar : Bar := mkBar 480 630 50 20 3 false.

Definition last_life : Game := set_lives 1 near_win.

(** C4.  When the bar read at index [i], once moved, does not overlap the
    player and its top edge is below the bottom of the field, the
    iteration removes it and takes exactly 1 life, whatever its
    classification; the session is ended as lost, and [update] returns,
    exactly when no life is left.  The first version of the script does
    the same. *)
Theorem miss_outcome canvas (i : nat) (st : Game) (bar : Bar)
    (bst : Baseline.Game) (bbar : Baseline.Bar) :
  gameRunning st = true →
  bars st !! i = Some bar →
  hits_player (bar_fall bar) (player st) = false →
  (canvas_height canvas < bar_y (bar_fall bar))%Q →
  Baseline.gameRunning bst = true →
  Baseline.bars bst !! i = Some bbar →
  Baseline.hits_player (Baseline.bar_fall bbar) (Baseline.player bst) = false →
  (canvas_height canvas < Baseline.bar_y (Baseline.bar_fall bbar))%Q →
  (∃ st',
     bars st' = delete i (bars st)
     ∧ lives st' = lives st - 1 ∧ score st' = score st
     ∧ phase st' = (if lives st' <=? 0 then Lost else Running)
     ∧ bar_body canvas i st
       = (if lives st' <=? 0 then Ret st' else Go st',
          [Missed (bar_fall bar)]))
  ∧ (∃ bst',
       Baseline.bars bst' = delete i (Baseline.bars bst)
       ∧ Baseline.lives bst' = Baseline.lives bst - 1
       ∧ Baseline.score bst' = Baseline.score bst
       ∧ Baseline.gameRunning bst' = negb (Baseline.lives bst' <=? 0)
       ∧ Baseline.bar_body canvas i bst
         = (if Baseline.lives bst' <=? 0
            then Baseline.Ret bst' else Baseline.Go bst')).
Proof.
  intros Hrun Hbar Hfree Hlow Hbrun Hbbar Hbfree Hblow. split.
  - unfold bar_body. rewrite Hbar. cbv zeta. proj.
    rewrite Hfree, delete_insert_same.
    apply Qltb_lt in Hlow. rewrite Hlow.
    destruct (lives st - 1 <=? 0) eqn:E; body_state; proj; rewrite ?E;
      repeat split.
    by apply phase_running.
  - unfold Baseline.bar_body. rewrite Hbbar. cbv zeta. bproj.
    rewrite Hbfree, delete_insert_same.
    apply Qltb_lt in Hblow. rewrite Hblow.
    destruct (Baseline.lives bst - 1 <=? 0) eqn:E; body_state; bproj;
      rewrite ?E; repeat split.
    exact Hbrun.
Qed.

Definition baseline_low_bar : Baseline.Bar := Baseline.mkBar 0 749 40 16 3.

Lemma miss_outcome_witness :
  (∃ st',
     bars st' = [] ∧ lives st' = 0 ∧ phase st' = Lost
     ∧ bar_body sample_canvas 0 (set_bars [low_bar] last_life)
       = (Ret st', [Missed (bar_fall low_bar)]))
  ∧ (∃ bst',
       Baseline.bars bst' = [] ∧ Baseline.lives bst' = 2
       ∧ Baseline.bar_body sample_canvas 0
           (Baseline.set_bars [baseline_low_bar] baseline_start)
         = Baseline.Go bst').
Proof.
  destruct (miss_outcome sample_canvas 0 (set_bars [low_bar] last_life)
              low_bar (Baseline.set_bars [baseline_low_bar] baseline_start)
              baseline_low_bar
              eq_refl eq_refl eq_refl ltac:(apply Qltb_lt; reflexivity)
              eq_refl eq_refl eq_refl ltac:(apply Qltb_lt; reflexivity))
    as [(st' & Hbars & Hlives & _ & Hphase & Hbody)
        (bst' & Hbbars & Hblives & _ & _ & Hbbody)].
  split.
  - exists st'.
    change (lives (set_bars [low_bar] last_life)) with 1 in Hlives.
    rewrite Hlives in Hphase, Hbody. auto.
  - exists bst'.
    change (Baseline.lives
              (Baseline.set_bars [baseline_low_bar] baseline_start))
      with 3 in Hblives.
    rewrite Hblives in Hbbody. auto.
Defined.

(** ** Outcomes of a single bullet *)

Lemma bullet_scan_hit n bi bullet st i bar :
  (i < n)%nat → (n ≤ length (bars st))%nat →
  bars st !! i = Some bar →
  hits_bar bullet bar = true →
  (∀ j bar', (i < j)%nat → bars st !! j = Some bar' →
             hits_bar bullet bar' = false) →
  bullet_scan n bi bullet st
  = Some
      (let st1 :=
         set_bullets (delete bi (bullets st))
           (set_bars (delete i (bars st)) st) in
       if isBad bar then set_lives (lives st + 1) st1 else st1,
       true, [Shot bar bullet]).
Proof.
  intros Hin Hlen Hbar Hhit Habove.
  induction n as [|m IH]; [lia|]. simpl.
  destruct (decide (m = i)) as [->|Hne].
  - rewrite Hbar, Hhit. cbv zeta. proj. reflexivity.
  - destruct (lookup_lt_is_Some_2 (bars st) m ltac:(lia)) as [bar' Hbar'].
    rewrite Hbar', (Habove m bar' ltac:(lia) Hbar').
    apply IH; lia.
Qed.

(** C3.  When a bullet that is still on the field after its move overlaps
    the bar at index [i], and no bar at a higher index (those are tested
    first), the iteration removes that bar from [bars] and the bullet from
    [bullets].  Score and level are unchanged; the lives are unchanged for
    a good bar and grow by exactly 1 for a bad one, from any value.  The
    session keeps running. *)
Theorem projectile_hit_outcome (bi i : nat) (st : Game) (bullet : Bullet)
    (bar : Bar) :
  bullets st !! bi = Some bullet →
  Qltb (bullet_y (bullet_rise bullet) + bullet_height (bullet_rise bullet)) 0
  = false →
  bars st !! i = Some bar →
  hits_bar (bullet_rise bullet) bar = true →
  (∀ j bar', (i < j)%nat → bars st !! j = Some bar' →
             hits_bar (bullet_rise bullet) bar' = false) →
  ∃ st',
    bullet_body bi st = (Go st', [Shot bar (bullet_rise bullet)])
    ∧ bars st' = delete i (bars st)
    ∧ bullets st' = delete bi (bullets st)
    ∧ score st' = score st
    ∧ level st' = level st
    ∧ lives st' = (if isBad bar then lives st + 1 else lives st)
    ∧ gameRunning st' = gameRunning st.
Proof.
  intros Hbullet Hon Hbar Hhit Habove. unfold bullet_body.
  rewrite Hbullet. cbv zeta. rewrite Hon. proj.
  rewrite (bullet_scan_hit _ bi (bullet_rise bullet) _ i bar);
    proj; try assumption.
  - rewrite delete_insert_same. cbv zeta.
    destruct (isBad bar); eexists; (split; [reflexivity|]); proj;
      repeat split.
  - by eapply lookup_lt_Some.
  - lia.
Qed.

(** A bad bar in the path of a bullet, with 7 lives in hand. *)
Definition in_flight : Game :=
  set_lives 7
    (set_bullets [mkBullet 490 700 15 15]
       (set_bars [mkBar 480 680 50 20 3 true] sample_start)).

Lemma projectile_hit_outcome_witness :
  ∃ st',
    bullet_body 0 in_flight
    = (Go st', [Shot (mkBar 480 680 50 20 3 true)
                  (bullet_rise (mkBullet 490 700 15 15))])
    ∧ bars st' = [] ∧ bullets st' = [] ∧ score st' = 0 ∧ lives st' = 8.
Proof.
  destruct (projectile_hit_outcome 0 0 in_flight (mkBullet 490 700 15 15)
              (mkBar 480 680 50 20 3 true) eq_refl eq_refl eq_refl eq_refl)
    as (st' & Hbody & Hbars & Hbullets & Hscore & _ & Hlives & _).
  - intros [|j] bar' Hj Hlook; [lia|discriminate Hlook].
  - exists st'. auto.
Defined.

(** ** Terminal transitions *)

Ltac zbool :=
  repeat match goal with
         | H : (_ <=? _) = true |- _ => apply Z.leb_le in H
         | H : (_ <=? _) = false |- _ => apply Z.leb_gt in H
         | H : (_ =? _) = true |- _ => apply Z.eqb_eq in H
         | H : (_ =? _) = false |- _ => apply Z.eqb_neq in H
         end.

(** What holds between two iterations of a tick that began in [st0] with
    lives in hand and the score below the threshold. *)
Definition in_play (st0 st : Game) : Prop :=
  gameRunning st = true ∧ 0 < lives st ∧ score st < WIN_SCORE
  ∧ timeLeft st = timeLeft st0.

(** What holds of the state a tick leaves behind. *)
Definition settled (st0 st' : Game) : Prop :=
  match phase st' with
  | Running =>
      0 < lives st' ∧ score st' < WIN_SCORE ∧ (0 < timeLeft st')%Q
  | Won =>
      score st' = WIN_SCORE ∧ 0 < lives st' ∧ timeLeft st' = timeLeft st0
  | Lost =>
      score st' < WIN_SCORE
      ∧ ((lives st' = 0 ∧ timeLeft st' = timeLeft st0)
         ∨ (0 < lives st' ∧ timeLeft st' = 0%Q))
  | NotStarted => False
  end.

Section Guards.

Variable canvas : Canvas.

Lemma bar_body_in_play st0 i st st' ev :
  in_play st0 st → bar_body canvas i st = (Go st', ev) → in_play st0 st'.
Proof.
  unfold in_play, WIN_SCORE. intros (Hrun & Hl & Hs & Ht) H.
  unfold bar_body in H. split_body H; proj; unfold level_up; proj; zbool;
    unfold WIN_SCORE in *; repeat split; try assumption; lia.
Qed.

Lemma bar_body_settled st0 i st st' ev :
  in_play st0 st → bar_body canvas i st = (Ret st', ev) → settled st0 st'.
Proof.
  unfold in_play, WIN_SCORE. intros (Hrun & Hl & Hs & Ht) H.
  unfold bar_body in H. split_body H; unfold settled;
    rewrite ?phase_endGame, ?phase_winGame; proj; zbool;
    unfold WIN_SCORE in *; repeat split; try assumption; try lia;
    (left; split; [lia|assumption]).
Qed.

Lemma bullet_scan_in_play st0 n bi bullet st st' b ev :
  in_play st0 st → bullet_scan n bi bullet st = Some (st', b, ev) →
  in_play st0 st'.
Proof.
  unfold in_play. revert st. induction n as [|i IH]; intros st HP H;
    simpl in H.
  - inversion H; by subst.
  - split_body H; proj; eauto. destruct HP as (? & ? & ? & ?).
    repeat split; try assumption; lia.
Qed.

Lemma bullet_body_in_play st0 i st st' ev :
  in_play st0 st → bullet_body i st = (Go st', ev) → in_play st0 st'.
Proof.
  intros HP H. unfold bullet_body in H. split_body H; proj; try exact HP.
  match goal with
  | H : bullet_scan _ _ _ _ = _ |- _ =>
      apply (bullet_scan_in_play st0) in H; [assumption|exact HP]
  end.
Qed.

Lemma time_phase_settled st0 delta st :
  in_play st0 st → settled st0 (time_phase delta st).
Proof.
  unfold in_play. intros (Hrun & Hl & Hs & Ht). unfold time_phase.
  cbv zeta. proj. destruct (Qle_bool _ _) eqn:E; unfold settled.
  - rewrite phase_endGame. proj. split; [assumption|]. right. by split.
  - rewrite phase_running by exact Hrun. proj.
    apply Qle_bool_gt in E. repeat split; assumption.
Qed.

Lemma update_settled delta r1 r2 st st' :
  in_play st st → update canvas delta r1 r2 st = Some st' → settled st st'.
Proof.
  intros HP.
  apply (update_rule canvas (in_play st) (settled st)).
  - unfold spawn_phase, spawnBar, move_player, clamp_player, in_play in *.
    cbv zeta.
    repeat match goal with
           | |- context [if ?c then _ else _] => destruct c
           end; proj; exact HP.
  - intros i s s' ev. apply bar_body_in_play.
  - intros i s s' ev. apply bar_body_settled.
  - intros s HP'. unfold instruction_phase, in_play in *. cbv zeta.
    repeat match goal with
           | |- context [if ?c then _ else _] => destruct c
           end; proj; exact HP'.
  - intros i s s' ev. apply bullet_body_in_play.
  - intros s. apply time_phase_settled.
Qed.

(** The bar at the last index is handled first; when its guard fires the
    loop returns at once and the bars below it are neither moved nor
    tested. *)
Lemma bars_loop_last_first st pre b :
  bars st = pre ++ [b] →
  bars_loop canvas (length (bars st)) st
  = match bar_body canvas (length pre) st with
    | (Go st', ev) =>
        let '(c, evs) := bars_loop canvas (length pre) st' in (c, ev ++ evs)
    | r => r
    end.
Proof.
  intros ->. rewrite length_app. simpl length.
  replace (length pre + 1)%nat with (S (length pre)) by lia. reflexivity.
Qed.

Lemma last_bar_wins st pre b :
  bars st = pre ++ [b] →
  hits_player (bar_fall b) (player st) = true →
  isBad b = false →
  WIN_SCORE <= score st + 1 →
  ∃ st', bars_loop canvas (length (bars st)) st
         = (Ret st', [Caught (bar_fall b)])
    ∧ phase st' = Won ∧ bars st' = pre ∧ lives st' = lives st.
Proof.
  intros Hbars Hhit Hgood Hwin. rewrite (bars_loop_last_first st pre b Hbars).
  unfold bar_body. rewrite Hbars, list_lookup_middle by reflexivity.
  cbv zeta. proj. rewrite Hhit.
  change (isBad (bar_fall b)) with (isBad b). rewrite Hgood. proj.
  apply Z.leb_le in Hwin. rewrite Hwin.
  eexists. split; [reflexivity|]. proj. split; [reflexivity|].
  split; [|reflexivity].
  rewrite delete_insert_same, delete_middle. apply app_nil_r.
Qed.

Lemma last_bar_loses st pre b :
  bars st = pre ++ [b] →
  (hits_player (bar_fall b) (player st) = true ∧ isBad b = true)
  ∨ (hits_player (bar_fall b) (player st) = false
     ∧ (canvas_height canvas < bar_y (bar_fall b))%Q) →
  lives st - 1 <= 0 →
  ∃ st' ev, bars_loop canvas (length (bars st)) st = (Ret st', [ev])
    ∧ event_bar ev = bar_fall b
    ∧ phase st' = Lost ∧ bars st' = pre ∧ score st' = score st
    ∧ lives st' = lives st - 1.
Proof.
  intros Hbars Hcase Hlast. rewrite (bars_loop_last_first st pre b Hbars).
  unfold bar_body. rewrite Hbars, list_lookup_middle by reflexivity.
  cbv zeta. proj. apply Z.leb_le in Hlast.
  destruct Hcase as [[Hhit Hbad]|[Hfree Hlow]].
  - rewrite Hhit. change (isBad (bar_fall b)) with (isBad b).
    rewrite Hbad. proj. rewrite Hlast.
    do 2 eexists. split; [reflexivity|]. proj. repeat split.
    rewrite delete_insert_same, delete_middle. apply app_nil_r.
  - rewrite Hfree. apply Qltb_lt in Hlow. rewrite Hlow. proj. rewrite Hlast.
    do 2 eexists. split; [reflexivity|]. proj. repeat split.
    rewrite delete_insert_same, delete_middle. apply app_nil_r.
Qed.

End Guards.

Section GuardOrder.

Variable canvas : Canvas.

Lemma before_loop_frame delta r1 r2 st :
  let st1 := spawn_phase canvas delta r1 r2 (move_player canvas st) in
  score st1 = score st ∧ lives st1 = lives st.
Proof.
  unfold spawn_phase, spawnBar, move_player, clamp_player. cbv zeta.
  repeat match goal with
         | |- context [if ?c then _ else _] => destruct c
         end; proj; split; reflexivity.
Qed.

Lemma update_returns delta r1 r2 st s' evs :
  let st1 := spawn_phase canvas delta r1 r2 (move_player canvas st) in
  bars_loop canvas (length (bars st1)) st1 = (Ret s', evs) →
  update canvas delta r1 r2 st = Some s'.
Proof.
  intros st1 H. unfold update, update_log. cbv zeta. fold st1.
  rewrite H. reflexivity.
Qed.

End GuardOrder.

(** Two bars are due in the same tick: [low_bar], at index 0, leaves the
    field and would take the last life; [near_bar], at index 1, is caught
    and brings the score to the threshold. *)
Definition both_at_once : Game := set_bars [low_bar; near_bar] last_life.

(** C1, as stated, fails: with a miss of the last life and a catch that
    reaches the threshold due in the same tick, the session ends as Won
    when the catch sits at the higher index. *)
Lemma terminal_guards_counterexample :
  ∃ st', update sample_canvas 16 0 0 both_at_once = Some st'
    ∧ gameRunning both_at_once = true
    ∧ lives both_at_once = 1 ∧ score both_at_once = 19
    ∧ hits_player (bar_fall low_bar) (player both_at_once) = false
    ∧ (canvas_height sample_canvas < bar_y (bar_fall low_bar))%Q
    ∧ hits_player (bar_fall near_bar) (player both_at_once) = true
    ∧ isBad near_bar = false
    ∧ phase st' = Won ∧ phase st' ≠ Lost.
Proof.
  eexists. split; [vm_compute; reflexivity|].
  repeat split; try reflexivity; discriminate.
Qed.

(** C1 (amended).  In a tick that starts with lives in hand and the score
    below the threshold, the guards are evaluated bar by bar, from the
    last index down: lives <= 0 right after a bad catch or a miss,
    score >= threshold right after a good catch; the first guard that
    fires ends the tick with its transition, and the time guard is
    evaluated last, only when no bar ended the session.  So the tick ends
    either Won with the score at the threshold, lives in hand and the
    clock untouched, or Lost below the threshold (with no life left and
    the clock untouched, or with lives in hand and the clock at 0), or
    still running with lives in hand, the score below the threshold and
    time left.  When the bar at the last index is a catch that reaches the
    threshold the session is Won, and when it takes the last life the
    session is Lost, whatever the bars below it would do; those are left
    as they were. *)
Theorem terminal_guards canvas (delta r1 r2 : Q) (st st' : Game) :
  gameRunning st = true →
  0 < lives st →
  score st < WIN_SCORE →
  update canvas delta r1 r2 st = Some st' →
  let st1 := spawn_phase canvas delta r1 r2 (move_player canvas st) in
  settled st st'
  ∧ (∀ pre b,
       bars st1 = pre ++ [b] →
       hits_player (bar_fall b) (player st1) = true →
       isBad b = false →
       score st + 1 = WIN_SCORE →
       phase st' = Won ∧ bars st' = pre)
  ∧ (∀ pre b,
       bars st1 = pre ++ [b] →
       (hits_player (bar_fall b) (player st1) = true ∧ isBad b = true)
       ∨ (hits_player (bar_fall b) (player st1) = false
          ∧ (canvas_height canvas < bar_y (bar_fall b))%Q) →
       lives st = 1 →
       phase st' = Lost ∧ lives st' = 0 ∧ bars st' = pre).
Proof.
  intros Hrun Hlives Hscore Hup st1.
  destruct (before_loop_frame canvas delta r1 r2 st) as [Hs1 Hl1].
  fold st1 in Hs1, Hl1.
  split; [|split].
  - apply (update_settled canvas delta r1 r2); [|exact Hup].
    unfold in_play. auto.
  - intros pre b Hbars Hhit Hgood Hwin.
    destruct (last_bar_wins canvas st1 pre b Hbars Hhit Hgood
                ltac:(rewrite Hs1; lia))
      as (s' & Hloop & Hphase & Hbars' & _).
    apply update_returns in Hloop.
    replace st' with s' by congruence. auto.
  - intros pre b Hbars Hcase Hlast.
    destruct (last_bar_loses canvas st1 pre b Hbars Hcase
                ltac:(rewrite Hl1; lia))
      as (s' & ev & Hloop & _ & Hphase & Hbars' & _ & Hlives').
    apply update_returns in Hloop.
    replace st' with s' by congruence.
    repeat split; try assumption. lia.
Qed.

Lemma terminal_guards_witness :
  ∃ st', update sample_canvas 16 0 0 both_at_once = Some st'
    ∧ settled both_at_once st'
    ∧ phase st' = Won ∧ bars st' = [low_bar].
Proof.
  eexists. split; [vm_compute; reflexivity|].
  destruct (terminal_guards sample_canvas 16 0 0 both_at_once _
              eq_refl eq_refl eq_refl ltac:(vm_compute; reflexivity))
    as (Hset & Hwin & _).
  split; [exact Hset|].
  apply (Hwin [low_bar] near_bar); reflexivity.
Defined.

(** ** One outcome per bar *)

(** What the first loop does to a bar, read off its two tests: the bar is
    the one already moved. *)
Definition bar_outcome (canvas : Canvas) (p : Player) (bar : Bar)
    : option Event :=
  if hits_player bar p then Some (Caught bar)
  else if Qltb (canvas_height canvas) (bar_y bar) then Some (Missed bar)
  else None.

Definition stays (canvas : Canvas) (p : Player) (bar : Bar) : bool :=
  negb (hits_player bar p) && negb (Qltb (canvas_height canvas) (bar_y bar)).

Definition is_shot (e : Event) : Prop :=
  match e with Shot _ _ => True | _ => False end.

Lemma insert_middle {A} (l1 l2 : list A) x y :
  <[length l1 := y]> (l1 ++ x :: l2) = l1 ++ y :: l2.
Proof. induction l1 as [|z l1 IH]; simpl; [reflexivity|]. by rewrite IH. Qed.

Lemma outcome_partition canvas p (l : list Bar) :
  l ≡ₚ List.filter (stays canvas p) l
       ++ (event_bar <$> omap (bar_outcome canvas p) l).
Proof.
  induction l as [|b l IH]; [reflexivity|].
  cbn [List.filter omap list_omap]. unfold stays, bar_outcome at 1.
  destruct (hits_player b p); cbn [negb andb fmap list_fmap event_bar].
  - rewrite <- Permutation_middle. by constructor.
  - destruct (Qltb (canvas_height canvas) (bar_y b));
      cbn [negb fmap list_fmap event_bar app].
    + rewrite <- Permutation_middle. by constructor.
    + by constructor.
Qed.

Section Trace.

Variable canvas : Canvas.

(** One iteration at the index that holds [b]: the bar is moved once and
    either stays in place or is removed with its one event; nothing else
    in the array changes. *)
Lemma bar_body_at st pre b suf :
  bars st = pre ++ b :: suf →
  ∃ c,
    bar_body canvas (length pre) st
    = (c, omap (bar_outcome canvas (player st)) [bar_fall b])
    ∧ match c with
      | Go s =>
          bars s
          = pre ++ List.filter (stays canvas (player st)) [bar_fall b] ++ suf
          ∧ player s = player st
      | Ret s =>
          bars s = pre ++ suf ∧ gameRunning s = false
      | Throw => False
      end.
Proof.
  intros Hbars. unfold bar_body.
  rewrite Hbars, list_lookup_middle by reflexivity. cbv zeta. proj.
  rewrite delete_insert_same, delete_middle, insert_middle.
  cbn [omap list_omap List.filter]. unfold bar_outcome, stays.
  destruct (hits_player (bar_fall b) (player st)); cbn [negb andb app].
  - destruct (isBad (bar_fall b)); proj.
    + destruct (lives st - 1 <=? 0); eexists; (split; [reflexivity|]);
        proj; auto.
    + destruct (WIN_SCORE <=? score st + 1);
        [eexists; (split; [reflexivity|]); proj; auto|].
      destruct (Z.rem (score st + 1) 5 =? 0); eexists;
        (split; [reflexivity|]); proj; auto.
  - destruct (Qltb (canvas_height canvas) (bar_y (bar_fall b)));
      cbn [negb app]; proj.
    + destruct (lives st - 1 <=? 0); eexists; (split; [reflexivity|]);
        proj; auto.
    + eexists. split; [reflexivity|]. proj. auto.
Qed.

(** The first loop, started at the end of [pre]: it handles a suffix
    [seen] of [pre], last entry first, each entry once; it stops before
    [todo] only by returning. *)
Lemma bars_loop_trace pre :
  ∀ st suf, bars st = pre ++ suf →
  ∃ c todo seen,
    pre = todo ++ seen
    ∧ bars_loop canvas (length pre) st
      = (c, omap (bar_outcome canvas (player st))
              (reverse (bar_fall <$> seen)))
    ∧ match c with
      | Go s =>
          todo = []
          ∧ bars s
            = List.filter (stays canvas (player st)) (bar_fall <$> seen)
              ++ suf
          ∧ player s = player st
      | Ret s =>
          bars s
          = todo
            ++ List.filter (stays canvas (player st)) (bar_fall <$> seen)
            ++ suf
          ∧ gameRunning s = false
      | Throw => False
      end.
Proof.
  induction pre as [|b pre IH] using rev_ind; intros st suf Hbars.
  - exists (Go st), [], []. simpl. auto.
  - rewrite length_app. simpl length.
    replace (length pre + 1)%nat with (S (length pre)) by lia.
    cbn [bars_loop]. rewrite <- app_assoc in Hbars. simpl in Hbars.
    destruct (bar_body_at st pre b suf Hbars) as (c1 & Hbody & Hc1).
    rewrite Hbody. destruct c1 as [s1|s1|]; [| |contradiction].
    + destruct Hc1 as [Hbars1 Hp1].
      destruct (IH s1 _ Hbars1) as (c & todo & seen & Hpre & Hloop & Hc).
      rewrite Hloop, Hp1. exists c, todo, (seen ++ [b]).
      split; [rewrite Hpre, <- app_assoc; reflexivity|].
      split; [rewrite fmap_snoc, reverse_snoc, <- omap_app; reflexivity|].
      rewrite fmap_snoc, List.filter_app, <- !app_assoc.
      destruct c as [s|s|]; rewrite ?Hp1 in Hc; exact Hc.
    + destruct Hc1 as [Hbars1 Hstop].
      exists (Ret s1), pre, [b]. split; [reflexivity|].
      split; [reflexivity|]. split; [|exact Hstop].
      rewrite Hbars1. f_equal.
      (* the iteration returned, so the bar did not stay *)
      revert Hbody. unfold bar_body.
      rewrite Hbars, list_lookup_middle by reflexivity. cbv zeta. proj.
      cbn [fmap list_fmap List.filter]. unfold stays.
      destruct (hits_player (bar_fall b) (player st)); [reflexivity|].
      destruct (Qltb (canvas_height canvas) (bar_y (bar_fall b)));
        [reflexivity|].
      intros H. inversion H.
Qed.

End Trace.

(** The bullets loop only ever removes bars, one per event. *)
Lemma length_delete_ge {A} (l : list A) i :
  (length l - 1 ≤ length (delete i l))%nat.
Proof.
  revert i. induction l as [|x l IH]; intros [|i]; simpl; try lia.
  specialize (IH i). lia.
Qed.

Lemma bullet_scan_trace n bi bullet st :
  (n ≤ length (bars st))%nat →
  ∃ s removed ev,
    bullet_scan n bi bullet st = Some (s, removed, ev)
    ∧ bars st ≡ₚ bars s ++ (event_bar <$> ev)
    ∧ Forall is_shot ev
    ∧ (length (bullets st) - 1 ≤ length (bullets s))%nat
    ∧ gameRunning s = gameRunning st.
Proof.
  induction n as [|m IH]; intros Hn; simpl.
  - exists st, false, []. rewrite app_nil_r. repeat split; auto. lia.
  - destruct (lookup_lt_is_Some_2 (bars st) m ltac:(lia)) as [bar Hbar].
    rewrite Hbar. destruct (hits_bar bullet bar); [|apply IH; lia].
    cbv zeta. proj. do 3 eexists. split; [reflexivity|].
    split; [|split; [|split]].
    + destruct (isBad bar); proj; cbn [fmap list_fmap event_bar];
        rewrite <- Permutation_cons_append; by apply delete_Permutation.
    + repeat constructor.
    + destruct (isBad bar); proj; apply length_delete_ge.
    + destruct (isBad bar); reflexivity.
Qed.

Lemma bullet_body_trace bi st :
  (bi < length (bullets st))%nat →
  ∃ s ev,
    bullet_body bi st = (Go s, ev)
    ∧ bars st ≡ₚ bars s ++ (event_bar <$> ev)
    ∧ Forall is_shot ev
    ∧ (bi ≤ length (bullets s))%nat
    ∧ gameRunning s = gameRunning st.
Proof.
  intros Hbi. unfold bullet_body.
  destruct (lookup_lt_is_Some_2 (bullets st) bi Hbi) as [bullet Hbullet].
  rewrite Hbullet. cbv zeta. proj.
  destruct (Qltb _ 0).
  - do 2 eexists. split; [reflexivity|]. proj. rewrite app_nil_r.
    repeat split; auto.
    pose proof (length_delete_ge (<[bi := bullet_rise bullet]> (bullets st)) bi)
      as H.
    rewrite length_insert in H. lia.
  - destruct (bullet_scan_trace (length (bars st)) bi (bullet_rise bullet)
                (set_bullets (<[bi := bullet_rise bullet]> (bullets st)) st)
                ltac:(proj; lia))
      as (s & removed & ev & Hscan & Hperm & Hshot & Hlen & Hrun).
    rewrite Hscan. exists s, ev. split; [reflexivity|]. proj.
    rewrite length_insert in Hlen. repeat split; auto. lia.
Qed.

Lemma bullets_loop_trace n :
  ∀ st, (n ≤ length (bullets st))%nat →
  ∃ s evs,
    bullets_loop n st = (Go s, evs)
    ∧ bars st ≡ₚ bars s ++ (event_bar <$> evs)
    ∧ Forall is_shot evs
    ∧ gameRunning s = gameRunning st.
Proof.
  induction n as [|bi IH]; intros st Hn; simpl.
  - exists st, []. rewrite app_nil_r. auto.
  - destruct (bullet_body_trace bi st ltac:(lia))
      as (s1 & ev & Hbody & Hperm1 & Hshot1 & Hlen & Hrun1).
    rewrite Hbody.
    destruct (IH s1 Hlen) as (s & evs & Hloop & Hperm & Hshot & Hrun).
    rewrite Hloop. exists s, (ev ++ evs). split; [reflexivity|].
    split; [|split; [by apply Forall_app|congruence]].
    rewrite Hperm1, Hperm, fmap_app.
    rewrite <- !app_assoc. apply Permutation_app_head, Permutation_app_comm.
Qed.

(** The bullets loop handles its own array in the same way: the bullets
    left are, in order, bullets that were there, each moved once. *)
Lemma bullet_scan_bullets n bi bullet st s removed ev :
  bullet_scan n bi bullet st = Some (s, removed, ev) →
  bullets s = if removed then delete bi (bullets st) else bullets st.
Proof.
  revert st. induction n as [|i IH]; intros st H; simpl in H.
  - inversion H; subst. reflexivity.
  - split_body H; proj; eauto.
Qed.

Lemma bullet_body_store st pre b suf s ev :
  bullets st = pre ++ b :: suf →
  bullet_body (length pre) st = (Go s, ev) →
  ∃ kept, bullets s = pre ++ kept ++ suf
    ∧ kept `sublist_of` [bullet_rise b].
Proof.
  intros Hb H. unfold bullet_body in H.
  rewrite Hb, list_lookup_middle in H by reflexivity.
  cbv zeta in H. proj. rewrite insert_middle in H.
  destruct (Qltb _ 0).
  - inversion H; subst. proj. rewrite delete_middle.
    exists []. split; [reflexivity|apply sublist_nil_l].
  - destruct (bullet_scan _ _ _ _) as [[[s' removed] ev']|] eqn:Hscan;
      [|discriminate H].
    inversion H; subst. apply bullet_scan_bullets in Hscan. proj.
    rewrite Hscan. destruct removed.
    + rewrite delete_middle. exists []. split; [reflexivity|].
      apply sublist_nil_l.
    + exists [bullet_rise b]. split; reflexivity.
Qed.

Lemma bullets_loop_store pre :
  ∀ st suf s evs,
    bullets st = pre ++ suf →
    bullets_loop (length pre) st = (Go s, evs) →
    ∃ kept, bullets s = kept ++ suf
      ∧ kept `sublist_of` (bullet_rise <$> pre).
Proof.
  induction pre as [|b pre IH] using rev_ind; intros st suf s evs Hb H.
  - simpl in H. inversion H; subst. exists []. split; [exact Hb|constructor].
  - rewrite length_app in H. simpl length in H.
    replace (length pre + 1)%nat with (S (length pre)) in H by lia.
    cbn [bullets_loop] in H. rewrite <- app_assoc in Hb. simpl in Hb.
    destruct (bullet_body (length pre) st) as [[s1|s1|] ev] eqn:Hbody;
      try discriminate H.
    destruct (bullet_body_store st pre b suf s1 ev Hb Hbody)
      as (kept1 & Hs1 & Hsub1).
    destruct (bullets_loop (length pre) s1) as [c evs1] eqn:Hloop.
    inversion H; subst.
    destruct (IH s1 (kept1 ++ suf) s evs1 Hs1 Hloop) as (kept & Hs & Hsub).
    exists (kept ++ kept1). split; [by rewrite <- app_assoc|].
    rewrite fmap_snoc. by apply sublist_app.
Qed.

Section BulletStore.

Variable canvas : Canvas.

Lemma bar_body_bullets i st c ev :
  bar_body canvas i st = (c, ev) →
  match c with
  | Go st' | Ret st' => bullets st' = bullets st
  | Throw => True
  end.
Proof.
  intros H. unfold bar_body in H. split_body H; proj; try reflexivity;
  unfold level_up; reflexivity.
Qed.

Lemma bars_loop_bullets n st :
  match fst (bars_loop canvas n st) with
  | Go st' | Ret st' => bullets st' = bullets st
  | Throw => True
  end.
Proof.
  pose proof (bars_loop_rule canvas (λ s, bullets s = bullets st)
                (λ s, bullets s = bullets st)) as H.
  specialize (H
    ltac:(intros i s s' ev HP Hb; apply bar_body_bullets in Hb; congruence)
    ltac:(intros i s s' ev HP Hb; apply bar_body_bullets in Hb; congruence)
    n st eq_refl).
  destruct (fst (bars_loop canvas n st)); exact H.
Qed.

Lemma before_loop_bullets delta r1 r2 st :
  bullets (spawn_phase canvas delta r1 r2 (move_player canvas st))
  = bullets st.
Proof.
  unfold spawn_phase, spawnBar, move_player, clamp_player. cbv zeta.
  repeat match goal with
         | |- context [if ?c then _ else _] => destruct c
         end; reflexivity.
Qed.

End BulletStore.

(** ** A tick always completes *)

Section Completion.

Variable canvas : Canvas.

Lemma update_log_total delta r1 r2 st :
  ∃ st' evs, update_log canvas delta r1 r2 st = (Some st', evs).
Proof.
  unfold update_log. cbv zeta.
  generalize (spawn_phase canvas delta r1 r2 (move_player canvas st)).
  intros st1.
  destruct (bars_loop_trace canvas (bars st1) st1 []
              ltac:(by rewrite app_nil_r))
    as (c & todo & seen & _ & Hloop & Hc).
  rewrite Hloop. destruct c as [s|s|]; [|eauto|contradiction].
  destruct (bullets_loop_trace (length (bullets (instruction_phase delta s)))
              (instruction_phase delta s) ltac:(lia))
    as (s3 & shots & Hbul & _).
  rewrite Hbul. eauto.
Qed.

End Completion.

(** ** The spawner inside a tick *)

(** What the code that follows the spawn phase keeps: it never writes
    [lastSpawn], and each bar it takes out of the store is logged once. *)
Definition after_spawn (st0 : Game) (evs : list Event) (st : Game) : Prop :=
  lastSpawn st = lastSpawn st0
  ∧ (length (bars st) + length evs = length (bars st0))%nat.

Definition after_spawn_ctl (st0 : Game) (evs : list Event) (c : ctl) : Prop :=
  match c with Go st | Ret st => after_spawn st0 evs st | Throw => True end.

Section SpawnLink.

Variable canvas : Canvas.

Lemma bar_body_after_spawn i st c ev :
  bar_body canvas i st = (c, ev) → after_spawn_ctl st ev c.
Proof.
  intros H. unfold bar_body in H.
  destruct (bars st !! i) as [bar|] eqn:Hbar;
    [|inversion H; subst; exact I].
  pose proof (lookup_lt_Some _ _ _ Hbar) as Hlt.
  assert (Hdel : (length (delete i (bars st)) + 1 = length (bars st))%nat).
  { rewrite length_delete by eauto. lia. }
  cbv zeta in H. proj. rewrite delete_insert_same in H.
  split_body H; unfold after_spawn_ctl, after_spawn; proj; unfold level_up;
    proj; rewrite ?length_insert; simpl length; (split; [reflexivity|lia]).
Qed.

Lemma bars_loop_after_spawn n :
  ∀ st c evs, bars_loop canvas n st = (c, evs) → after_spawn_ctl st evs c.
Proof.
  induction n as [|i IH]; intros st c evs H; simpl in H.
  - inversion H; subst. unfold after_spawn_ctl, after_spawn. simpl.
    split; [reflexivity|lia].
  - destruct (bar_body canvas i st) as [[s1|s1|] ev] eqn:Hbody.
    + apply bar_body_after_spawn in Hbody.
      destruct (bars_loop canvas i s1) as [c1 evs1] eqn:Hloop.
      apply IH in Hloop. inversion H; subst.
      unfold after_spawn_ctl, after_spawn in *. rewrite !length_app.
      destruct c; try exact I; destruct Hbody, Hloop;
        (split; [congruence|lia]).
    + inversion H; subst. by apply bar_body_after_spawn in Hbody.
    + inversion H; subst. exact I.
Qed.

Lemma bullet_scan_after_spawn n bi bullet st s removed ev :
  bullet_scan n bi bullet st = Some (s, removed, ev) → after_spawn st ev s.
Proof.
  revert st. induction n as [|i IH]; intros st H; simpl in H.
  - inversion H; subst. unfold after_spawn. simpl. split; [reflexivity|lia].
  - destruct (bars st !! i) as [bar|] eqn:Hbar; [|discriminate H].
    pose proof (lookup_lt_Some _ _ _ Hbar) as Hlt.
    assert (Hdel : (length (delete i (bars st)) + 1 = length (bars st))%nat).
    { rewrite length_delete by eauto. lia. }
    destruct (hits_bar bullet bar); [|eauto].
    cbv zeta in H. inversion H; subst. unfold after_spawn.
    destruct (isBad bar); proj; simpl length; (split; [reflexivity|lia]).
Qed.

Lemma bullet_body_after_spawn bi st c ev :
  bullet_body bi st = (c, ev) → after_spawn_ctl st ev c.
Proof.
  intros H. unfold bullet_body in H. split_body H; unfold after_spawn_ctl;
    try exact I;
    try (unfold after_spawn; proj; simpl length; split; [reflexivity|lia];
         fail).
  match goal with
  | H : bullet_scan _ _ _ _ = _ |- _ => apply bullet_scan_after_spawn in H
  end.
  unfold after_spawn in *. proj. assumption.
Qed.

Lemma bullets_loop_after_spawn n :
  ∀ st c evs, bullets_loop n st = (c, evs) → after_spawn_ctl st evs c.
Proof.
  induction n as [|i IH]; intros st c evs H; simpl in H.
  - inversion H; subst. unfold after_spawn_ctl, after_spawn. simpl.
    split; [reflexivity|lia].
  - destruct (bullet_body i st) as [[s1|s1|] ev] eqn:Hbody.
    + apply bullet_body_after_spawn in Hbody.
      destruct (bullets_loop i s1) as [c1 evs1] eqn:Hloop.
      apply IH in Hloop. inversion H; subst.
      unfold after_spawn_ctl, after_spawn in *. rewrite !length_app.
      destruct c; try exact I; destruct Hbody, Hloop;
        (split; [congruence|lia]).
    + inversion H; subst. by apply bullet_body_after_spawn in Hbody.
    + inversion H; subst. exact I.
Qed.

(** The player's move does not touch what the spawner reads and writes. *)
Lemma spawn_phase_after_move delta r1 r2 st :
  bars (spawn_phase canvas delta r1 r2 (move_player canvas st))
  = bars (spawn_phase canvas delta r1 r2 st)
  ∧ lastSpawn (spawn_phase canvas delta r1 r2 (move_player canvas st))
    = lastSpawn (spawn_phase canvas delta r1 r2 st).
Proof.
  assert (H : bars (move_player canvas st) = bars st
              ∧ lastSpawn (move_player canvas st) = lastSpawn st
              ∧ currentSpawnInterval (move_player canvas st)
                = currentSpawnInterval st
              ∧ score (move_player canvas st) = score st).
  { unfold move_player, clamp_player. cbv zeta.
    repeat match goal with
           | |- context [if ?c then _ else _] => destruct c
           end; proj; repeat split. }
  revert H. generalize (move_player canvas st). intros s (Hb & Hl & Hi & Hs).
  unfold spawn_phase, spawnBar. cbv zeta. proj. rewrite Hl, Hi.
  destruct (Qle_bool _ _); proj; rewrite ?Hb, ?Hs; split; reflexivity.
Qed.

(** A tick is the spawn phase followed by code that leaves [lastSpawn]
    alone and removes one bar per logged outcome. *)
Lemma update_log_after_spawn delta r1 r2 st st' evs :
  update_log canvas delta r1 r2 st = (Some st', evs) →
  after_spawn (spawn_phase canvas delta r1 r2 st) evs st'.
Proof.
  unfold update_log. cbv zeta.
  destruct (spawn_phase_after_move delta r1 r2 st) as [Hb1 Hl1].
  unfold after_spawn. rewrite <- Hb1, <- Hl1. clear Hb1 Hl1.
  generalize (spawn_phase canvas delta r1 r2 (move_player canvas st)).
  intros st1.
  destruct (bars_loop canvas (length (bars st1)) st1) as [[s|s|] evs1]
    eqn:Hloop; intros H; try discriminate H;
    apply bars_loop_after_spawn in Hloop;
    unfold after_spawn_ctl, after_spawn in Hloop.
  - assert (Hins : lastSpawn (instruction_phase delta s) = lastSpawn s
                   ∧ bars (instruction_phase delta s) = bars s).
    { unfold instruction_phase. cbv zeta.
      repeat match goal with
             | |- context [if ?c then _ else _] => destruct c
             end; split; reflexivity. }
    revert Hins H. generalize (instruction_phase delta s). intros s2 Hins H.
    destruct (bullets_loop (length (bullets s2)) s2) as [[s3|s3|] evs2]
      eqn:Hbul; try discriminate H;
      apply bullets_loop_after_spawn in Hbul;
      unfold after_spawn_ctl, after_spawn in Hbul;
      inversion H; subst; rewrite length_app;
      destruct Hloop as [Hl1 Hc1], Hins as [Hl2 Hb2], Hbul as [Hl3 Hc3];
      rewrite Hb2 in Hc3.
    + unfold time_phase. cbv zeta. destruct (Qle_bool _ _); proj;
        (split; [congruence|lia]).
    + split; [congruence|lia].
  - inversion H; subst. exact Hloop.
Qed.

End SpawnLink.

(** C7.  Every call of [update] runs the spawn phase, right after the
    player has moved.  The phase adds the elapsed time to [lastSpawn];
    when the sum reaches the current spawn interval exactly one bar is
    appended and [lastSpawn] is reset to 0, however large the elapsed
    time; otherwise no bar is created and the sum is kept.  Nothing else
    in the tick writes [lastSpawn], and nothing else adds a bar: the call
    completes with [lastSpawn] as the spawn phase left it, and the bars it
    leaves are as many as the spawn phase left less one for each outcome
    it logged, so never more than one more than it found.  The new bar's
    [x] is the draw [r1] of [Math.random()], which lies in [0, 1), scaled
    by [canvas.width - BAR_WIDTH]: it lies in [0, canvas.width -
    BAR_WIDTH], and [x] falls in an interval [a, b) exactly when the draw
    falls in [a / W, b / W), an interval [1 / W] times as long, which is
    what makes [x] uniform when the draw is. *)
Theorem spawn_one_bar_per_tick canvas (delta r1 r2 : Q) (st : Game) :
  (0 <= r1)%Q → (r1 < 1)%Q →
  (BAR_WIDTH < canvas_width canvas)%Q →
  let W := (canvas_width canvas - BAR_WIDTH)%Q in
  let st' := spawn_phase canvas delta r1 r2 st in
  ((inject_Z (currentSpawnInterval st) <= lastSpawn st + delta)%Q →
     ∃ bar, bars st' = bars st ++ [bar]
       ∧ lastSpawn st' = 0%Q
       ∧ bar_x bar = (r1 * W)%Q
       ∧ (0 <= bar_x bar)%Q ∧ (bar_x bar <= W)%Q
       ∧ (∀ a b, (a <= bar_x bar)%Q ∧ (bar_x bar < b)%Q
                 ↔ (a / W <= r1)%Q ∧ (r1 < b / W)%Q))
  ∧ ((lastSpawn st + delta < inject_Z (currentSpawnInterval st))%Q →
       bars st' = bars st ∧ lastSpawn st' = (lastSpawn st + delta)%Q)
  ∧ (∀ st'', update canvas delta r1 r2 st = Some st'' →
       (length (bars st'') ≤ S (length (bars st)))%nat)
  ∧ (∃ st'' evs,
       update_log canvas delta r1 r2 st = (Some st'', evs)
       ∧ lastSpawn st'' = lastSpawn st'
       ∧ (length (bars st'') + length evs = length (bars st'))%nat).
Proof.
  intros Hr0 Hr1 Hcw W st'. split; [|split; [|split]].
  - intros Hreach. unfold st', spawn_phase, spawnBar. cbv zeta. proj.
    apply Qle_bool_iff in Hreach. rewrite Hreach. proj.
    eexists. split; [reflexivity|]. cbn [bar_x]. fold W.
    assert (HW : (0 < W)%Q) by (unfold W; lra).
    split; [reflexivity|]. split; [reflexivity|].
    split; [apply Qmult_le_0_compat; lra|].
    split.
    + assert (r1 * W <= 1 * W)%Q by (apply Qmult_le_compat_r; lra). lra.
    + intros a b. rewrite (Qdiv_le_iff a r1 W HW), (Qlt_div_iff b r1 W HW).
      reflexivity.
  - intros Hbelow. unfold st', spawn_phase. cbv zeta. proj.
    apply Qle_bool_gt in Hbelow. rewrite Hbelow. proj. split; reflexivity.
  - intros st''. apply update_bars_length.
  - destruct (update_log_total canvas delta r1 r2 st) as (st'' & evs & Hup).
    exists st'', evs. split; [exact Hup|].
    exact (update_log_after_spawn canvas delta r1 r2 st st'' evs Hup).
Qed.

Lemma spawn_one_bar_per_tick_witness :
  (∃ bar,
     bars (spawn_phase sample_canvas 1000 (1 # 2) 0 sample_start)
     = bars sample_start ++ [bar]
     ∧ lastSpawn (spawn_phase sample_canvas 1000 (1 # 2) 0 sample_start) = 0%Q
     ∧ bar_x bar = ((1 # 2) * (canvas_width sample_canvas - BAR_WIDTH))%Q)
  ∧ (∃ st'' evs,
       update_log sample_canvas 1000 (1 # 2) 0 sample_start = (Some st'', evs)
       ∧ lastSpawn st'' = 0%Q
       ∧ length (bars st'') = 1%nat ∧ evs = []).
Proof.
  destruct (spawn_one_bar_per_tick sample_canvas 1000 (1 # 2) 0
              sample_start
              ltac:(apply Qle_bool_iff; reflexivity)
              ltac:(apply Qltb_lt; reflexivity)
              ltac:(apply Qltb_lt; reflexivity))
    as (Hspawn & _ & _ & st'' & evs & Hup & Hlast & Hcount).
  destruct (Hspawn ltac:(apply Qle_bool_iff; reflexivity))
    as (bar & Hbars & Hlast0 & Hx & _).
  split; [exists bar; auto|].
  exists st'', evs. split; [exact Hup|].
  assert (Hevs : evs = []) by (vm_compute in Hup; by inversion Hup).
  rewrite Hlast, Hlast0. split; [reflexivity|].
  rewrite Hbars, Hevs, length_app in Hcount. simpl in Hcount.
  split; [lia|exact Hevs].
Defined.

(** ** Catches *)

(** The state in which the first loop, entered with its counter at [n],
    starts the iteration at index [i]: the iterations at the indexes from
    [n - 1] down to [i + 1] have run and fallen through.  [None] when one
    of them left [update], so that index [i] is never reached. *)
Fixpoint bars_loop_at (canvas : Canvas) (n i : nat) (st : Game)
    : option Game :=
  match n with
  | O => None
  | S m =>
    if (m =? i)%nat then Some st
    else
      match bar_body canvas m st with
      | (Go st, _) => bars_loop_at canvas m i st
      | _ => None
      end
  end.

(** Two bars over the player and one life left, one point short of the
    threshold: a good bar at index 0 and a bad one at index 1. *)
Definition bad_near_bar : Bar := mkBar 480 630 50 20 3 true.

Definition crowded : Game := set_bars [near_bar; bad_near_bar] last_life.

Section Catches.

Variable canvas : Canvas.

(** One iteration on a bar that, once moved, overlaps the player. *)
Lemma caught_in_iteration (i : nat) (st : Game) (bar : Bar) :
  gameRunning st = true →
  bars st !! i = Some bar →
  hits_player (bar_fall bar) (player st) = true →
  ∃ st',
    bars st' = delete i (bars st)
    ∧ (if isBad bar then
         lives st' = lives st - 1 ∧ score st' = score st
         ∧ phase st' = (if lives st' <=? 0 then Lost else Running)
         ∧ bar_body canvas i st
           = (if lives st' <=? 0 then Ret st' else Go st',
              [Caught (bar_fall bar)])
       else
         score st' = score st + 1 ∧ lives st' = lives st
         ∧ phase st' = (if WIN_SCORE <=? score st' then Won else Running)
         ∧ bar_body canvas i st
           = (if WIN_SCORE <=? score st' then Ret st' else Go st',
              [Caught (bar_fall bar)])).
Proof.
  intros Hrun Hbar Hhit. unfold bar_body. rewrite Hbar. cbv zeta. proj.
  rewrite Hhit, delete_insert_same.
  change (isBad (bar_fall bar)) with (isBad bar).
  destruct (isBad bar); proj.
  - destruct (lives st - 1 <=? 0) eqn:E; body_state; proj; rewrite ?E;
      repeat split.
    by apply phase_running.
  - unfold WIN_SCORE. destruct (20 <=? score st + 1) eqn:E.
    + body_state; proj; rewrite ?E; repeat split.
    + destruct (Z.rem (score st + 1) 5 =? 0); body_state; proj; rewrite ?E;
        repeat split; by apply phase_running.
Qed.

Lemma bar_body_go_running i st s ev :
  bar_body canvas i st = (Go s, ev) → gameRunning s = gameRunning st.
Proof.
  intros H. unfold bar_body in H. split_body H; proj; unfold level_up;
    reflexivity.
Qed.

Lemma before_loop_running delta r1 r2 st :
  gameRunning (spawn_phase canvas delta r1 r2 (move_player canvas st))
  = gameRunning st.
Proof.
  unfold spawn_phase, spawnBar, move_player, clamp_player. cbv zeta.
  repeat match goal with
         | |- context [if ?c then _ else _] => destruct c
         end; reflexivity.
Qed.

(** The iterations that come before the one at index [i] leave the
    entries up to [i] alone, as well as the player; they either all fall
    through, and the loop goes on from index [i], or one of them ends the
    session and the loop with it. *)
Lemma bars_loop_at_spec i n :
  ∀ st, (i < n)%nat → (n ≤ length (bars st))%nat →
  match bars_loop_at canvas n i st with
  | Some s =>
      take (S i) (bars s) = take (S i) (bars st)
      ∧ player s = player st ∧ gameRunning s = gameRunning st
      ∧ ∃ evs, ∀ c evs',
          bars_loop canvas (S i) s = (c, evs') →
          bars_loop canvas n st = (c, evs ++ evs')
  | None =>
      ∃ s' evs,
        bars_loop canvas n st = (Ret s', evs)
        ∧ take (S i) (bars s') = take (S i) (bars st)
        ∧ gameRunning s' = false
  end.
Proof.
  induction n as [|m IH]; intros st Hi Hn; [lia|].
  cbn [bars_loop_at]. destruct (m =? i)%nat eqn:E.
  - apply Nat.eqb_eq in E. subst m.
    split; [reflexivity|]. split; [reflexivity|]. split; [reflexivity|].
    exists []. intros c evs' H. exact H.
  - apply Nat.eqb_neq in E.
    destruct (lookup_lt_is_Some_2 (bars st) m ltac:(lia)) as [b Hb].
    pose proof (take_drop_middle (bars st) m b Hb) as Hsplit.
    pose proof (length_take_le (bars st) m ltac:(lia)) as Hlen.
    destruct (bar_body_at canvas st (take m (bars st)) b
                (drop (S m) (bars st)) (eq_sym Hsplit))
      as (c1 & Hbody & Hc1).
    rewrite Hlen in Hbody.
    assert (Hpre : ∀ l, take (S i) (take m (bars st) ++ l)
                        = take (S i) (bars st)).
    { intros l. rewrite take_app_le by lia.
      rewrite take_take. f_equal. lia. }
    cbn [bars_loop]. rewrite Hbody.
    destruct c1 as [s1|s1|]; [| |contradiction].
    + destruct Hc1 as [Hbars1 Hp1].
      pose proof (bar_body_go_running _ _ _ _ Hbody) as Hr1.
      specialize (IH s1 ltac:(lia)
                    ltac:(rewrite Hbars1, length_app, Hlen; lia)).
      destruct (bars_loop_at canvas m i s1) as [s|].
      * destruct IH as (Ht & Hp & Hr & evs & Hcont).
        split; [rewrite Ht, Hbars1; apply Hpre|].
        split; [congruence|]. split; [congruence|].
        eexists (_ ++ evs). intros c evs' Hloop.
        rewrite (Hcont c evs' Hloop). by rewrite app_assoc.
      * destruct IH as (s' & evs & Hloop & Ht & Hr).
        rewrite Hloop. do 2 eexists. split; [reflexivity|].
        split; [rewrite Ht, Hbars1; apply Hpre|exact Hr].
    + destruct Hc1 as [Hbars1 Hstop].
      do 2 eexists. split; [reflexivity|].
      split; [rewrite Hbars1; apply Hpre|exact Hstop].
Qed.

End Catches.

(** C2, as stated, fails for a bar that the loop does not reach: with one
    life left, the bad bar at index 1 is caught first and ends the
    session; the good bar at index 0, which overlaps the player before and
    after its move, stays in the store and brings no point. *)
Lemma catch_outcome_counterexample :
  ∃ st', update sample_canvas 16 0 0 crowded = Some st'
    ∧ gameRunning crowded = true
    ∧ bars crowded !! 0%nat = Some near_bar
    ∧ hits_player near_bar (player crowded) = true
    ∧ hits_player (bar_fall near_bar) (player crowded) = true
    ∧ isBad near_bar = false
    ∧ bars st' = [near_bar]
    ∧ score st' = score crowded
    ∧ phase st' = Lost.
Proof.
  eexists. split; [vm_compute; reflexivity|]. repeat split.
Qed.

(** C2 (amended).  In a tick the first loop takes the bars one at a time
    from the last index down, and stops at the first one that ends the
    session.  Every bar of the store that, once moved, overlaps the player
    is in one of two cases.  Either the loop reaches it: the bar is then
    still at its index, unmoved, and the iteration removes it; a good bar
    adds exactly 1 to the score and leaves the lives alone, and the
    session becomes Won, which is how [update] leaves it, exactly when the
    new score has reached [WIN_SCORE] = 20; a bad bar takes exactly 1 life
    and leaves the score alone, and the session becomes Lost, which is how
    [update] leaves it, exactly when no life is left.  Or a bar at a
    higher index has ended the session: the bar is then neither moved nor
    removed nor counted, and [update] leaves it at its index. *)
Theorem catch_outcome canvas (delta r1 r2 : Q) (st : Game) (i : nat)
    (bar : Bar) :
  gameRunning st = true →
  let st1 := spawn_phase canvas delta r1 r2 (move_player canvas st) in
  bars st1 !! i = Some bar →
  hits_player (bar_fall bar) (player st1) = true →
  ∃ st',
    update canvas delta r1 r2 st = Some st'
    ∧ match bars_loop_at canvas (length (bars st1)) i st1 with
      | Some s =>
          bars s !! i = Some bar
          ∧ player s = player st1
          ∧ ∃ s',
              bars s' = delete i (bars s)
              ∧ (if isBad bar then
                   lives s' = lives s - 1 ∧ score s' = score s
                   ∧ phase s' = (if lives s' <=? 0 then Lost else Running)
                   ∧ bar_body canvas i s
                     = (if lives s' <=? 0 then Ret s' else Go s',
                        [Caught (bar_fall bar)])
                   ∧ (lives s' <= 0 → st' = s')
                 else
                   score s' = score s + 1 ∧ lives s' = lives s
                   ∧ phase s'
                     = (if WIN_SCORE <=? score s' then Won else Running)
                   ∧ bar_body canvas i s
                     = (if WIN_SCORE <=? score s' then Ret s' else Go s',
                        [Caught (bar_fall bar)])
                   ∧ (WIN_SCORE <= score s' → st' = s'))
      | None =>
          gameRunning st' = false
          ∧ bars st' !! i = Some bar
      end.
Proof.
  intros Hrun st1 Hbar Hhit.
  destruct (update_log_total canvas delta r1 r2 st) as (st' & evs0 & Hlog).
  assert (Hup : update canvas delta r1 r2 st = Some st')
    by (unfold update; by rewrite Hlog).
  exists st'. split; [exact Hup|].
  pose proof (lookup_lt_Some _ _ _ Hbar) as Hlt.
  pose proof (bars_loop_at_spec canvas i (length (bars st1)) st1 Hlt
                ltac:(lia)) as Hat.
  assert (Hrun1 : gameRunning st1 = true)
    by (unfold st1; by rewrite before_loop_running).
  destruct (bars_loop_at canvas (length (bars st1)) i st1) as [s|].
  - destruct Hat as (Ht & Hp & Hr & evs & Hcont).
    assert (Hbar' : bars s !! i = Some bar).
    { rewrite <- (lookup_take_lt (bars s) (S i) i) by lia.
      rewrite Ht, lookup_take_lt by lia. exact Hbar. }
    split; [exact Hbar'|]. split; [exact Hp|].
    destruct (caught_in_iteration canvas i s bar ltac:(congruence) Hbar'
                ltac:(by rewrite Hp))
      as (s' & Hbars' & Hcase).
    exists s'. split; [exact Hbars'|].
    assert (Hret : ∀ ev, bar_body canvas i s = (Ret s', ev) → st' = s').
    { intros ev Hbody.
      assert (Hloop : bars_loop canvas (S i) s = (Ret s', ev))
        by (cbn [bars_loop]; by rewrite Hbody).
      apply Hcont in Hloop. apply update_returns in Hloop. congruence. }
    destruct (isBad bar).
    + destruct Hcase as (Hl & Hs & Hph & Hbody).
      repeat (split; [assumption|]). intros Hend.
      apply Z.leb_le in Hend. rewrite Hend in Hbody. eauto.
    + destruct Hcase as (Hs & Hl & Hph & Hbody).
      repeat (split; [assumption|]). intros Hend.
      apply Z.leb_le in Hend. rewrite Hend in Hbody. eauto.
  - destruct Hat as (s' & evs & Hloop & Ht & Hr).
    apply update_returns in Hloop.
    replace st' with s' by congruence.
    split; [exact Hr|].
    rewrite <- (lookup_take_lt (bars s') (S i) i) by lia.
    rewrite Ht, lookup_take_lt by lia. exact Hbar.
Qed.

Lemma catch_outcome_witness :
  (∃ st', update sample_canvas 16 0 0 last_life = Some st'
     ∧ phase st' = Won ∧ score st' = 20 ∧ bars st' = [])
  ∧ (∃ st', update sample_canvas 16 0 0 crowded = Some st'
       ∧ phase st' = Lost ∧ lives st' = 0 ∧ bars st' = [near_bar]).
Proof.
  split.
  - destruct (catch_outcome sample_canvas 16 0 0 last_life 0 near_bar
                eq_refl eq_refl eq_refl)
      as (st' & Hup & Hcase).
    exists st'. split; [exact Hup|].
    vm_compute bars_loop_at in Hcase.
    destruct Hcase as (_ & _ & s' & Hbars & Hs & _ & Hph & _ & Hend).
    change (isBad near_bar) with false in *.
    assert (Hs20 : score s' = 20) by (rewrite Hs; reflexivity).
    rewrite (Hend ltac:(rewrite Hs20; discriminate)).
    rewrite Hs20 in Hph. split; [exact Hph|]. split; [exact Hs20|].
    rewrite Hbars. reflexivity.
  - destruct (catch_outcome sample_canvas 16 0 0 crowded 1 bad_near_bar
                eq_refl eq_refl eq_refl)
      as (st' & Hup & Hcase).
    exists st'. split; [exact Hup|].
    vm_compute bars_loop_at in Hcase.
    destruct Hcase as (_ & _ & s' & Hbars & Hl & _ & Hph & _ & Hend).
    assert (Hl0 : lives s' = 0) by (rewrite Hl; reflexivity).
    rewrite (Hend ltac:(rewrite Hl0; discriminate)).
    rewrite Hl0 in Hph. split; [exact Hph|]. split; [exact Hl0|].
    rewrite Hbars. reflexivity.
Defined.

(** C9.  A call of [update] never reads past the end of an array, and
    what it does to the bars it found after the spawn phase is this.  The
    first loop handles a suffix [seen] of the array, from the last index
    down, each entry exactly once: the entry is moved once and gets at
    most one of catch and miss, the log listing those outcomes in the
    order of handling.  It leaves a prefix [todo] untouched only when it
    ended the session, and then no bullet is tested.  The bullets loop
    adds only projectile hits.  At the end of the tick the bars still in
    the store together with the bars of the logged outcomes are, counted
    with multiplicity, exactly the bars handled: no bar has two outcomes,
    and no bar with an outcome is still in the store.  The bullets are
    either untouched (the first loop returned) or the bullets left are, in
    their order, bullets that were there, each moved exactly once. *)
Theorem one_outcome_per_bar canvas (delta r1 r2 : Q) (st : Game) :
  let st1 := spawn_phase canvas delta r1 r2 (move_player canvas st) in
  ∃ st' todo seen shots,
    update_log canvas delta r1 r2 st
    = (Some st',
       omap (bar_outcome canvas (player st1)) (reverse (bar_fall <$> seen))
       ++ shots)
    ∧ bars st1 = todo ++ seen
    ∧ Forall is_shot shots
    ∧ (todo ≠ [] → gameRunning st' = false ∧ shots = [])
    ∧ todo ++ (bar_fall <$> seen)
      ≡ₚ bars st'
         ++ (event_bar
             <$> omap (bar_outcome canvas (player st1))
                   (reverse (bar_fall <$> seen))
                 ++ shots)
    ∧ (bullets st' = bullets st
       ∨ bullets st' `sublist_of` (bullet_rise <$> bullets st)).
Proof.
  intros st1. unfold update_log. cbv zeta. fold st1.
  destruct (bars_loop_trace canvas (bars st1) st1 []
              ltac:(by rewrite app_nil_r))
    as (c & todo & seen & Hpre & Hloop & Hc).
  pose proof (bars_loop_bullets canvas (length (bars st1)) st1) as Hbullets.
  rewrite Hloop in *. cbn [fst] in Hbullets.
  assert (Hb1 : bullets st1 = bullets st) by apply before_loop_bullets.
  assert (Hpart : bar_fall <$> seen
            ≡ₚ List.filter (stays canvas (player st1)) (bar_fall <$> seen)
               ++ (event_bar
                   <$> omap (bar_outcome canvas (player st1))
                         (reverse (bar_fall <$> seen)))).
  { rewrite reverse_Permutation. apply outcome_partition. }
  destruct c as [s|s|]; [| |contradiction].
  - destruct Hc as (-> & Hbars & _). rewrite app_nil_r in Hbars.
    set (s2 := instruction_phase delta s).
    assert (Hs2 : bars s2 = bars s ∧ bullets s2 = bullets s).
    { unfold s2, instruction_phase. cbv zeta.
      repeat match goal with
             | |- context [if ?c then _ else _] => destruct c
             end; split; reflexivity. }
    destruct Hs2 as [Hbars2 Hbullets2].
    destruct (bullets_loop_trace (length (bullets s2)) s2 ltac:(lia))
      as (s3 & shots & Hbul & Hperm & Hshot & _).
    rewrite Hbul. exists (time_phase delta s3), [], seen, shots.
    assert (Hs3 : bars (time_phase delta s3) = bars s3
                  ∧ bullets (time_phase delta s3) = bullets s3).
    { unfold time_phase. cbv zeta.
      destruct (Qle_bool _ _); split; reflexivity. }
    destruct Hs3 as [Hbars3 Hbullets3].
    split; [reflexivity|]. split; [exact Hpre|]. split; [exact Hshot|].
    split; [congruence|]. split.
    + rewrite app_nil_l, Hbars3, fmap_app, Hpart at 1.
      rewrite <- Hbars, <- Hbars2, Hperm, <- !app_assoc.
      apply Permutation_app_head, Permutation_app_comm.
    + right. rewrite Hbullets3.
      destruct (bullets_loop_store (bullets s2) s2 [] s3 shots
                  ltac:(by rewrite app_nil_r) Hbul)
        as (kept & Hkept & Hsub).
      rewrite app_nil_r in Hkept.
      by rewrite Hkept, <- Hb1, <- Hbullets, <- Hbullets2.
  - destruct Hc as [Hbars Hstop]. rewrite app_nil_r in Hbars.
    exists s, todo, seen, []. rewrite !app_nil_r.
    split; [reflexivity|]. split; [exact Hpre|]. split; [constructor|].
    split; [auto|]. split; [|left; congruence].
    rewrite Hbars, <- app_assoc. apply Permutation_app_head. exact Hpart.
Qed.

(** ** The books of a tick *)

(** What an outcome is worth in points and in lives. *)
Definition points (e : Event) : Z :=
  match e with
  | Caught bar => if isBad bar then 0 else 1
  | Missed _ | Shot _ _ => 0
  end.

Definition life_change (e : Event) : Z :=
  match e with
  | Caught bar => if isBad bar then -1 else 0
  | Missed _ => -1
  | Shot bar _ => if isBad bar then 1 else 0
  end.

Definition total (f : Event → Z) (evs : list Event) : Z :=
  foldr (λ e acc, f e + acc) 0 evs.

Lemma total_app f evs1 evs2 :
  total f (evs1 ++ evs2) = total f evs1 + total f evs2.
Proof.
  induction evs1 as [|e evs1 IH]; simpl; [reflexivity|].
  fold (total f (evs1 ++ evs2)). fold (total f evs1). lia.
Qed.

(** The score and the lives a state holds beyond those of [st0] are the
    totals of the log [evs]. *)
Definition booked (st0 : Game) (evs : list Event) (st : Game) : Prop :=
  score st = score st0 + total points evs
  ∧ lives st = lives st0 + total life_change evs.

Definition booked_ctl (st0 : Game) (evs : list Event) (c : ctl) : Prop :=
  match c with Go st | Ret st => booked st0 evs st | Throw => True end.

Section Books.

Variable canvas : Canvas.

Lemma bar_body_booked i st c ev :
  bar_body canvas i st = (c, ev) → booked_ctl st ev c.
Proof.
  intros H. unfold bar_body in H.
  split_body H; unfold booked_ctl, booked, total; proj; unfold level_up; proj;
    cbn [foldr points life_change];
    repeat match goal with
           | H : isBad _ = _ |- _ => rewrite H
           end; split; lia.
Qed.

Lemma bars_loop_booked n :
  ∀ st c evs, bars_loop canvas n st = (c, evs) → booked_ctl st evs c.
Proof.
  induction n as [|i IH]; intros st c evs H; simpl in H.
  - inversion H; subst. unfold booked_ctl, booked. simpl. lia.
  - destruct (bar_body canvas i st) as [[s1|s1|] ev] eqn:Hbody.
    + apply bar_body_booked in Hbody.
      destruct (bars_loop canvas i s1) as [c1 evs1] eqn:Hloop.
      apply IH in Hloop. inversion H; subst.
      unfold booked_ctl, booked in *. rewrite !total_app.
      destruct c; try exact I; lia.
    + inversion H; subst. by apply bar_body_booked in Hbody.
    + inversion H; subst. exact I.
Qed.

Lemma bullet_scan_booked n bi bullet st s removed ev :
  bullet_scan n bi bullet st = Some (s, removed, ev) → booked st ev s.
Proof.
  revert st. induction n as [|i IH]; intros st H; simpl in H.
  - inversion H; subst. unfold booked. simpl. lia.
  - split_body H; eauto; unfold booked, total; proj;
      cbn [foldr points life_change];
      repeat match goal with
             | H : isBad _ = _ |- _ => rewrite H
             end; split; lia.
Qed.

Lemma bullet_body_booked bi st c ev :
  bullet_body bi st = (c, ev) → booked_ctl st ev c.
Proof.
  intros H. unfold bullet_body in H. split_body H; unfold booked_ctl;
    try exact I; try (unfold booked; simpl; lia).
  match goal with
  | H : bullet_scan _ _ _ _ = _ |- _ => apply bullet_scan_booked in H
  end.
  assumption.
Qed.

Lemma bullets_loop_booked n :
  ∀ st c evs, bullets_loop n st = (c, evs) → booked_ctl st evs c.
Proof.
  induction n as [|i IH]; intros st c evs H; simpl in H.
  - inversion H; subst. unfold booked_ctl, booked. simpl. lia.
  - destruct (bullet_body i st) as [[s1|s1|] ev] eqn:Hbody.
    + apply bullet_body_booked in Hbody.
      destruct (bullets_loop i s1) as [c1 evs1] eqn:Hloop.
      apply IH in Hloop. inversion H; subst.
      unfold booked_ctl, booked in *. rewrite !total_app.
      destruct c; try exact I; lia.
    + inversion H; subst. by apply bullet_body_booked in Hbody.
    + inversion H; subst. exact I.
Qed.

(** Over a whole tick the score grows by the number of good catches, and
    the lives change by the bad bars shot less the bad catches and the
    misses; nothing else touches either. *)
Lemma update_booked delta r1 r2 st st' evs :
  update_log canvas delta r1 r2 st = (Some st', evs) → booked st evs st'.
Proof.
  unfold update_log. cbv zeta.
  destruct (before_loop_frame canvas delta r1 r2 st) as [Hs1 Hl1].
  revert Hs1 Hl1.
  generalize (spawn_phase canvas delta r1 r2 (move_player canvas st)).
  intros st1 Hs1 Hl1.
  destruct (bars_loop canvas (length (bars st1)) st1) as [[s|s|] evs1]
    eqn:Hloop; intros H; try discriminate H;
    apply bars_loop_booked in Hloop; unfold booked_ctl, booked in Hloop.
  - assert (Hins : score (instruction_phase delta s) = score s
                   ∧ lives (instruction_phase delta s) = lives s).
    { unfold instruction_phase. cbv zeta.
      repeat match goal with
             | |- context [if ?c then _ else _] => destruct c
             end; split; reflexivity. }
    revert Hins H. generalize (instruction_phase delta s). intros s2 Hins H.
    destruct (bullets_loop (length (bullets s2)) s2) as [[s3|s3|] evs2]
      eqn:Hbul; try discriminate H.
    + apply bullets_loop_booked in Hbul. unfold booked_ctl, booked in Hbul.
      inversion H; subst. unfold booked. rewrite !total_app.
      unfold time_phase. cbv zeta. destruct (Qle_bool _ _); proj; lia.
    + apply bullets_loop_booked in Hbul. unfold booked_ctl, booked in Hbul.
      inversion H; subst. unfold booked. rewrite !total_app. lia.
  - inversion H; subst. unfold booked. lia.
Qed.

End Books.

(** ** The leaderboard stays sorted and short *)

(** Every entry scores at least as much as every entry after it. *)
Definition sorted_desc (hs : list Entry) : Prop :=
  StronglySorted (λ a b, entry_score b <= entry_score a) hs.

Definition by_score_desc (a b : Entry) : Z := entry_score b - entry_score a.

Lemma sort_insert_Forall {A} (P : A → Prop) cmp a (l : list A) :
  P a → Forall P l → Forall P (sort_insert cmp a l).
Proof.
  intros Ha Hl. induction Hl as [|b l Hb Hl IH]; simpl.
  - by constructor.
  - destruct (cmp a b <=? 0); repeat constructor; assumption.
Qed.

Lemma sort_insert_sorted a hs :
  sorted_desc hs → sorted_desc (sort_insert by_score_desc a hs).
Proof.
  unfold sorted_desc. intros Hs. induction Hs as [|b l Hl IH Hb]; simpl.
  - repeat constructor.
  - unfold by_score_desc at 1.
    destruct (entry_score b - entry_score a <=? 0) eqn:E; zbool.
    + constructor; [by constructor|]. constructor; [lia|].
      eapply Forall_impl; [exact Hb|]. simpl. intros c Hc. lia.
    + constructor; [exact IH|].
      apply sort_insert_Forall; [lia|exact Hb].
Qed.

Lemma Array_sort_sorted hs : sorted_desc (Array_sort by_score_desc hs).
Proof.
  induction hs as [|a hs IH]; simpl.
  - constructor.
  - by apply sort_insert_sorted.
Qed.

Lemma sorted_desc_take n hs : sorted_desc hs → sorted_desc (take n hs).
Proof.
  unfold sorted_desc. intros Hs. revert n.
  induction Hs as [|a l Hl IH Ha]; intros [|n]; simpl; try constructor.
  - apply IH.
  - by apply Forall_take.
Qed.

Lemma sort_insert_Permutation {A} cmp (a : A) l :
  sort_insert cmp a l ≡ₚ a :: l.
Proof.
  induction l as [|b l IH]; simpl; [reflexivity|].
  destruct (cmp a b <=? 0); [reflexivity|].
  rewrite IH. apply perm_swap.
Qed.

Lemma Array_sort_Permutation {A} cmp (l : list A) : Array_sort cmp l ≡ₚ l.
Proof.
  induction l as [|a l IH]; simpl; [reflexivity|].
  by rewrite sort_insert_Permutation, IH.
Qed.

Lemma updateHighScores_sorted newScore playerName hs :
  sorted_desc (updateHighScores newScore playerName hs)
  ∧ (length (updateHighScores newScore playerName hs) ≤ 5)%nat.
Proof.
  unfold updateHighScores. cbv zeta.
  fold by_score_desc.
  set (l := Array_sort by_score_desc (hs ++ [mkEntry playerName newScore])).
  assert (Hl : sorted_desc l) by apply Array_sort_sorted.
  destruct (5 <? length l)%nat eqn:E.
  - split; [by apply sorted_desc_take|]. rewrite length_take. lia.
  - apply Nat.ltb_ge in E. split; assumption.
Qed.

(** A run of insertions, oldest first. *)
Definition record_all (runs : list (Z * string)) (hs : list Entry)
    : list Entry :=
  foldl (λ hs run, updateHighScores run.1 run.2 hs) hs runs.

(** C6.  Whatever the leaderboard held and whatever scores were recorded
    before, right after an insertion by [updateHighScores] the leaderboard
    is sorted in descending order of score (every entry scores at least as
    much as every later one) and holds at most 5 entries; the entries kept
    are the first five of the old entries and the new one in that order.
    [endGame] and [winGame] record the session's score in this way. *)
Theorem leaderboard_sorted_top5 (hs0 : list Entry) (runs : list (Z * string))
    (newScore : Z) (playerName : string) :
  let before := record_all runs hs0 in
  let after := updateHighScores newScore playerName before in
  sorted_desc after
  ∧ (length after ≤ 5)%nat
  ∧ (∃ dropped, after ++ dropped ≡ₚ before ++ [mkEntry playerName newScore]
       ∧ sorted_desc (after ++ dropped))
  ∧ record_all (runs ++ [(newScore, playerName)]) hs0 = after
  ∧ (∀ st, highScores (endGame st)
           = updateHighScores (score st) (currentPlayerName st) (highScores st)
         ∧ highScores (winGame st)
           = updateHighScores (score st) (currentPlayerName st)
               (highScores st)).
Proof.
  intros before after.
  destruct (updateHighScores_sorted newScore playerName before) as [Hs Hl].
  split; [exact Hs|]. split; [exact Hl|]. split; [|split].
  - unfold after, updateHighScores. cbv zeta. fold by_score_desc.
    set (l := Array_sort by_score_desc
                (before ++ [mkEntry playerName newScore])).
    assert (Hsorted : sorted_desc l) by apply Array_sort_sorted.
    assert (Hperm : l ≡ₚ before ++ [mkEntry playerName newScore])
      by apply Array_sort_Permutation.
    destruct (5 <? length l)%nat.
    + exists (drop 5 l). rewrite take_drop. by split.
    + exists []. rewrite app_nil_r. by split.
  - unfold record_all. by rewrite foldl_app.
  - intros st. split; reflexivity.
Qed.

(** ** Loading and saving the leaderboard *)

Section CodecFacts.

Import Codec.

Lemma strip_append p s : strip p (p +:+ s) = Some s.
Proof.
  induction p as [|c p IH]; simpl; [reflexivity|].
  by rewrite Ascii.eqb_refl.
Qed.

Lemma read_name_print name k : read_name (print_name name k) = Some (name, k).
Proof.
  induction name as [|c name IH]; [reflexivity|]. simpl.
  destruct (Ascii.eqb c quote) eqn:Eq.
  - apply Ascii.eqb_eq in Eq. subst c. simpl. by rewrite IH.
  - destruct (Ascii.eqb c backslash) eqn:Eb; simpl.
    + by rewrite IH.
    + by rewrite Eq, Eb, IH.
Qed.

(** No closing brace occurs in the text. *)
Fixpoint brace_free (s : string) : Prop :=
  match s with
  | EmptyString => True
  | String c s' => c ≠ rbrace ∧ brace_free s'
  end.

Lemma read_token_append tok k :
  brace_free tok → read_token (tok +:+ String rbrace k) = Some (tok, k).
Proof.
  induction tok as [|c tok IH]; simpl.
  - intros _. reflexivity.
  - intros [Hc Htok]. apply Ascii.eqb_neq in Hc. by rewrite Hc, IH.
Qed.

Lemma string_of_uint_brace_free d : brace_free (NilEmpty.string_of_uint d).
Proof. induction d; simpl; try split; try discriminate; assumption. Qed.

Lemma string_of_int_brace_free d : brace_free (NilEmpty.string_of_int d).
Proof.
  destruct d as [d|d]; simpl; [|split; [discriminate|]];
    apply string_of_uint_brace_free.
Qed.

Lemma read_entry_print e k : read_entry (print_entry e k) = Some (e, k).
Proof.
  unfold read_entry, print_entry, print_score.
  rewrite strip_append. cbn [mbind option_bind].
  rewrite read_name_print. cbn [mbind option_bind].
  rewrite strip_append. cbn [mbind option_bind].
  rewrite read_token_append by apply string_of_int_brace_free.
  cbn [mbind option_bind].
  rewrite NilEmpty.isi. cbn [mbind option_bind].
  rewrite DecimalZ.of_to. by destruct e.
Qed.

Lemma read_entries_print hs :
  ∀ e fuel, (length hs < fuel)%nat →
  read_entries fuel (print_entry e (print_tail hs)) = Some (e :: hs).
Proof.
  induction hs as [|e' hs IH]; intros e [|fuel] Hfuel; simpl in Hfuel;
    try lia; cbn [read_entries]; rewrite read_entry_print; simpl.
  - reflexivity.
  - rewrite IH by lia. reflexivity.
Qed.

Lemma length_append (a b : string) :
  String.length (a +:+ b) = (String.length a + String.length b)%nat.
Proof. induction a as [|c a IH]; simpl; [reflexivity|]. by rewrite IH. Qed.

Lemma print_name_length name k :
  (String.length k < String.length (print_name name k))%nat.
Proof.
  induction name as [|c name IH]; simpl; [lia|].
  destruct (_ || _); simpl; lia.
Qed.

Lemma print_entry_length e k :
  (String.length k < String.length (print_entry e k))%nat.
Proof.
  unfold print_entry, print_score. rewrite length_append.
  pose proof (print_name_length (entry_name e)
                (SCORE_KEY +:+
                 NilEmpty.string_of_int (Z.to_int (entry_score e))
                 +:+ String rbrace k)) as H.
  rewrite !length_append in H. simpl in H. lia.
Qed.

Lemma print_tail_length hs : (length hs < String.length (print_tail hs))%nat.
Proof.
  induction hs as [|e hs IH]; [simpl; lia|].
  cbn [print_tail length String.length].
  pose proof (print_entry_length e (print_tail hs)). lia.
Qed.

Lemma read_board_print hs : read_board (print_board hs) = Some hs.
Proof.
  destruct hs as [|e hs]; [reflexivity|].
  unfold print_board, read_board.
  pose proof (print_entry_length e (print_tail hs)) as Hlen.
  pose proof (print_tail_length hs) as Htail.
  pose proof (read_entries_print hs e
                (String.length (print_entry e (print_tail hs)))
                ltac:(lia)) as Hread.
  revert Hread.
  change (print_entry e (print_tail hs))
    with (String "{" (String quote
            ("name" +:+ String quote (String ":" (String quote ""))
             +:+ print_name (entry_name e)
                   (SCORE_KEY +:+ print_score (entry_score e)
                                    (print_tail hs))))).
  intros ->. reflexivity.
Qed.

Lemma entry_of_to_json e : entry_of_json (entry_to_json e) = Some e.
Proof. by destruct e. Qed.

Lemma board_of_to_json hs : board_of_json (board_to_json hs) = Some hs.
Proof.
  unfold board_of_json, board_to_json.
  induction hs as [|e hs IH]; [reflexivity|].
  cbn [fmap list_fmap mapM]. rewrite entry_of_to_json. simpl.
  rewrite IH. reflexivity.
Qed.

(** The codec meets the two assumptions made on the JSON built-ins. *)
Lemma codec_round_trip hs :
  parse (stringify (board_to_json hs)) = Some (board_to_json hs).
Proof.
  unfold parse, stringify. by rewrite board_of_to_json, read_board_print.
Qed.

Lemma codec_stringify_truthy v : stringify v ≠ ""%string.
Proof.
  unfold stringify. destruct (board_of_json v) as [[|e hs]|]; discriminate.
Qed.

End CodecFacts.

(** C5.  The block that loads the leaderboard always completes normally,
    whatever the storage holds and whether or not it can be read.  When
    reading the storage throws, or when [JSON.parse] throws on the stored
    text, [highScores] is the empty array.  And a leaderboard that was
    saved is loaded back unchanged (for boards of at most 5 records as for
    any other), given that [JSON.parse] inverts [JSON.stringify] on
    leaderboards and that [JSON.stringify] never yields the empty
    string. *)
Theorem load_never_throws_and_round_trips
    (JSON_parse : string → option json) (JSON_stringify : json → string) :
  (∀ hs, JSON_parse (JSON_stringify (board_to_json hs))
         = Some (board_to_json hs)) →
  (∀ v, JSON_stringify v ≠ ""%string) →
  (∀ ls, ∃ v, load_highScores JSON_parse ls = Normal v)
  ∧ load_highScores JSON_parse Denied = Normal (JArr [])
  ∧ (∀ m text,
       m !! STORAGE_KEY = Some text → JSON_parse text = None →
       load_highScores JSON_parse (Items m) = Normal (JArr []))
  ∧ (∀ hs m, (length hs ≤ 5)%nat →
       ∃ ls', saveHighScores JSON_stringify (board_to_json hs) (Items m)
              = Normal ls'
         ∧ load_highScores JSON_parse ls' = Normal (board_to_json hs)).
Proof.
  intros Hinv Htruthy. split; [|split; [|split]].
  - intros [|m]; unfold load_highScores, getItem, parse; cbv zeta;
      cbn [mbind completion_bind try_catch]; [eauto|].
    destruct (truthy (m !! STORAGE_KEY)); [|eauto].
    destruct (JSON_parse _); eauto.
  - reflexivity.
  - intros m text Hstored Hfail.
    unfold load_highScores, getItem, parse. cbv zeta.
    cbn [mbind completion_bind]. rewrite Hstored.
    cbn [from_option id truthy].
    rewrite Hfail. by destruct (negb _).
  - intros hs m _. eexists. split; [reflexivity|].
    unfold load_highScores, getItem, parse. cbv zeta.
    cbn [mbind completion_bind]. rewrite lookup_insert_eq.
    cbn [from_option id truthy].
    destruct (String.eqb_spec (JSON_stringify (board_to_json hs)) "")
      as [Hempty|_]; [by apply Htruthy in Hempty|].
    cbn [negb]. by rewrite Hinv.
Qed.

Definition sample_board : list Entry :=
  [mkEntry "Nova" 20; mkEntry "Sail" 7; mkEntry "Valet" 7].

Lemma load_never_throws_and_round_trips_witness :
  load_highScores Codec.parse
    (Items {[STORAGE_KEY := Codec.stringify (board_to_json sample_board)]})
  = Normal (board_to_json sample_board)
  ∧ load_highScores Codec.parse (Items {[STORAGE_KEY := "[{oops"%string]})
    = Normal (JArr []).
Proof.
  destruct (load_never_throws_and_round_trips Codec.parse Codec.stringify
              codec_round_trip codec_stringify_truthy)
    as (_ & _ & Hcorrupt & Hround).
  split.
  - destruct (Hround sample_board ∅ ltac:(simpl; lia)) as (ls' & Hsave & Hload).
    inversion Hsave; subst. exact Hload.
  - apply Hcorrupt with (text := "[{oops"%string); reflexivity.
Defined.

(** * Further properties of the scripts *)

(** ** The overlap tests *)

Lemma intervals_meet (a1 b1 a2 b2 : Q) :
  (a1 < b1)%Q → (a2 < b2)%Q → (a1 < b2)%Q → (a2 < b1)%Q →
  ∃ x, ((a1 < x)%Q ∧ (x < b1)%Q) ∧ ((a2 < x)%Q ∧ (x < b2)%Q).
Proof.
  intros H1 H2 H12 H21.
  destruct (Qlt_le_dec a1 a2) as [Ha|Ha]; destruct (Qlt_le_dec b1 b2) as [Hb|Hb].
  - exists ((a2 + b1) * (1 # 2))%Q. repeat split; lra.
  - exists ((a2 + b2) * (1 # 2))%Q. repeat split; lra.
  - exists ((a1 + b1) * (1 # 2))%Q. repeat split; lra.
  - exists ((a1 + b2) * (1 # 2))%Q. repeat split; lra.
Qed.

(** The open rectangle of a sprite. *)
Definition inside (left top width height x y : Q) : Prop :=
  ((left < x)%Q ∧ (x < left + width)%Q) ∧ ((top < y)%Q ∧ (y < top + height)%Q).

(** X2.  For sprites of positive size the two overlap tests of [update]
    say exactly that the two rectangles share an interior point; sprites
    that only touch along an edge do not overlap. *)
Theorem overlap_is_shared_interior (bar : Bar) (p : Player) (bullet : Bullet) :
  (0 < bar_width bar)%Q → (0 < bar_height bar)%Q →
  (0 < player_width p)%Q → (0 < player_height p)%Q →
  (0 < bullet_width bullet)%Q → (0 < bullet_height bullet)%Q →
  (hits_player bar p = true
   ↔ ∃ x y,
       inside (bar_x bar) (bar_y bar) (bar_width bar) (bar_height bar) x y
       ∧ inside (player_x p) (player_y p) (player_width p) (player_height p)
           x y)
  ∧ (hits_bar bullet bar = true
     ↔ ∃ x y,
         inside (bullet_x bullet) (bullet_y bullet) (bullet_width bullet)
           (bullet_height bullet) x y
         ∧ inside (bar_x bar) (bar_y bar) (bar_width bar) (bar_height bar)
             x y)
  ∧ ((bar_x bar + bar_width bar == player_x p)%Q → hits_player bar p = false)
  ∧ ((bar_y bar + bar_height bar == player_y p)%Q → hits_player bar p = false).
Proof.
  intros Hbw Hbh Hpw Hph Hlw Hlh. unfold hits_player, hits_bar, inside.
  rewrite !andb_true_iff, !Qltb_lt. split; [|split; [|split]].
  - split.
    + intros [[[H1 H2] H3] H4].
      destruct (intervals_meet (bar_x bar) (bar_x bar + bar_width bar)
                  (player_x p) (player_x p + player_width p))
        as (x & Hx1 & Hx2); try lra.
      destruct (intervals_meet (bar_y bar) (bar_y bar + bar_height bar)
                  (player_y p) (player_y p + player_height p))
        as (y & Hy1 & Hy2); try lra.
      exists x, y. tauto.
    + intros (x & y & [[? ?] [? ?]] & [[? ?] [? ?]]). repeat split; lra.
  - split.
    + intros [[[H1 H2] H3] H4].
      destruct (intervals_meet (bullet_x bullet)
                  (bullet_x bullet + bullet_width bullet)
                  (bar_x bar) (bar_x bar + bar_width bar))
        as (x & Hx1 & Hx2); try lra.
      destruct (intervals_meet (bullet_y bullet)
                  (bullet_y bullet + bullet_height bullet)
                  (bar_y bar) (bar_y bar + bar_height bar))
        as (y & Hy1 & Hy2); try lra.
      exists x, y. tauto.
    + intros (x & y & [[? ?] [? ?]] & [[? ?] [? ?]]). repeat split; lra.
  - intros Htouch. apply not_true_is_false.
    rewrite !andb_true_iff, !Qltb_lt. intros [[[H1 H2] H3] H4]. lra.
  - intros Htouch. apply not_true_is_false.
    rewrite !andb_true_iff, !Qltb_lt. intros [[[H1 H2] H3] H4]. lra.
Qed.

Lemma overlap_is_shared_interior_witness :
  hits_player (bar_fall near_bar) (player sample_start) = true.
Proof.
  destruct (overlap_is_shared_interior (bar_fall near_bar)
              (player sample_start) (mkBullet 490 700 15 15)
              ltac:(reflexivity) ltac:(reflexivity) ltac:(reflexivity)
              ltac:(reflexivity) ltac:(reflexivity) ltac:(reflexivity))
    as (Hplayer & _).
  apply Hplayer.
  exists 500%Q, 640%Q. unfold inside. vm_compute. repeat split.
Defined.

(** ** What [spawnBar] makes *)

Lemma Qdiv_10 (a : Q) : (a / 10 == a * (1 # 10))%Q.
Proof. unfold Qdiv. reflexivity. Qed.

(** X3.  [spawnBar] appends one bar of the fixed size whose bottom edge
    sits on the top of the field.  Its fall speed lies between 2 and 7 and
    never decreases with the score; below the win threshold the cap of 5
    is not reached and, numbers being taken as exact, the speed is
    2 + score / 10 (the script's doubles round [score * 0.1]: at score 19
    it gets 3.9000000000000004).  The bar is bad exactly when the second
    draw is below 1/5. *)
Theorem spawned_bar_shape canvas (r1 r2 : Q) (st : Game) :
  0 <= score st →
  ∃ bar,
    bars (spawnBar canvas r1 r2 st) = bars st ++ [bar]
    ∧ bar_width bar = BAR_WIDTH ∧ bar_height bar = BAR_HEIGHT
    ∧ (bar_y bar + bar_height bar == 0)%Q
    ∧ (2 <= bar_speed bar)%Q ∧ (bar_speed bar <= 7)%Q
    ∧ (score st < WIN_SCORE →
       (bar_speed bar == 2 + inject_Z (score st) / 10)%Q)
    ∧ (isBad bar = true ↔ (r2 < 1 # 5)%Q)
    ∧ (∀ st2, score st <= score st2 →
         ∃ bar2, bars (spawnBar canvas r1 r2 st2) = bars st2 ++ [bar2]
           ∧ (bar_speed bar <= bar_speed bar2)%Q).
Proof.
  intros Hscore. unfold spawnBar. cbv zeta. proj.
  eexists. split; [reflexivity|]. cbn [bar_width bar_height bar_y bar_speed isBad].
  assert (H0 : (0 <= inject_Z (score st))%Q)
    by (rewrite <- (Zle_Qle 0); exact Hscore).
  split; [reflexivity|]. split; [reflexivity|].
  split; [unfold BAR_HEIGHT; lra|].
  unfold Math_min.
  split; [destruct (Qle_bool _ 5) eqn:E; lra|].
  split.
  { destruct (Qle_bool _ 5) eqn:E; [apply Qle_bool_iff in E|]; lra. }
  split.
  { intros Hlt. unfold WIN_SCORE in Hlt.
    assert (H20 : (inject_Z (score st) < 20)%Q)
      by (rewrite <- (Zlt_Qlt _ 20); exact Hlt).
    rewrite Qdiv_10.
    destruct (Qle_bool _ 5) eqn:E; [reflexivity|].
    apply Qle_bool_gt in E. lra. }
  split.
  { rewrite Qltb_lt. unfold BAD_BAR_PROBABILITY. split; intros H; lra. }
  intros st2 Hle. eexists. split; [reflexivity|]. cbn [bar_speed].
  assert (Hq : (inject_Z (score st) <= inject_Z (score st2))%Q)
    by (rewrite <- Zle_Qle; exact Hle).
  destruct (Qle_bool (inject_Z (score st) * (1 # 10)) 5) eqn:E1;
    destruct (Qle_bool (inject_Z (score st2) * (1 # 10)) 5) eqn:E2;
    try apply Qle_bool_iff in E1; try apply Qle_bool_gt in E1;
    try apply Qle_bool_iff in E2; try apply Qle_bool_gt in E2; lra.
Qed.

Lemma spawned_bar_shape_witness :
  ∃ bar,
    bars (spawnBar sample_canvas (1 # 2) (1 # 10) near_win)
    = bars near_win ++ [bar]
    ∧ (bar_speed bar == 39 # 10)%Q ∧ isBad bar = true.
Proof.
  destruct (spawned_bar_shape sample_canvas (1 # 2) (1 # 10) near_win
              ltac:(vm_compute; discriminate))
    as (bar & Hbars & _ & _ & _ & _ & _ & Hspeed & Hbad & _).
  exists bar. split; [exact Hbars|]. split.
  - rewrite (Hspeed ltac:(reflexivity)). reflexivity.
  - apply Hbad. reflexivity.
Defined.

(** ** The name of a session *)

(** X4.  For every draw in [0, 1) [startGame] picks the session's name
    from [PLAYER_NAMES]: the index [Math.floor(r * 9)] never leaves the
    array. *)
Theorem session_name_listed canvas (now r : Q) (st : Game) :
  (0 <= r)%Q → (r < 1)%Q →
  currentPlayerName (startGame canvas now r st) ∈ PLAYER_NAMES.
Proof.
  intros H0 H1. unfold startGame. cbv zeta. proj.
  change (inject_Z (Z.of_nat (length PLAYER_NAMES))) with 9%Q.
  set (n := Qfloor (r * 9)).
  assert (Hlo : 0 <= n).
  { change 0 with (Qfloor 0). apply Qfloor_resp_le. lra. }
  assert (Hhi : n < 9).
  { rewrite (Zlt_Qlt n 9). pose proof (Qfloor_le (r * 9)) as Hle.
    fold n in Hle. clearbody n. change (inject_Z 9) with 9%Q. lra. }
  destruct (lookup_lt_is_Some_2 PLAYER_NAMES (Z.to_nat n)) as [name Hname].
  { simpl. lia. }
  rewrite Hname. simpl. apply list_elem_of_lookup. eauto.
Qed.

Lemma session_name_listed_witness :
  currentPlayerName sample_start ∈ PLAYER_NAMES.
Proof.
  apply (session_name_listed sample_canvas 0 (1 # 2)
           (page_loaded sample_canvas [])
           ltac:(apply Qle_bool_iff; reflexivity)
           ltac:(apply Qltb_lt; reflexivity)).
Defined.

(** ** Keys and movement *)

Definition held_left (st : Game) : bool :=
  pressed "ArrowLeft" st || pressed "a" st.
Definition held_right (st : Game) : bool :=
  pressed "ArrowRight" st || pressed "d" st.

Lemma move_player_held canvas st :
  move_player canvas st
  = clamp_player canvas
      (let st1 :=
         if held_left st
         then set_player_x (player_x (player st) - PLAYER_SPEED)%Q st
         else st in
       if held_right st
       then set_player_x (player_x (player st1) + PLAYER_SPEED)%Q st1
       else st1).
Proof.
  unfold move_player, held_left, held_right.
  destruct (pressed "ArrowLeft" st || pressed "a" st); reflexivity.
Qed.

(** X5.  A key reads as held from its [keydown] to its [keyup], and no
    other key is affected.  For a player on the field, the first phase of
    [update] moves it [PLAYER_SPEED] to the left while only a left key is
    held, stopping at the left wall, likewise to the right, and leaves it
    in place while both or neither are held. *)
Theorem held_keys_move_player canvas (st : Game) (key code : string) :
  (player_width (player st) <= canvas_width canvas)%Q →
  on_field canvas (player st) →
  let x := player_x (player st) in
  let x' := player_x (player (move_player canvas st)) in
  let W := (canvas_width canvas - player_width (player st))%Q in
  (pressed key (keydown key code st) = true
   ∧ pressed key (keyup key st) = false
   ∧ (∀ other, other ≠ key →
        pressed other (keydown key code st) = pressed other st
        ∧ pressed other (keyup key st) = pressed other st))
  ∧ (held_left st = true → held_right st = false →
       ((PLAYER_SPEED <= x)%Q → (x' == x - PLAYER_SPEED)%Q)
       ∧ ((x < PLAYER_SPEED)%Q → (x' == 0)%Q))
  ∧ (held_left st = false → held_right st = true →
       ((x + PLAYER_SPEED <= W)%Q → (x' == x + PLAYER_SPEED)%Q)
       ∧ ((W < x + PLAYER_SPEED)%Q → (x' == W)%Q))
  ∧ (held_left st = held_right st → (x' == x)%Q).
Proof.
  intros Hfit [Hx0 HxW] x x' W. split; [|split; [|split]].
  - unfold keydown, keyup, pressed. cbv zeta.
    split; [|split].
    + destruct (negb _); [|destruct (String.eqb code "Space")]; proj;
        unfold shootBullet; proj; by rewrite lookup_insert_eq.
    + proj. by rewrite lookup_insert_eq.
    + intros other Hne. split.
      * destruct (negb _); [|destruct (String.eqb code "Space")]; proj;
          unfold shootBullet; proj; by rewrite lookup_insert_ne.
      * proj. by rewrite lookup_insert_ne.
  - intros Hl Hr. unfold x'. rewrite move_player_held, Hl, Hr.
    unfold clamp_player. cbv zeta. proj. fold x. unfold PLAYER_SPEED in *.
    destruct (Qltb (x - 8) 0) eqn:E1; proj;
      match goal with
      | |- context [Qltb ?a ?b] => destruct (Qltb a b) eqn:E2
      end; proj;
      try apply Qltb_lt in E1; try apply Qltb_ge in E1;
      try apply Qltb_lt in E2; try apply Qltb_ge in E2;
      unfold x in *; split; intros; lra.
  - intros Hl Hr. unfold x'. rewrite move_player_held, Hl, Hr.
    unfold clamp_player. cbv zeta. proj. fold x. unfold PLAYER_SPEED in *.
    destruct (Qltb (x + 8) 0) eqn:E1; proj;
      match goal with
      | |- context [Qltb ?a ?b] => destruct (Qltb a b) eqn:E2
      end; proj;
      try apply Qltb_lt in E1; try apply Qltb_ge in E1;
      try apply Qltb_lt in E2; try apply Qltb_ge in E2;
      unfold x, W in *; split; intros; lra.
  - intros Hsame. unfold x'. rewrite move_player_held, <- Hsame.
    unfold clamp_player. cbv zeta.
    destruct (held_left st); proj; fold x; unfold PLAYER_SPEED in *.
    + destruct (Qltb (x - 8 + 8) 0) eqn:E1; proj;
        match goal with
        | |- context [Qltb ?a ?b] => destruct (Qltb a b) eqn:E2
        end; proj;
        try apply Qltb_lt in E1; try apply Qltb_ge in E1;
        try apply Qltb_lt in E2; try apply Qltb_ge in E2;
        unfold x in *; lra.
    + destruct (Qltb x 0) eqn:E1; proj;
        match goal with
        | |- context [Qltb ?a ?b] => destruct (Qltb a b) eqn:E2
        end; proj;
        try apply Qltb_lt in E1; try apply Qltb_ge in E1;
        try apply Qltb_lt in E2; try apply Qltb_ge in E2;
        unfold x in *; lra.
Qed.

Lemma held_keys_move_player_witness :
  (player_x
     (player
        (move_player sample_canvas
           (keydown "ArrowLeft" "ArrowLeft" sample_start)))
   == player_x (player sample_start) - PLAYER_SPEED)%Q.
Proof.
  destruct (held_keys_move_player sample_canvas
              (keydown "ArrowLeft" "ArrowLeft" sample_start)
              "ArrowLeft" "ArrowLeft"
              ltac:(apply Qle_bool_iff; reflexivity)
              ltac:(split; apply Qle_bool_iff; reflexivity))
    as (_ & Hleft & _).
  apply (Hleft eq_refl eq_refl). apply Qle_bool_iff. reflexivity.
Defined.

(** ** Firing *)

(** X6.  [shootBullet] appends one bullet of the fixed size, centred on
    the player with its bottom edge on the player's top edge; when the
    player is on the field and at least as wide as a bullet, the bullet is
    inside the field's width.  A click, or a press of the space bar, fires
    exactly while a session is running and otherwise leaves the bullets
    alone; no other key fires. *)
Theorem firing canvas (st : Game) (key code : string) :
  on_field canvas (player st) →
  (BULLET_WIDTH <= player_width (player st))%Q →
  (∃ b,
     bullets (shootBullet st) = bullets st ++ [b]
     ∧ bullet_width b = BULLET_WIDTH ∧ bullet_height b = BULLET_HEIGHT
     ∧ (bullet_x b + bullet_width b / 2
        == player_x (player st) + player_width (player st) / 2)%Q
     ∧ (bullet_y b + bullet_height b == player_y (player st))%Q
     ∧ (0 <= bullet_x b)%Q
     ∧ (bullet_x b + bullet_width b <= canvas_width canvas)%Q)
  ∧ bullets (click st)
    = (if gameRunning st then bullets (shootBullet st) else bullets st)
  ∧ bullets (keydown key code st)
    = (if gameRunning st && String.eqb code "Space"
       then bullets (shootBullet st) else bullets st)
  ∧ bullets (keyup key st) = bullets st.
Proof.
  intros [Hx0 HxW] Hwide. split; [|split; [|split]].
  - unfold shootBullet. cbv zeta. proj. eexists. split; [reflexivity|].
    cbn [bullet_x bullet_y bullet_width bullet_height].
    unfold BULLET_WIDTH, BULLET_HEIGHT, Qdiv in *.
    change (/ 2)%Q with (1 # 2)%Q.
    repeat split; lra.
  - unfold click. destruct (gameRunning st); reflexivity.
  - unfold keydown. cbv zeta. proj.
    destruct (gameRunning st); [|reflexivity]. cbn [negb andb].
    destruct (String.eqb code "Space"); reflexivity.
  - reflexivity.
Qed.

Lemma firing_witness :
  ∃ b, bullets (click sample_start) = [b]
    ∧ (bullet_y b + bullet_height b == player_y (player sample_start))%Q.
Proof.
  destruct (firing sample_canvas sample_start "x" "KeyX"
              ltac:(split; apply Qle_bool_iff; reflexivity)
              ltac:(apply Qle_bool_iff; reflexivity))
    as ((b & Hb & _ & _ & _ & Hy & _) & Hclick & _).
  exists b. split; [|exact Hy].
  rewrite Hclick. exact Hb.
Defined.

(** ** Sessions *)

(** What can happen to the page: a click on Start or Restart, an animation
    frame, a mouse move over the canvas, a click on it, a key going down
    or up.  [now] and [timestamp] are the clock readings, the [r]s the
    draws of [Math.random()] the handler makes. *)
Inductive Input :=
  | Start (now r : Q)
  | Frame (timestamp r1 r2 : Q)
  | MouseMove (x : Q)
  | Click
  | KeyDown (key code : string)
  | KeyUp (key : string).

(** The variables after one handler has run, whether it returned or the
    save at the end of a session threw ([Stored.react] tells which). *)
Definition react (canvas : Canvas) (i : Input) (st : Game) : option Game :=
  match i with
  | Start now r => Some (startGame canvas now r st)
  | Frame timestamp r1 r2 => gameLoop canvas timestamp r1 r2 st
  | MouseMove x => Some (mousemove canvas x st)
  | Click => Some (click st)
  | KeyDown key code => Some (keydown key code st)
  | KeyUp key => Some (keyup key st)
  end.

Fixpoint run (canvas : Canvas) (ins : list Input) (st : Game) : option Game :=
  match ins with
  | [] => Some st
  | i :: ins =>
    match react canvas i st with
    | Some st => run canvas ins st
    | None => None
    end
  end.

Definition is_start (i : Input) : bool :=
  match i with Start _ _ => true | _ => false end.

(** The part of the state that only [startGame] and [update] write. *)
Definition same_session (st st' : Game) : Prop :=
  score st' = score st ∧ lives st' = lives st ∧ level st' = level st
  ∧ currentSpawnInterval st' = currentSpawnInterval st
  ∧ timeLeft st' = timeLeft st ∧ lastTime st' = lastTime st
  ∧ gameRunning st' = gameRunning st
  ∧ gameOverHeading st' = gameOverHeading st
  ∧ highScores st' = highScores st
  ∧ currentPlayerName st' = currentPlayerName st
  ∧ instructionTimer st' = instructionTimer st
  ∧ bars st' = bars st.

Section SessionFrames.

Variable canvas : Canvas.

Lemma mousemove_same_session x st : same_session st (mousemove canvas x st).
Proof.
  unfold mousemove, clamp_player, same_session. cbv zeta.
  repeat match goal with
         | |- context [if ?c then _ else _] => destruct c
         end; proj; repeat split.
Qed.

Lemma click_same_session st : same_session st (click st).
Proof.
  unfold click, shootBullet, same_session.
  destruct (negb _); proj; repeat split.
Qed.

Lemma keydown_same_session key code st : same_session st (keydown key code st).
Proof.
  unfold keydown, shootBullet, same_session. cbv zeta. proj.
  destruct (negb _); [|destruct (String.eqb _ _)]; proj; repeat split.
Qed.

Lemma keyup_same_session key st : same_session st (keyup key st).
Proof. unfold keyup, same_session. proj. repeat split. Qed.

(** What the player sprite always satisfies. *)
Definition player_ok (st : Game) : Prop :=
  on_field canvas (player st) ∧ player_width (player st) = PLAYER_WIDTH.

Lemma move_player_width st :
  player_width (player (move_player canvas st)) = player_width (player st).
Proof.
  unfold move_player, clamp_player. cbv zeta.
  repeat match goal with
         | |- context [if ?c then _ else _] => destruct c
         end; reflexivity.
Qed.

Lemma react_player_ok i st st' :
  (PLAYER_WIDTH <= canvas_width canvas)%Q →
  player_ok st → react canvas i st = Some st' → player_ok st'.
Proof.
  intros Hfit [Hon Hw] H. unfold player_ok.
  assert (Hfit' : (player_width (player st) <= canvas_width canvas)%Q)
    by (rewrite Hw; exact Hfit).
  destruct i as [now r|ts r1 r2|x| |key code|key]; cbn [react] in H.
  - inversion H; subst. unfold startGame. cbv zeta. proj. rewrite Hw.
    split; [|reflexivity]. unfold on_field. proj.
    unfold PLAYER_WIDTH, Qdiv in *. change (/ 2)%Q with (1 # 2)%Q. split; lra.
  - unfold gameLoop in H. destruct (negb _); [inversion H; by subst|].
    cbv zeta in H. apply update_player in H. rewrite H.
    split; [by apply move_player_on_field|]. by rewrite move_player_width.
  - inversion H; subst. unfold mousemove. cbv zeta. split.
    + apply (clamp_player_on_field canvas
               (set_player_x (x - player_width (player st) / 2)%Q st) Hfit').
    + unfold clamp_player. cbv zeta.
      repeat match goal with
             | |- context [if ?c then _ else _] => destruct c
             end; exact Hw.
  - inversion H; subst. unfold click, shootBullet.
    destruct (negb _); proj; by split.
  - inversion H; subst. unfold keydown, shootBullet. cbv zeta. proj.
    destruct (negb _); [|destruct (String.eqb _ _)]; proj; by split.
  - inversion H; subst. by split.
Qed.

Lemma react_total i st : ∃ st', react canvas i st = Some st'.
Proof.
  destruct i; simpl; eauto. unfold gameLoop.
  destruct (negb _); [eauto|]. cbv zeta. unfold update.
  match goal with
  | |- context [update_log canvas ?d ?a ?b ?s] =>
      destruct (update_log_total canvas d a b s) as (st' & evs & ->)
  end.
  eauto.
Qed.

Lemma run_rule (P : Game → Prop) (allowed : Input → bool) :
  (∀ i st st', allowed i = true → P st → react canvas i st = Some st' → P st') →
  ∀ ins st, forallb allowed ins = true → P st →
    ∃ st', run canvas ins st = Some st' ∧ P st'.
Proof.
  intros Hstep. induction ins as [|i ins IH]; intros st Hall HP; simpl.
  - eauto.
  - simpl in Hall. apply andb_true_iff in Hall as [Hi Hall].
    destruct (react_total i st) as [st1 Hreact]. rewrite Hreact.
    apply IH; [exact Hall|]. exact (Hstep _ _ _ Hi HP Hreact).
Qed.

End SessionFrames.

Section TickFrames.

Variable canvas : Canvas.

(** What the first loop leaves alone, and what its [return]s do. *)
Lemma bar_body_frame i st c ev :
  bar_body canvas i st = (c, ev) →
  match c with
  | Go s =>
      timeLeft s = timeLeft st ∧ lastTime s = lastTime st
      ∧ instructionTimer s = instructionTimer st
      ∧ currentPlayerName s = currentPlayerName st
      ∧ highScores s = highScores st
      ∧ gameRunning s = gameRunning st
      ∧ gameOverHeading s = gameOverHeading st
  | Ret s =>
      timeLeft s = timeLeft st ∧ lastTime s = lastTime st
      ∧ instructionTimer s = instructionTimer st
      ∧ currentPlayerName s = currentPlayerName st
      ∧ highScores s
        = updateHighScores (score s) (currentPlayerName st) (highScores st)
      ∧ gameRunning s = false
  | Throw => True
  end.
Proof.
  intros H. unfold bar_body in H.
  split_body H; proj; unfold level_up; proj; repeat split.
Qed.

Lemma bullet_scan_frame n bi bullet st s removed ev :
  bullet_scan n bi bullet st = Some (s, removed, ev) →
  timeLeft s = timeLeft st ∧ lastTime s = lastTime st
  ∧ instructionTimer s = instructionTimer st
  ∧ currentPlayerName s = currentPlayerName st
  ∧ highScores s = highScores st
  ∧ gameRunning s = gameRunning st
  ∧ gameOverHeading s = gameOverHeading st.
Proof.
  revert st. induction n as [|i IH]; intros st H; simpl in H.
  - inversion H; subst. repeat split.
  - split_body H; proj; eauto; repeat split.
Qed.

Lemma bullet_body_frame bi st s ev :
  bullet_body bi st = (Go s, ev) →
  timeLeft s = timeLeft st ∧ lastTime s = lastTime st
  ∧ instructionTimer s = instructionTimer st
  ∧ currentPlayerName s = currentPlayerName st
  ∧ highScores s = highScores st
  ∧ gameRunning s = gameRunning st
  ∧ gameOverHeading s = gameOverHeading st.
Proof.
  intros H. unfold bullet_body in H. split_body H; proj;
    try (repeat split; fail).
  match goal with
  | H : bullet_scan _ _ _ _ = _ |- _ => apply bullet_scan_frame in H
  end.
  proj. assumption.
Qed.

Lemma clamp_player_same_session st : same_session st (clamp_player canvas st).
Proof.
  unfold clamp_player, same_session. cbv zeta.
  destruct (Qltb (player_x (player st)) 0); proj;
    match goal with
    | |- context [if ?c then _ else _] => destruct c
    end; proj; repeat split.
Qed.

Lemma move_player_same_session st : same_session st (move_player canvas st).
Proof.
  unfold move_player. cbv zeta.
  match goal with
  | |- same_session st (clamp_player canvas ?s) =>
      pose proof (clamp_player_same_session s) as H;
      assert (H0 : same_session st s)
  end.
  { unfold same_session.
    destruct (pressed "ArrowLeft" st || pressed "a" st);
      match goal with
      | |- context [if ?c then _ else _] => destruct c
      end; proj; repeat split. }
  unfold same_session in *.
  destruct H as (-> & -> & -> & -> & -> & -> & -> & -> & -> & -> & -> & ->).
  exact H0.
Qed.

Lemma before_loop_same delta r1 r2 st :
  let st1 := spawn_phase canvas delta r1 r2 (move_player canvas st) in
  score st1 = score st ∧ lives st1 = lives st ∧ level st1 = level st
  ∧ currentSpawnInterval st1 = currentSpawnInterval st
  ∧ timeLeft st1 = timeLeft st ∧ lastTime st1 = lastTime st
  ∧ gameRunning st1 = gameRunning st
  ∧ gameOverHeading st1 = gameOverHeading st
  ∧ highScores st1 = highScores st
  ∧ currentPlayerName st1 = currentPlayerName st
  ∧ instructionTimer st1 = instructionTimer st.
Proof.
  pose proof (move_player_same_session st) as H. unfold same_session in H.
  destruct H as (H1 & H2 & H3 & H4 & H5 & H6 & H7 & H8 & H9 & H10 & H11 & _).
  revert H1 H2 H3 H4 H5 H6 H7 H8 H9 H10 H11.
  generalize (move_player canvas st). intros s H1 H2 H3 H4 H5 H6 H7 H8 H9 H10 H11.
  unfold spawn_phase, spawnBar. cbv zeta. proj.
  destruct (Qle_bool _ _); proj; repeat split; assumption.
Qed.

Lemma instruction_phase_same delta st :
  let s := instruction_phase delta st in
  score s = score st ∧ lives s = lives st
  ∧ timeLeft s = timeLeft st ∧ lastTime s = lastTime st
  ∧ gameRunning s = gameRunning st
  ∧ gameOverHeading s = gameOverHeading st
  ∧ highScores s = highScores st
  ∧ currentPlayerName s = currentPlayerName st.
Proof.
  unfold instruction_phase. cbv zeta.
  repeat match goal with
         | |- context [if ?c then _ else _] => destruct c
         end; proj; repeat split.
Qed.

Lemma instruction_phase_nonneg delta st :
  (0 <= instructionTimer st)%Q →
  (0 <= instructionTimer (instruction_phase delta st))%Q.
Proof.
  intros H. unfold instruction_phase. cbv zeta.
  destruct (Qltb 0 (instructionTimer st)); [|exact H]. proj.
  destruct (Qltb _ 0) eqn:E; proj; [lra|]. by apply Qltb_ge in E.
Qed.

Lemma update_instruction_nonneg delta r1 r2 st st' :
  (0 <= instructionTimer st)%Q →
  update canvas delta r1 r2 st = Some st' →
  (0 <= instructionTimer st')%Q.
Proof.
  intros H0.
  apply (update_rule canvas (λ s, (0 <= instructionTimer s)%Q)
           (λ s, (0 <= instructionTimer s)%Q)).
  - destruct (before_loop_same delta r1 r2 st)
      as (_ & _ & _ & _ & _ & _ & _ & _ & _ & _ & ->). exact H0.
  - intros i s s' ev HP Hb. apply bar_body_frame in Hb.
    destruct Hb as (_ & _ & -> & _). exact HP.
  - intros i s s' ev HP Hb. apply bar_body_frame in Hb.
    destruct Hb as (_ & _ & -> & _). exact HP.
  - intros s. apply instruction_phase_nonneg.
  - intros i s s' ev HP Hb. apply bullet_body_frame in Hb.
    destruct Hb as (_ & _ & -> & _). exact HP.
  - intros s HP. unfold time_phase. cbv zeta.
    destruct (Qle_bool _ _); exact HP.
Qed.

End TickFrames.

(** What a running session satisfies. *)
Definition session_ok (st : Game) : Prop :=
  0 < lives st
  ∧ 0 <= score st < WIN_SCORE
  ∧ level st = 1 + score st / 5
  ∧ currentSpawnInterval st = spawn_interval_at (level st)
  ∧ (0 < timeLeft st)%Q.

Definition page_ok (canvas : Canvas) (st : Game) : Prop :=
  player_ok canvas st
  ∧ (0 <= instructionTimer st)%Q
  ∧ (gameRunning st = true → session_ok st).

Section SessionInvariant.

Variable canvas : Canvas.
Hypothesis player_fits : (PLAYER_WIDTH <= canvas_width canvas)%Q.

Lemma same_session_ok st st' :
  same_session st st' →
  (0 <= instructionTimer st)%Q ∧ (gameRunning st = true → session_ok st) →
  (0 <= instructionTimer st')%Q ∧ (gameRunning st' = true → session_ok st').
Proof.
  unfold same_session, session_ok.
  intros (-> & -> & -> & -> & -> & _ & -> & _ & _ & _ & -> & _). tauto.
Qed.

Lemma update_session_ok delta r1 r2 st st' :
  gameRunning st = true → session_ok st →
  update canvas delta r1 r2 st = Some st' →
  gameRunning st' = true → session_ok st'.
Proof.
  unfold session_ok, WIN_SCORE.
  intros Hrun (Hl & Hs & Hlev & Hint & Ht) Hup Hrun'.
  assert (Hplay : in_play st st).
  { unfold in_play, WIN_SCORE. repeat split; auto. lia. }
  assert (Hlevel : level_inv st).
  { unfold level_inv, WIN_SCORE. split; [lia|]. split; [|exact Hint].
    rewrite Z.min_l by lia. exact Hlev. }
  pose proof (update_settled canvas delta r1 r2 st st' Hplay Hup) as Hset.
  destruct (update_level_inv canvas delta r1 r2 st st' Hlevel Hup)
    as [(Hs' & Hlev' & Hint') _].
  unfold settled in Hset. rewrite (phase_running st' Hrun') in Hset.
  unfold WIN_SCORE in *. destruct Hset as (Hl' & Hlt' & Ht').
  repeat split; auto. rewrite Hlev', Z.min_l by lia. reflexivity.
Qed.

Lemma startGame_session_ok now r st : session_ok (startGame canvas now r st).
Proof.
  unfold startGame, session_ok. cbv zeta. proj.
  unfold INITIAL_LIVES, WIN_SCORE, GAME_DURATION.
  repeat split; try lia; reflexivity.
Qed.

Lemma gameLoop_session_ok ts r1 r2 st st' :
  (0 <= instructionTimer st)%Q ∧ (gameRunning st = true → session_ok st) →
  gameLoop canvas ts r1 r2 st = Some st' →
  (0 <= instructionTimer st')%Q ∧ (gameRunning st' = true → session_ok st').
Proof.
  intros [Hins Hok] H. unfold gameLoop in H.
  destruct (negb (gameRunning st)) eqn:Hrun.
  - inversion H; subst. split; [exact Hins|exact Hok].
  - apply negb_false_iff in Hrun. specialize (Hok Hrun). cbv zeta in H.
    split.
    + apply (update_instruction_nonneg canvas (ts - lastTime st)%Q r1 r2
               (set_lastTime ts st) st'); [exact Hins|exact H].
    + apply (update_session_ok (ts - lastTime st)%Q r1 r2
               (set_lastTime ts st) st'); [exact Hrun|exact Hok|exact H].
Qed.

Lemma react_page_ok i st st' :
  page_ok canvas st → react canvas i st = Some st' → page_ok canvas st'.
Proof.
  intros (Hp & Hrest) H.
  split; [exact (react_player_ok canvas i st st' player_fits Hp H)|].
  destruct i as [now r|ts r1 r2|x| |key code|key]; cbn [react] in H.
  - inversion H; subst. split; [|intros _; apply startGame_session_ok].
    unfold startGame. cbv zeta. proj. lra.
  - exact (gameLoop_session_ok ts r1 r2 st st' Hrest H).
  - inversion H; subst.
    exact (same_session_ok _ _ (mousemove_same_session canvas x st) Hrest).
  - inversion H; subst.
    exact (same_session_ok _ _ (click_same_session st) Hrest).
  - inversion H; subst.
    exact (same_session_ok _ _ (keydown_same_session key code st) Hrest).
  - inversion H; subst.
    exact (same_session_ok _ _ (keyup_same_session key st) Hrest).
Qed.

Lemma page_loaded_ok stored : page_ok canvas (page_loaded canvas stored).
Proof.
  unfold page_ok, player_ok, page_loaded, initial_player, on_field. proj.
  unfold PLAYER_WIDTH, Qdiv in *. change (/ 2)%Q with (1 # 2)%Q.
  repeat split; try lra; try discriminate.
Qed.

End SessionInvariant.

(** A short play: start, hold the right arrow, fire, a few frames. *)
Definition sample_play : list Input :=
  [Start 0 (1 # 2); KeyDown "ArrowRight" "ArrowRight"; Frame 16 0 0;
   Click; Frame 1100 (1 # 2) (1 # 10); MouseMove 2000; Frame 1116 0 0;
   KeyUp "ArrowRight"].

(** ** One session, from Start to its end *)

Definition not_start (i : Input) : bool := negb (is_start i).

(** How the leaderboard of a session started on [hs0] under the name
    [name0] stands. *)
Definition recorded (name0 : string) (hs0 : list Entry) (st : Game) : Prop :=
  currentPlayerName st = name0
  ∧ ((gameRunning st = true ∧ highScores st = hs0)
     ∨ (gameRunning st = false
        ∧ highScores st = updateHighScores (score st) name0 hs0)).

Definition ended_fairly (st : Game) : Prop :=
  gameRunning st = true
  ∨ (phase st = Won ∧ score st = WIN_SCORE)
  ∨ (phase st = Lost ∧ score st < WIN_SCORE).

Lemma phase_same_session st st' :
  same_session st st' → phase st' = phase st.
Proof.
  unfold same_session, phase.
  intros (_ & _ & _ & _ & _ & _ & -> & -> & _). reflexivity.
Qed.

Section OneSession.

Variable canvas : Canvas.

Lemma update_recorded delta r1 r2 st st' :
  gameRunning st = true →
  update canvas delta r1 r2 st = Some st' →
  recorded (currentPlayerName st) (highScores st) st'.
Proof.
  intros Hrun.
  destruct (before_loop_same canvas delta r1 r2 st)
    as (_ & _ & _ & _ & _ & _ & Hr1 & _ & Hh1 & Hn1 & _).
  apply (update_rule canvas
           (λ s, gameRunning s = true
                 ∧ highScores s = highScores st
                 ∧ currentPlayerName s = currentPlayerName st)
           (recorded (currentPlayerName st) (highScores st))).
  - rewrite Hr1, Hh1, Hn1. auto.
  - intros i s s' ev (Hr & Hh & Hn) Hb. apply bar_body_frame in Hb.
    destruct Hb as (_ & _ & _ & -> & -> & -> & _). auto.
  - intros i s s' ev (Hr & Hh & Hn) Hb. apply bar_body_frame in Hb.
    destruct Hb as (_ & _ & _ & Hn' & Hh' & Hr').
    unfold recorded. rewrite Hn', Hh', Hn, Hh. auto.
  - intros s (Hr & Hh & Hn).
    destruct (instruction_phase_same delta s)
      as (_ & _ & _ & _ & -> & _ & -> & ->). auto.
  - intros i s s' ev (Hr & Hh & Hn) Hb. apply bullet_body_frame in Hb.
    destruct Hb as (_ & _ & _ & -> & -> & -> & _). auto.
  - intros s (Hr & Hh & Hn). unfold time_phase, recorded. cbv zeta. proj.
    destruct (Qle_bool _ _); proj; rewrite ?Hn, ?Hh; auto.
Qed.

Lemma react_recorded name0 hs0 i st st' :
  not_start i = true →
  recorded name0 hs0 st ∧ ended_fairly st
  ∧ (gameRunning st = true → 0 < lives st ∧ score st < WIN_SCORE) →
  react canvas i st = Some st' →
  recorded name0 hs0 st' ∧ ended_fairly st'
  ∧ (gameRunning st' = true → 0 < lives st' ∧ score st' < WIN_SCORE).
Proof.
  intros Hi (Hrec & Hfair & Hplay) H.
  assert (Hsame : ∀ s, same_session st s →
            recorded name0 hs0 s ∧ ended_fairly s
            ∧ (gameRunning s = true → 0 < lives s ∧ score s < WIN_SCORE)).
  { intros s Hs. pose proof (phase_same_session _ _ Hs) as Hph.
    unfold recorded, ended_fairly in *. rewrite Hph.
    destruct Hs as (-> & -> & _ & _ & _ & _ & -> & _ & -> & -> & _). auto. }
  destruct i as [now r|ts r1 r2|x| |key code|key]; cbn [react] in H;
    try discriminate Hi.
  - unfold gameLoop in H. destruct (negb (gameRunning st)) eqn:Hrun.
    + inversion H; subst. auto.
    + apply negb_false_iff in Hrun. cbv zeta in H.
      destruct (Hplay Hrun) as [Hl Hs].
      pose proof (update_recorded (ts - lastTime st)%Q r1 r2
                    (set_lastTime ts st) st' Hrun H) as Hrec'.
      pose proof (update_settled canvas (ts - lastTime st)%Q r1 r2
                    (set_lastTime ts st) st'
                    ltac:(unfold in_play; auto) H) as Hset.
      destruct Hrec as [Hname [[_ Hhs]|[Hstop _]]]; [|congruence].
      proj. rewrite Hname, Hhs in Hrec'. split; [exact Hrec'|].
      unfold settled in Hset. unfold ended_fairly.
      destruct (phase st') eqn:Hph; try contradiction.
      * assert (Hr' : gameRunning st' = true).
        { unfold phase in Hph. destruct (gameRunning st'); [reflexivity|].
          repeat match type of Hph with
                 | (if ?c then _ else _) = _ => destruct c
                 end; discriminate. }
        split; [left; exact Hr'|]. intros _. tauto.
      * split; [right; left; tauto|].
        intros Hr'. rewrite (phase_running st' Hr') in Hph. discriminate.
      * split; [right; right; tauto|].
        intros Hr'. rewrite (phase_running st' Hr') in Hph. discriminate.
  - inversion H; subst. apply Hsame, mousemove_same_session.
  - inversion H; subst. apply Hsame, click_same_session.
  - inversion H; subst. apply Hsame, keydown_same_session.
  - inversion H; subst. apply Hsame, keyup_same_session.
Qed.

End OneSession.

(** X8.  From a click on Start until the next one, whatever else happens,
    a session records its score exactly once.  While it runs the
    leaderboard is the one it started with; once it has ended the
    leaderboard is that one with a single insertion of the final score
    under the session's name, and it stays so.  A session that has ended
    was either won with exactly [WIN_SCORE] points or lost with
    fewer. *)
Theorem score_recorded_once canvas (now r : Q) (prev : Game)
    (ins : list Input) :
  forallb not_start ins = true →
  let st0 := startGame canvas now r prev in
  ∃ st,
    run canvas ins st0 = Some st
    ∧ currentPlayerName st = currentPlayerName st0
    ∧ ((gameRunning st = true ∧ highScores st = highScores prev)
       ∨ (gameRunning st = false
          ∧ highScores st
            = updateHighScores (score st) (currentPlayerName st0)
                (highScores prev)
          ∧ ((phase st = Won ∧ score st = WIN_SCORE)
             ∨ (phase st = Lost ∧ score st < WIN_SCORE)))).
Proof.
  intros Hins st0.
  destruct (run_rule canvas
              (λ s, recorded (currentPlayerName st0) (highScores prev) s
                    ∧ ended_fairly s
                    ∧ (gameRunning s = true →
                       0 < lives s ∧ score s < WIN_SCORE))
              not_start
              ltac:(intros i s s' Hi; by apply react_recorded)
              ins st0 Hins)
    as (st & Hrun & (Hname & Hrec) & Hfair & _).
  { unfold recorded, ended_fairly, st0, startGame. cbv zeta. proj.
    split; [auto|]. split; [auto|]. intros _. split; reflexivity. }
  exists st. split; [exact Hrun|]. split; [exact Hname|].
  destruct Hrec as [Hgo|[Hstop Hhs]]; [left; exact Hgo|right].
  split; [exact Hstop|]. split; [exact Hhs|].
  destruct Hfair as [Hr|Hend]; [congruence|exact Hend].
Qed.

(** A session that is lost on the clock: one frame a minute after the
    start. *)
Definition timed_out : list Input := [Frame 16 0 0; Click; Frame 61000 0 0].

Lemma score_recorded_once_witness :
  ∃ st,
    run sample_canvas timed_out sample_start = Some st
    ∧ gameRunning st = false
    ∧ highScores st = [mkEntry "Nova" 0].
Proof.
  destruct (score_recorded_once sample_canvas 0 (1 # 2)
              (page_loaded sample_canvas []) timed_out eq_refl)
    as (st & Hrun & _ & Hrec).
  exists st. split; [exact Hrun|].
  assert (Hstop : gameRunning st = false ∧ score st = 0).
  { change (startGame sample_canvas 0 (1 # 2) (page_loaded sample_canvas []))
      with sample_start in Hrun.
    vm_compute in Hrun. inversion Hrun. split; reflexivity. }
  destruct Hstop as [Hstop Hscore]. split; [exact Hstop|].
  destruct Hrec as [[Hgo _]|(_ & Hhs & _)]; [congruence|].
  rewrite Hhs, Hscore. reflexivity.
Defined.

(** ** The clock of a session *)

(** While the session started at [now] runs, the clock shows what is left
    of [GAME_DURATION] after the time of the last frame. *)
Definition on_time (now : Q) (st : Game) : Prop :=
  gameRunning st = true →
  (timeLeft st == GAME_DURATION - (lastTime st - now) / 1000)%Q
  ∧ (0 < timeLeft st)%Q.

Section Clock.

Variable canvas : Canvas.

Lemma update_clock delta r1 r2 st st' :
  update canvas delta r1 r2 st = Some st' →
  gameRunning st' = true →
  lastTime st' = lastTime st
  ∧ timeLeft st' = (timeLeft st - delta / 1000)%Q
  ∧ (0 < timeLeft st')%Q.
Proof.
  destruct (before_loop_same canvas delta r1 r2 st)
    as (_ & _ & _ & _ & Ht1 & Hl1 & _).
  apply (update_rule canvas
           (λ s, timeLeft s = timeLeft st ∧ lastTime s = lastTime st)
           (λ s, gameRunning s = true →
                 lastTime s = lastTime st
                 ∧ timeLeft s = (timeLeft st - delta / 1000)%Q
                 ∧ (0 < timeLeft s)%Q)).
  - by rewrite Ht1, Hl1.
  - intros i s s' ev [Ht Hl] Hb. apply bar_body_frame in Hb.
    destruct Hb as (-> & -> & _). auto.
  - intros i s s' ev _ Hb. apply bar_body_frame in Hb.
    destruct Hb as (_ & _ & _ & _ & _ & Hstop). congruence.
  - intros s [Ht Hl].
    destruct (instruction_phase_same delta s) as (_ & _ & -> & -> & _). auto.
  - intros i s s' ev [Ht Hl] Hb. apply bullet_body_frame in Hb.
    destruct Hb as (-> & -> & _). auto.
  - intros s [Ht Hl]. unfold time_phase. cbv zeta. proj.
    destruct (Qle_bool _ _) eqn:E; proj; [discriminate|].
    intros _. apply Qle_bool_gt in E. rewrite Ht in *.
    split; [exact Hl|]. split; [reflexivity|exact E].
Qed.

Lemma react_on_time now i st st' :
  not_start i = true → on_time now st → react canvas i st = Some st' →
  on_time now st'.
Proof.
  intros Hi Hon H.
  assert (Hsame : ∀ s, same_session st s → on_time now s).
  { intros s (_ & _ & _ & _ & Ht & Hl & Hr & _). unfold on_time in *.
    rewrite Ht, Hl, Hr. exact Hon. }
  destruct i as [now' r|ts r1 r2|x| |key code|key]; cbn [react] in H;
    try discriminate Hi.
  - unfold gameLoop in H. destruct (negb (gameRunning st)) eqn:Hrun.
    + inversion H; subst. exact Hon.
    + apply negb_false_iff in Hrun. cbv zeta in H. intros Hrun'.
      destruct (update_clock _ _ _ _ _ H Hrun') as (Hl & Ht & Hpos).
      proj. destruct (Hon Hrun) as [Heq _].
      split; [|exact Hpos]. rewrite Ht, Hl, Heq.
      unfold GAME_DURATION, Qdiv. change (/ 1000)%Q with (1 # 1000)%Q. lra.
  - inversion H; subst. apply Hsame, mousemove_same_session.
  - inversion H; subst. apply Hsame, click_same_session.
  - inversion H; subst. apply Hsame, keydown_same_session.
  - inversion H; subst. apply Hsame, keyup_same_session.
Qed.

End Clock.

(** X9.  From a click on Start at time [now] until the next one, a running
    session's clock always shows [GAME_DURATION] seconds less the time
    between [now] and the last frame, however the frames are spaced; it is
    positive, so no session is still running after a frame that comes a
    minute or more after its start. *)
Theorem clock_follows_frames canvas (now r : Q) (prev : Game)
    (ins : list Input) :
  forallb not_start ins = true →
  ∃ st,
    run canvas ins (startGame canvas now r prev) = Some st
    ∧ (gameRunning st = true →
       (timeLeft st == 60 - (lastTime st - now) / 1000)%Q
       ∧ (lastTime st < now + 60000)%Q).
Proof.
  intros Hins.
  destruct (run_rule canvas (on_time now) not_start
              ltac:(intros i s s'; apply react_on_time)
              ins (startGame canvas now r prev) Hins)
    as (st & Hrun & Hon).
  { unfold on_time, startGame. cbv zeta. proj. intros _.
    unfold GAME_DURATION, Qdiv. change (/ 1000)%Q with (1 # 1000)%Q.
    split; lra. }
  exists st. split; [exact Hrun|]. intros Hr.
  destruct (Hon Hr) as [Heq Hpos]. unfold GAME_DURATION in Heq.
  split; [exact Heq|]. rewrite Heq in Hpos.
  unfold Qdiv in Hpos. change (/ 1000)%Q with (1 # 1000)%Q in Hpos. lra.
Qed.

Lemma clock_follows_frames_witness :
  ∃ st,
    run sample_canvas [Frame 16 0 0; Click; Frame 2016 0 0] sample_start
    = Some st
    ∧ (timeLeft st == 60 - (2016 - 0) / 1000)%Q.
Proof.
  destruct (clock_follows_frames sample_canvas 0 (1 # 2)
              (page_loaded sample_canvas [])
              [Frame 16 0 0; Click; Frame 2016 0 0] eq_refl)
    as (st & Hrun & Hclock).
  exists st. split; [exact Hrun|].
  change (startGame sample_canvas 0 (1 # 2) (page_loaded sample_canvas []))
    with sample_start in Hrun.
  assert (Hst : gameRunning st = true ∧ lastTime st = 2016%Q).
  { vm_compute in Hrun. inversion Hrun. split; reflexivity. }
  destruct Hst as [Hr Hl]. destruct (Hclock Hr) as [Heq _].
  rewrite Hl in Heq. exact Heq.
Defined.

(** ** What a tick leaves on the field *)

Definition on_screen (bullet : Bullet) : Prop :=
  (0 <= bullet_y bullet + bullet_height bullet)%Q.

Definition clear_of (bars : list Bar) (bullet : Bullet) : Prop :=
  Forall (λ bar, hits_bar bullet bar = false) bars.

Lemma bullet_scan_miss n bi bullet st s ev :
  bullet_scan n bi bullet st = Some (s, false, ev) →
  s = st ∧ ev = []
  ∧ ∀ j bar, (j < n)%nat → bars st !! j = Some bar →
             hits_bar bullet bar = false.
Proof.
  induction n as [|m IH]; simpl; intros H.
  - inversion H; subst. repeat split. intros j bar Hj. lia.
  - destruct (bars st !! m) as [bar0|] eqn:Hm; [|discriminate H].
    destruct (hits_bar bullet bar0) eqn:Hhit;
      [cbv zeta in H; discriminate H|].
    destruct (IH H) as (Hs & Hev & Hlow). repeat split; auto.
    intros j bar Hj Hbar. destruct (decide (j = m)) as [->|Hne].
    + congruence.
    + apply (Hlow j bar); [lia|exact Hbar].
Qed.

Lemma bullet_scan_bars_in n bi bullet st s removed ev :
  bullet_scan n bi bullet st = Some (s, removed, ev) →
  ∀ bar, bar ∈ bars s → bar ∈ bars st.
Proof.
  revert st. induction n as [|m IH]; intros st H; simpl in H.
  - inversion H; subst. auto.
  - destruct (bars st !! m) as [bar0|] eqn:Hm; [|discriminate H].
    destruct (hits_bar bullet bar0); [|eauto].
    cbv zeta in H. inversion H; subst. intros bar Hin.
    assert (Hin' : bar ∈ delete m (bars st))
      by (destruct (isBad bar0); exact Hin).
    rewrite (delete_Permutation (bars st) m bar0 Hm).
    apply list_elem_of_further. exact Hin'.
Qed.

Lemma bullet_body_clear st pre b suf s ev :
  bullets st = pre ++ b :: suf →
  bullet_body (length pre) st = (Go s, ev) →
  ∃ kept,
    bullets s = pre ++ kept ++ suf
    ∧ Forall (λ bl, on_screen bl ∧ clear_of (bars s) bl) kept
    ∧ (∀ bar, bar ∈ bars s → bar ∈ bars st).
Proof.
  intros Hb H. unfold bullet_body in H.
  rewrite Hb, list_lookup_middle in H by reflexivity.
  cbv zeta in H. proj. rewrite insert_middle in H.
  destruct (Qltb _ 0) eqn:Htop.
  - inversion H; subst. proj. rewrite delete_middle.
    exists []. split; [reflexivity|]. split; [constructor|auto].
  - destruct (bullet_scan _ _ _ _) as [[[s' removed] ev']|] eqn:Hscan;
      [|discriminate H].
    inversion H; subst.
    pose proof (bullet_scan_bars_in _ _ _ _ _ _ _ Hscan) as Hin.
    pose proof (bullet_scan_bullets _ _ _ _ _ _ _ Hscan) as Hbul.
    proj. destruct removed.
    + rewrite Hbul, delete_middle. exists []. split; [reflexivity|].
      split; [constructor|exact Hin].
    + apply bullet_scan_miss in Hscan. destruct Hscan as (-> & _ & Hmiss).
      proj. exists [bullet_rise b]. split; [reflexivity|].
      split; [|exact Hin]. constructor; [|constructor]. split.
      * unfold on_screen. by apply Qltb_ge in Htop.
      * unfold clear_of. apply Forall_forall. intros bar Hbar.
        apply list_elem_of_lookup in Hbar as [j Hj].
        apply (Hmiss j bar); [|exact Hj]. by eapply lookup_lt_Some.
Qed.

Lemma bullets_loop_clear pre :
  ∀ st suf s evs,
    bullets st = pre ++ suf →
    bullets_loop (length pre) st = (Go s, evs) →
    ∃ kept,
      bullets s = kept ++ suf
      ∧ Forall (λ bl, on_screen bl ∧ clear_of (bars s) bl) kept
      ∧ (∀ bar, bar ∈ bars s → bar ∈ bars st).
Proof.
  induction pre as [|b pre IH] using rev_ind; intros st suf s evs Hb H.
  - simpl in H. inversion H; subst. exists [].
    split; [exact Hb|]. split; [constructor|auto].
  - rewrite length_app in H. simpl length in H.
    replace (length pre + 1)%nat with (S (length pre)) in H by lia.
    cbn [bullets_loop] in H. rewrite <- app_assoc in Hb. simpl in Hb.
    destruct (bullet_body (length pre) st) as [[s1|s1|] ev] eqn:Hbody;
      try discriminate H.
    destruct (bullet_body_clear st pre b suf s1 ev Hb Hbody)
      as (kept1 & Hs1 & Hclear1 & Hin1).
    destruct (bullets_loop (length pre) s1) as [c evs1] eqn:Hloop.
    inversion H; subst.
    destruct (IH s1 (kept1 ++ suf) s evs1 Hs1 Hloop)
      as (kept & Hs & Hclear & Hin).
    exists (kept ++ kept1). split; [by rewrite <- app_assoc|].
    split; [|auto]. apply Forall_app. split; [exact Hclear|].
    eapply Forall_impl; [exact Hclear1|]. intros bl [Hon Hcl].
    split; [exact Hon|]. unfold clear_of in *.
    rewrite Forall_forall in *. auto.
Qed.

Section AfterTick.

Variable canvas : Canvas.

(** A tick after which the session still runs went through all its
    phases. *)
Lemma update_completed delta r1 r2 st st' :
  update canvas delta r1 r2 st = Some st' →
  gameRunning st' = true →
  let st1 := spawn_phase canvas delta r1 r2 (move_player canvas st) in
  ∃ s s3 shots,
    bars s = List.filter (stays canvas (player st1)) (bar_fall <$> bars st1)
    ∧ bullets_loop (length (bullets (instruction_phase delta s)))
        (instruction_phase delta s) = (Go s3, shots)
    ∧ st' = time_phase delta s3.
Proof.
  intros Hup Hrun st1. unfold update, update_log in Hup. cbv zeta in Hup.
  fold st1 in Hup.
  destruct (bars_loop_trace canvas (bars st1) st1 []
              ltac:(by rewrite app_nil_r))
    as (c & todo & seen & Hpre & Hloop & Hc).
  rewrite Hloop in Hup. destruct c as [s|s|]; [| |contradiction].
  - destruct Hc as (-> & Hbars & _). rewrite app_nil_r in Hbars.
    rewrite app_nil_l in Hpre. rewrite <- Hpre in Hbars.
    destruct (bullets_loop (length (bullets (instruction_phase delta s)))
                (instruction_phase delta s)) as [[s3|s3|] shots] eqn:Hbul;
      cbn [fst] in Hup; try discriminate Hup.
    + inversion Hup; subst. exists s, s3, shots.
      split; [exact Hbars|]. split; [exact Hbul|reflexivity].
    + exfalso.
      pose proof (bullets_loop_rule (λ _, True) (λ _, False)
                    ltac:(auto)
                    ltac:(intros i t t' ev _ Hb;
                          exact (bullet_body_no_ret _ _ _ _ Hb))
                    (length (bullets (instruction_phase delta s)))
                    (instruction_phase delta s) I) as Hno.
      rewrite Hbul in Hno. exact Hno.
  - cbn [fst] in Hup. inversion Hup; subst. destruct Hc as [_ Hstop].
    congruence.
Qed.

End AfterTick.

(** X10.  After a tick that leaves the session running, no bar left in
    the store overlaps the player and none has its top edge below the
    bottom of the field: every bar that did was caught or missed in that
    tick, the one spawned in it included. *)
Theorem bars_left_are_clear canvas (delta r1 r2 : Q) (st st' : Game) :
  update canvas delta r1 r2 st = Some st' →
  gameRunning st' = true →
  Forall (λ bar, hits_player bar (player st') = false
                 ∧ (bar_y bar <= canvas_height canvas)%Q)
    (bars st').
Proof.
  intros Hup Hrun.
  pose proof (update_player canvas delta r1 r2 st st' Hup) as Hp.
  rewrite <- (spawn_phase_player canvas delta r1 r2 (move_player canvas st))
    in Hp.
  destruct (update_completed canvas delta r1 r2 st st' Hup Hrun)
    as (s & s3 & shots & Hbars & Hbul & Hst').
  destruct (bullets_loop_clear (bullets (instruction_phase delta s))
              (instruction_phase delta s) [] s3 shots
              ltac:(by rewrite app_nil_r) Hbul)
    as (_ & _ & _ & Hin).
  assert (Hb3 : bars st' = bars s3).
  { rewrite Hst'. unfold time_phase. cbv zeta.
    destruct (Qle_bool _ _); reflexivity. }
  assert (Hb2 : bars (instruction_phase delta s) = bars s).
  { unfold instruction_phase. cbv zeta.
    repeat match goal with
           | |- context [if ?c then _ else _] => destruct c
           end; reflexivity. }
  apply Forall_forall. intros bar Hbar. rewrite Hb3 in Hbar.
  apply Hin in Hbar. rewrite Hb2, Hbars in Hbar.
  apply list_elem_of_In, filter_In in Hbar as [_ Hstays].
  rewrite <- Hp in Hstays.
  unfold stays in Hstays. apply andb_true_iff in Hstays as [H1 H2].
  apply negb_true_iff in H1, H2. split; [exact H1|]. by apply Qltb_ge in H2.
Qed.

(** A bar high above the player, and a bullet below it that will not
    reach it in one tick. *)
Definition quiet : Game :=
  set_bullets [mkBullet 490 600 15 15]
    (set_bars [mkBar 480 100 50 20 3 false] sample_start).

Lemma bars_left_are_clear_witness :
  ∃ st',
    update sample_canvas 16 0 0 quiet = Some st'
    ∧ Forall (λ bar, hits_player bar (player st') = false
                     ∧ (bar_y bar <= canvas_height sample_canvas)%Q)
        (bars st').
Proof.
  eexists. split; [vm_compute; reflexivity|].
  apply (bars_left_are_clear sample_canvas 16 0 0 quiet);
    vm_compute; reflexivity.
Defined.

(** X11.  After a tick that leaves the session running, every bullet left
    in the store still reaches into the field (its bottom edge is not
    above the top) and overlaps none of the bars left: a bullet that
    overlapped a bar was removed together with it. *)
Theorem bullets_left_are_live canvas (delta r1 r2 : Q) (st st' : Game) :
  update canvas delta r1 r2 st = Some st' →
  gameRunning st' = true →
  Forall (λ bullet,
            (0 <= bullet_y bullet + bullet_height bullet)%Q
            ∧ Forall (λ bar, hits_bar bullet bar = false) (bars st'))
    (bullets st').
Proof.
  intros Hup Hrun.
  destruct (update_completed canvas delta r1 r2 st st' Hup Hrun)
    as (s & s3 & shots & _ & Hbul & Hst').
  destruct (bullets_loop_clear (bullets (instruction_phase delta s))
              (instruction_phase delta s) [] s3 shots
              ltac:(by rewrite app_nil_r) Hbul)
    as (kept & Hkept & Hclear & _).
  rewrite app_nil_r in Hkept.
  assert (Hb3 : bars st' = bars s3 ∧ bullets st' = bullets s3).
  { rewrite Hst'. unfold time_phase. cbv zeta.
    destruct (Qle_bool _ _); split; reflexivity. }
  destruct Hb3 as [-> ->]. rewrite Hkept. exact Hclear.
Qed.

Lemma bullets_left_are_live_witness :
  ∃ st',
    update sample_canvas 16 0 0 quiet = Some st'
    ∧ Forall (λ bullet,
                (0 <= bullet_y bullet + bullet_height bullet)%Q
                ∧ Forall (λ bar, hits_bar bullet bar = false) (bars st'))
        (bullets st').
Proof.
  eexists. split; [vm_compute; reflexivity|].
  apply (bullets_left_are_live sample_canvas 16 0 0 quiet);
    vm_compute; reflexivity.
Defined.

(** ** Where a new score lands *)

Lemma sort_insert_head a l :
  match l with [] => True | b :: _ => entry_score b <= entry_score a end →
  sort_insert by_score_desc a l = a :: l.
Proof.
  destruct l as [|b l]; [reflexivity|]. simpl. unfold by_score_desc.
  intros H. apply Z.leb_le in H as H'.
  replace (entry_score b - entry_score a <=? 0) with true; [reflexivity|].
  symmetry. apply Z.leb_le. lia.
Qed.

Lemma Array_sort_sorted_id hs :
  sorted_desc hs → Array_sort by_score_desc hs = hs.
Proof.
  unfold sorted_desc. intros Hs. induction Hs as [|a l Hl IH Ha].
  - reflexivity.
  - change (Array_sort by_score_desc (a :: l))
      with (sort_insert by_score_desc a (Array_sort by_score_desc l)).
    rewrite IH. apply sort_insert_head.
    destruct l as [|b l]; [exact I|]. by inversion Ha.
Qed.

Definition at_least (s : Z) (x : Entry) : bool := s <=? entry_score x.
Definition below (s : Z) (x : Entry) : bool := entry_score x <? s.

Lemma all_below s l :
  Forall (λ x, entry_score x < s) l →
  List.filter (at_least s) l = [] ∧ List.filter (below s) l = l.
Proof.
  intros H. induction H as [|x l Hx Hl [IH1 IH2]]; [by split|].
  simpl. unfold at_least at 1, below at 1.
  replace (s <=? entry_score x) with false by (symmetry; apply Z.leb_gt; lia).
  replace (entry_score x <? s) with true by (symmetry; apply Z.ltb_lt; lia).
  by rewrite IH1, IH2.
Qed.

Lemma Array_sort_snoc hs e :
  sorted_desc hs →
  Array_sort by_score_desc (hs ++ [e])
  = List.filter (at_least (entry_score e)) hs
    ++ e :: List.filter (below (entry_score e)) hs.
Proof.
  unfold sorted_desc. intros Hs. induction Hs as [|a l Hl IH Ha].
  - reflexivity.
  - change (Array_sort by_score_desc ((a :: l) ++ [e]))
      with (sort_insert by_score_desc a (Array_sort by_score_desc (l ++ [e]))).
    rewrite IH. cbn [List.filter]. unfold at_least at 2, below at 2.
    destruct (entry_score e <=? entry_score a) eqn:E; zbool.
    + replace (entry_score a <? entry_score e) with false
        by (symmetry; apply Z.ltb_ge; lia).
      apply sort_insert_head.
      destruct (List.filter (at_least (entry_score e)) l) as [|b k] eqn:Hk;
        simpl; [exact E|].
      assert (Hb : In b (List.filter (at_least (entry_score e)) l))
        by (rewrite Hk; by left).
      apply filter_In in Hb as [Hb _].
      rewrite Forall_forall in Ha. apply Ha. by apply list_elem_of_In.
    + replace (entry_score a <? entry_score e) with true
        by (symmetry; apply Z.ltb_lt; lia).
      destruct (all_below (entry_score e) l) as [-> ->].
      { eapply Forall_impl; [exact Ha|]. simpl. intros x Hx. lia. }
      simpl. unfold by_score_desc at 1.
      replace (entry_score e - entry_score a <=? 0) with false
        by (symmetry; apply Z.leb_gt; lia).
      f_equal. apply sort_insert_head.
      destruct l as [|b l']; [exact I|]. by inversion Ha.
Qed.

(** X12.  On a leaderboard that is sorted, [updateHighScores] puts the new
    entry after every entry that scores at least as much and before every
    entry that scores less, and keeps the first five.  So a full board
    whose entries all score at least the new score is left as it was (a
    tie does not displace anyone), and a score above all others goes to
    the top. *)
Theorem new_score_position (hs : list Entry) (newScore : Z)
    (playerName : string) :
  sorted_desc hs →
  let new := mkEntry playerName newScore in
  updateHighScores newScore playerName hs
  = take 5 (List.filter (at_least newScore) hs
            ++ new :: List.filter (below newScore) hs)
  ∧ (length hs = 5%nat → Forall (λ x, newScore <= entry_score x) hs →
     updateHighScores newScore playerName hs = hs)
  ∧ (Forall (λ x, entry_score x < newScore) hs →
     updateHighScores newScore playerName hs = take 5 (new :: hs)).
Proof.
  intros Hs new.
  assert (Hpos : updateHighScores newScore playerName hs
                 = take 5 (List.filter (at_least newScore) hs
                           ++ new :: List.filter (below newScore) hs)).
  { unfold updateHighScores. cbv zeta. fold by_score_desc. fold new.
    rewrite (Array_sort_snoc hs new Hs). cbn [entry_score new].
    destruct (5 <? _)%nat eqn:E; [reflexivity|].
    apply Nat.ltb_ge in E. by rewrite take_ge. }
  split; [exact Hpos|]. split.
  - intros Hlen Hall. rewrite Hpos.
    assert (Hf : List.filter (at_least newScore) hs = hs
                 ∧ List.filter (below newScore) hs = []).
    { clear -Hall. induction Hall as [|x l Hx Hl [IH1 IH2]]; [by split|].
      simpl. unfold at_least at 1, below at 1.
      replace (newScore <=? entry_score x) with true
        by (symmetry; apply Z.leb_le; lia).
      replace (entry_score x <? newScore) with false
        by (symmetry; apply Z.ltb_ge; lia).
      by rewrite IH1, IH2. }
    destruct Hf as [-> ->]. rewrite take_app_length'; [reflexivity|by symmetry].
  - intros Hall. rewrite Hpos. by destruct (all_below newScore hs Hall) as [-> ->].
Qed.

Definition full_board : list Entry :=
  [mkEntry "Nova" 20; mkEntry "Sail" 9; mkEntry "Valet" 7;
   mkEntry "Lambo" 7; mkEntry "Breeze" 3].

Lemma new_score_position_witness :
  updateHighScores 3 "Taylor" full_board = full_board
  ∧ updateHighScores 7 "Taylor" full_board
    = [mkEntry "Nova" 20; mkEntry "Sail" 9; mkEntry "Valet" 7;
       mkEntry "Lambo" 7; mkEntry "Taylor" 7].
Proof.
  assert (Hs : sorted_desc full_board).
  { unfold sorted_desc, full_board.
    repeat (constructor; [|repeat constructor; simpl; lia]). constructor. }
  split.
  - apply (new_score_position full_board 3 "Taylor" Hs); [reflexivity|].
    unfold full_board. repeat constructor; simpl; lia.
  - rewrite (proj1 (new_score_position full_board 7 "Taylor" Hs)).
    reflexivity.
Defined.

(** ** The first version of the script, tick by tick *)

Section BaselineTick.

Variable canvas : Canvas.

Lemma baseline_bar_body_range i st :
  (i < length (Baseline.bars st))%nat →
  match Baseline.bar_body canvas i st with
  | Baseline.Go s => (i ≤ length (Baseline.bars s))%nat
  | Baseline.Ret _ => True
  | Baseline.Throw => False
  end.
Proof.
  intros Hi. unfold Baseline.bar_body.
  destruct (lookup_lt_is_Some_2 (Baseline.bars st) i Hi) as [bar Hbar].
  rewrite Hbar. cbv zeta. bproj. rewrite delete_insert_same.
  assert (Hdel : (i ≤ length (delete i (Baseline.bars st)))%nat).
  { pose proof (length_delete_ge (Baseline.bars st) i). lia. }
  repeat match goal with
         | |- context [if ?c then _ else _] => destruct c
         end; bproj; rewrite ?length_insert; try exact I; lia.
Qed.

Lemma baseline_bars_loop_total n :
  ∀ st, (n ≤ length (Baseline.bars st))%nat →
  Baseline.bars_loop canvas n st ≠ Baseline.Throw.
Proof.
  induction n as [|i IH]; intros st Hn; simpl; [discriminate|].
  pose proof (baseline_bar_body_range i st ltac:(lia)) as Hr.
  destruct (Baseline.bar_body canvas i st) as [s|s|];
    [by apply IH|discriminate|contradiction].
Qed.

(** What a continuing iteration keeps, relative to the start [st0] of the
    tick. *)
Definition baseline_kept (st0 st : Baseline.Game) : Prop :=
  Baseline.score st0 <= Baseline.score st
  ∧ Baseline.lives st <= Baseline.lives st0
  ∧ Baseline.gameRunning st = Baseline.gameRunning st0
  ∧ Baseline.timeLeft st = Baseline.timeLeft st0
  ∧ (0 < Baseline.lives st0 → 0 < Baseline.lives st).

Definition baseline_left (st0 st : Baseline.Game) : Prop :=
  Baseline.score st0 <= Baseline.score st
  ∧ Baseline.lives st <= Baseline.lives st0
  ∧ (Baseline.gameRunning st = true →
     Baseline.gameRunning st0 = true
     ∧ (0 < Baseline.lives st0 → 0 < Baseline.lives st)
     ∧ (0 < Baseline.timeLeft st)%Q).

Lemma baseline_bar_body_kept st0 i st c :
  baseline_kept st0 st → Baseline.bar_body canvas i st = c →
  match c with
  | Baseline.Go s => baseline_kept st0 s
  | Baseline.Ret s => baseline_left st0 s
  | Baseline.Throw => True
  end.
Proof.
  unfold baseline_kept, baseline_left. intros (Hs & Hl & Hr & Ht & Hpos) H.
  unfold Baseline.bar_body in H. cbv zeta in H.
  repeat match type of H with
         | context [match ?x with _ => _ end] => destruct x eqn:?
         end; subst; bproj; zbool; repeat split; try assumption;
    try lia; try discriminate.
Qed.

End BaselineTick.

(** X14.  In the first version of the script a call of [update] always
    completes; over it the score never goes down and the lives never go
    up (a catch scores, only a miss costs a life, and nothing gives one
    back).  It never starts a session, and a session that it leaves
    running has lives in hand, if it had any, and time on the clock. *)
Theorem baseline_tick canvas (delta r : Q) (st : Baseline.Game) :
  ∃ st',
    Baseline.update canvas delta r st = Some st'
    ∧ Baseline.score st <= Baseline.score st'
    ∧ Baseline.lives st' <= Baseline.lives st
    ∧ (Baseline.gameRunning st' = true →
       Baseline.gameRunning st = true
       ∧ (0 < Baseline.lives st → 0 < Baseline.lives st')
       ∧ (0 < Baseline.timeLeft st')%Q).
Proof.
  assert (Htotal : ∃ st', Baseline.update canvas delta r st = Some st').
  { unfold Baseline.update. cbv zeta.
    generalize (Baseline.spawn_phase canvas delta r
                  (Baseline.move_player canvas st)). intros st1.
    pose proof (baseline_bars_loop_total canvas
                  (length (Baseline.bars st1)) st1 ltac:(lia)) as Hno.
    destruct (Baseline.bars_loop canvas (length (Baseline.bars st1)) st1);
      [eauto|eauto|contradiction]. }
  destruct Htotal as [st' Hup]. exists st'. split; [exact Hup|].
  revert Hup.
  apply (baseline_update_rule canvas (baseline_kept st) (baseline_left st)).
  - unfold baseline_kept, Baseline.spawn_phase, Baseline.spawnBar,
      Baseline.move_player. cbv zeta.
    repeat match goal with
           | |- context [if ?c then _ else _] => destruct c
           end; bproj; repeat split; auto; lia.
  - intros i s s' HP Hb.
    exact (baseline_bar_body_kept canvas st i s _ HP Hb).
  - intros i s s' HP Hb.
    exact (baseline_bar_body_kept canvas st i s _ HP Hb).
  - unfold baseline_kept, baseline_left, Baseline.time_phase.
    intros s (Hs & Hl & Hr & Ht & Hpos). cbv zeta. bproj.
    destruct (Qle_bool _ _) eqn:E; bproj.
    + repeat split; try assumption; discriminate.
    + apply Qle_bool_gt in E. rewrite Hr. repeat split; auto.
Qed.

(** ** Everything stays within the width of the field *)

Definition bar_ok (canvas : Canvas) (bar : Bar) : Prop :=
  bar_width bar = BAR_WIDTH ∧ bar_height bar = BAR_HEIGHT
  ∧ (0 <= bar_x bar)%Q
  ∧ (bar_x bar + bar_width bar <= canvas_width canvas)%Q
  ∧ (2 <= bar_speed bar)%Q ∧ (bar_speed bar <= 7)%Q.

Definition bullet_ok (canvas : Canvas) (bullet : Bullet) : Prop :=
  bullet_width bullet = BULLET_WIDTH ∧ bullet_height bullet = BULLET_HEIGHT
  ∧ (0 <= bullet_x bullet)%Q
  ∧ (bullet_x bullet + bullet_width bullet <= canvas_width canvas)%Q.

Definition stores_ok (canvas : Canvas) (st : Game) : Prop :=
  Forall (bar_ok canvas) (bars st) ∧ Forall (bullet_ok canvas) (bullets st).

(** Frames whose first draw is a value of [Math.random()]. *)
Definition fair_draw (i : Input) : bool :=
  match i with
  | Frame _ r1 _ => Qle_bool 0 r1 && Qltb r1 1
  | _ => true
  end.

Section Stores.

Variable canvas : Canvas.
Hypothesis player_fits : (PLAYER_WIDTH <= canvas_width canvas)%Q.

Lemma bar_fall_ok bar : bar_ok canvas bar → bar_ok canvas (bar_fall bar).
Proof. unfold bar_ok. destruct bar; simpl. tauto. Qed.

Lemma bullet_rise_ok bullet :
  bullet_ok canvas bullet → bullet_ok canvas (bullet_rise bullet).
Proof. unfold bullet_ok. destruct bullet; simpl. tauto. Qed.

Lemma spawn_phase_stores_ok delta r1 r2 st :
  (0 <= r1)%Q → (r1 < 1)%Q → 0 <= score st →
  stores_ok canvas st → stores_ok canvas (spawn_phase canvas delta r1 r2 st).
Proof.
  intros Hr0 Hr1 Hscore [Hbars Hbullets].
  unfold stores_ok, spawn_phase, spawnBar. cbv zeta. proj.
  destruct (Qle_bool _ (lastSpawn st + delta)); proj; [|by split].
  split; [|exact Hbullets]. apply Forall_app. split; [exact Hbars|].
  constructor; [|constructor]. unfold bar_ok.
  cbn [bar_x bar_width bar_height bar_speed].
  assert (H0 : (0 <= inject_Z (score st))%Q)
    by (rewrite <- (Zle_Qle 0); exact Hscore).
  unfold PLAYER_WIDTH, BAR_WIDTH, Math_min in *.
  split; [reflexivity|]. split; [reflexivity|].
  assert (Hx : (0 <= r1 * (canvas_width canvas - 50))%Q)
    by (apply Qmult_le_0_compat; lra).
  assert (Hx' : (r1 * (canvas_width canvas - 50)
                 <= 1 * (canvas_width canvas - 50))%Q)
    by (apply Qmult_le_compat_r; lra).
  split; [exact Hx|]. split; [lra|].
  destruct (Qle_bool _ 5) eqn:E; [apply Qle_bool_iff in E|]; split; lra.
Qed.

Lemma bar_body_stores_ok i st c ev :
  stores_ok canvas st → bar_body canvas i st = (c, ev) →
  match c with
  | Go s | Ret s => stores_ok canvas s
  | Throw => True
  end.
Proof.
  intros [Hbars Hbullets] H.
  pose proof (bar_body_bullets canvas i st c ev H) as Hsame.
  unfold bar_body in H.
  destruct (bars st !! i) as [bar|] eqn:Hbar;
    [|inversion H; subst; exact I].
  assert (Hok : bar_ok canvas (bar_fall bar)).
  { apply bar_fall_ok. rewrite Forall_lookup in Hbars. eauto. }
  assert (Hdel : Forall (bar_ok canvas) (delete i (bars st)))
    by (by apply Forall_delete).
  assert (Hins : Forall (bar_ok canvas) (<[i := bar_fall bar]> (bars st)))
    by (by apply Forall_insert).
  cbv zeta in H. proj. rewrite delete_insert_same in H.
  unfold stores_ok.
  split_body H; rewrite Hsame; proj; unfold level_up; proj; by split.
Qed.

Lemma bullet_body_stores_ok bi st s ev :
  stores_ok canvas st → bullet_body bi st = (Go s, ev) → stores_ok canvas s.
Proof.
  intros [Hbars Hbullets] H. unfold bullet_body in H.
  destruct (bullets st !! bi) as [bullet|] eqn:Hbullet; [|discriminate H].
  assert (Hins : Forall (bullet_ok canvas)
                   (<[bi := bullet_rise bullet]> (bullets st))).
  { apply Forall_insert; [exact Hbullets|]. apply bullet_rise_ok.
    rewrite Forall_lookup in Hbullets. eauto. }
  cbv zeta in H. proj. unfold stores_ok.
  destruct (Qltb _ 0).
  - inversion H; subst. proj. split; [exact Hbars|by apply Forall_delete].
  - destruct (bullet_scan _ _ _ _) as [[[s' removed] ev']|] eqn:Hscan;
      [|discriminate H].
    inversion H; subst.
    pose proof (bullet_scan_bars_in _ _ _ _ _ _ _ Hscan) as Hin.
    pose proof (bullet_scan_bullets _ _ _ _ _ _ _ Hscan) as Hbul.
    proj. split.
    + rewrite Forall_forall in *. auto.
    + rewrite Hbul. destruct removed; [by apply Forall_delete|exact Hins].
Qed.

Lemma update_stores_ok delta r1 r2 st st' :
  (0 <= r1)%Q → (r1 < 1)%Q → 0 <= score st →
  stores_ok canvas st →
  update canvas delta r1 r2 st = Some st' → stores_ok canvas st'.
Proof.
  intros Hr0 Hr1 Hscore Hok.
  apply (update_rule canvas (stores_ok canvas) (stores_ok canvas)).
  - apply spawn_phase_stores_ok; try assumption.
    + destruct (move_player_same_session canvas st) as (-> & _). exact Hscore.
    + destruct Hok as [Hbars Hbullets]. unfold stores_ok.
      rewrite move_player_bars.
      split; [exact Hbars|].
      unfold move_player, clamp_player. cbv zeta.
      repeat match goal with
             | |- context [if ?c then _ else _] => destruct c
             end; exact Hbullets.
  - intros i s s' ev HP Hb. exact (bar_body_stores_ok i s _ ev HP Hb).
  - intros i s s' ev HP Hb. exact (bar_body_stores_ok i s _ ev HP Hb).
  - intros s HP. unfold instruction_phase, stores_ok in *. cbv zeta.
    repeat match goal with
           | |- context [if ?c then _ else _] => destruct c
           end; exact HP.
  - intros i s s' ev HP Hb. exact (bullet_body_stores_ok i s s' ev HP Hb).
  - intros s HP. unfold time_phase, stores_ok in *. cbv zeta.
    destruct (Qle_bool _ _); exact HP.
Qed.

Lemma shootBullet_stores_ok st :
  player_ok canvas st → stores_ok canvas st → stores_ok canvas (shootBullet st).
Proof.
  intros [[Hx0 HxW] Hw] [Hbars Hbullets]. unfold stores_ok, shootBullet.
  cbv zeta. proj. split; [exact Hbars|].
  apply Forall_app. split; [exact Hbullets|]. constructor; [|constructor].
  unfold bullet_ok. cbn [bullet_x bullet_width bullet_height].
  rewrite Hw in *. unfold PLAYER_WIDTH, BULLET_WIDTH, Qdiv in *.
  change (/ 2)%Q with (1 # 2)%Q. repeat split; lra.
Qed.

Lemma react_stores_ok i st st' :
  fair_draw i = true →
  page_ok canvas st ∧ stores_ok canvas st →
  react canvas i st = Some st' →
  page_ok canvas st' ∧ stores_ok canvas st'.
Proof.
  intros Hi [Hpage Hok] H.
  split; [exact (react_page_ok canvas player_fits i st st' Hpage H)|].
  destruct Hpage as (Hplayer & _ & Hsession).
  destruct i as [now r|ts r1 r2|x| |key code|key]; cbn [react] in H.
  - inversion H; subst. destruct Hok as [_ Hbullets].
    unfold stores_ok, startGame. cbv zeta. proj. by split.
  - unfold gameLoop in H. destruct (negb (gameRunning st)) eqn:Hrun.
    + inversion H; subst. exact Hok.
    + apply negb_false_iff in Hrun. cbv zeta in H.
      cbn [fair_draw] in Hi. apply andb_true_iff in Hi as [Hr0 Hr1].
      apply Qle_bool_iff in Hr0. apply Qltb_lt in Hr1.
      destruct (Hsession Hrun) as (_ & [Hscore _] & _).
      apply (update_stores_ok (ts - lastTime st)%Q r1 r2
               (set_lastTime ts st) st' Hr0 Hr1 Hscore Hok H).
  - inversion H; subst. destruct Hok as [Hbars Hbullets].
    unfold stores_ok, mousemove, clamp_player. cbv zeta.
    repeat match goal with
           | |- context [if ?c then _ else _] => destruct c
           end; by split.
  - inversion H; subst. unfold click.
    destruct (negb _); [exact Hok|by apply shootBullet_stores_ok].
  - inversion H; subst. unfold keydown. cbv zeta. proj.
    destruct (negb _); [exact Hok|].
    destruct (String.eqb _ _); [|exact Hok].
    apply (shootBullet_stores_ok
             (set_keyState (<[key := true]> (keyState st)) st) Hplayer Hok).
  - inversion H; subst. exact Hok.
Qed.

End Stores.

(** X15.  Whatever happens after the page has loaded, through any number
    of sessions, every bar in the store keeps the fixed size, lies within
    the width of the field and falls at a speed between 2 and 7, and every
    bullet keeps the fixed size and lies within the width of the field;
    the draws of [Math.random()] for the position are taken in [0, 1) and
    the field is at least as wide as the player. *)
Theorem stores_stay_in_field canvas (stored : list Entry) (ins : list Input) :
  (PLAYER_WIDTH <= canvas_width canvas)%Q →
  forallb fair_draw ins = true →
  ∃ st,
    run canvas ins (page_loaded canvas stored) = Some st
    ∧ Forall (λ bar,
                bar_width bar = BAR_WIDTH ∧ bar_height bar = BAR_HEIGHT
                ∧ (0 <= bar_x bar)%Q
                ∧ (bar_x bar + bar_width bar <= canvas_width canvas)%Q
                ∧ (2 <= bar_speed bar)%Q ∧ (bar_speed bar <= 7)%Q)
        (bars st)
    ∧ Forall (λ bullet,
                bullet_width bullet = BULLET_WIDTH
                ∧ bullet_height bullet = BULLET_HEIGHT
                ∧ (0 <= bullet_x bullet)%Q
                ∧ (bullet_x bullet + bullet_width bullet
                   <= canvas_width canvas)%Q)
        (bullets st).
Proof.
  intros Hfit Hins.
  destruct (run_rule canvas (λ s, page_ok canvas s ∧ stores_ok canvas s)
              fair_draw
              ltac:(intros i s s'; by apply react_stores_ok)
              ins (page_loaded canvas stored) Hins)
    as (st & Hrun & _ & Hbars & Hbullets).
  { split; [by apply page_loaded_ok|]. split; constructor. }
  exists st. split; [exact Hrun|]. split; [exact Hbars|exact Hbullets].
Qed.

Lemma stores_stay_in_field_witness :
  ∃ st,
    run sample_canvas sample_play (page_loaded sample_canvas []) = Some st
    ∧ length (bars st) = 1%nat ∧ length (bullets st) = 1%nat
    ∧ Forall (λ bar, (bar_x bar + bar_width bar
                      <= canvas_width sample_canvas)%Q) (bars st).
Proof.
  destruct (stores_stay_in_field sample_canvas [] sample_play
              ltac:(apply Qle_bool_iff; reflexivity) eq_refl)
    as (st & Hrun & Hbars & _).
  exists st. split; [exact Hrun|].
  assert (Hlen : length (bars st) = 1%nat ∧ length (bullets st) = 1%nat).
  { vm_compute in Hrun. inversion Hrun. split; reflexivity. }
  destruct Hlen as [Hb Hl]. split; [exact Hb|]. split; [exact Hl|].
  eapply Forall_impl; [exact Hbars|]. simpl. tauto.
Defined.

(** ** The frame loop with the browser's storage

    [endGame] and [winGame] end with [updateHighScores(score,
    currentPlayerName)], whose last statements are [saveHighScores()] and
    [renderHighScores()].  [saveHighScores] calls [localStorage.setItem],
    which throws when the storage cannot be written, and nothing on the way
    up catches the exception: it leaves [update] and [gameLoop].  The
    model above follows the variables of the script; this one runs the
    same code on the variables together with the storage and keeps track
    of how each call ends. *)
Module Stored.

Record World := mkWorld {
  vars : Game;
  localStorage : Storage
}.

Definition set_vars (st : Game) (w : World) : World :=
  mkWorld st (localStorage w).

(** How a call ends. *)
Inductive outcome :=
  | Returned (w : World)          (* it returns *)
  | Raised (e : exn) (w : World)  (* an exception leaves it, in state [w] *)
  | TypeError.                    (* a read of [undefined.y], as [Throw] *)

(** How a loop body ends: it falls through to the next iteration, or the
    call of [update] ends there, by [return] or by an exception. *)
Inductive flow :=
  | Next (w : World)
  | Leave (o : outcome).

Section Frame.

Variable canvas : Canvas.
Variable JSON_stringify : json → string.

(** [saveHighScores()] on the current value of [highScores]; the call in
    the body is the [saveHighScores] of the persistence section, which
    takes the value and the storage. *)
Definition saveHighScores (w : World) : outcome :=
  match
    saveHighScores JSON_stringify (board_to_json (highScores (vars w)))
      (localStorage w)
  with
  | Normal ls => Returned (mkWorld (vars w) ls)
  | Thrown e => Raised e w
  end.

(** [updateHighScores(newScore, playerName)]: push, sort and slice (the
    list function of the same name above), then [saveHighScores()];
    [renderHighScores()], which is reached only when the save returns,
    writes to the page only. *)
Definition updateHighScores (newScore : Z) (playerName : string) (w : World)
    : outcome :=
  let w :=
    set_vars
      (set_highScores
         (updateHighScores newScore playerName (highScores (vars w)))
         (vars w)) w in
  saveHighScores w.

Definition endGame (w : World) : outcome :=
  let w := set_vars (set_gameRunning false (vars w)) w in
  let w := set_vars (set_gameOverHeading HEADING_LOST (vars w)) w in
  updateHighScores (score (vars w)) (currentPlayerName (vars w)) w.

Definition winGame (w : World) : outcome :=
  let w := set_vars (set_gameRunning false (vars w)) w in
  let w := set_vars (set_gameOverHeading HEADING_WON (vars w)) w in
  updateHighScores (score (vars w)) (currentPlayerName (vars w)) w.

(** The body of the first loop, at index [i].  [endGame(); return;] ends
    the call of [update] as [endGame] ends: with the [return] when it
    returns, with its exception when it throws. *)
Definition bar_body (i : nat) (w : World) : flow :=
  match bars (vars w) !! i with
  | None => Leave TypeError
  | Some bar =>
    let bar := bar_fall bar in
    let w := set_vars (set_bars (<[i := bar]> (bars (vars w))) (vars w)) w in
    if hits_player bar (player (vars w)) then
      let w := set_vars (set_bars (delete i (bars (vars w))) (vars w)) w in
      if isBad bar then
        let w := set_vars (set_lives (lives (vars w) - 1) (vars w)) w in
        if lives (vars w) <=? 0 then Leave (endGame w) else Next w
      else
        let w := set_vars (set_score (score (vars w) + 1) (vars w)) w in
        if WIN_SCORE <=? score (vars w) then Leave (winGame w)
        else
          let w :=
            if Z.rem (score (vars w)) 5 =? 0
            then set_vars (level_up (vars w)) w else w in
          Next w
    else if Qltb (canvas_height canvas) (bar_y bar) then
      let w := set_vars (set_bars (delete i (bars (vars w))) (vars w)) w in
      let w := set_vars (set_lives (lives (vars w) - 1) (vars w)) w in
      if lives (vars w) <=? 0 then Leave (endGame w) else Next w
    else Next w
  end.

Fixpoint bars_loop (n : nat) (w : World) : flow :=
  match n with
  | O => Next w
  | S i =>
    match bar_body i w with
    | Next w => bars_loop i w
    | r => r
    end
  end.

Definition time_phase (delta : Q) (w : World) : outcome :=
  let w :=
    set_vars (set_timeLeft (timeLeft (vars w) - delta / 1000)%Q (vars w)) w in
  if Qle_bool (timeLeft (vars w)) 0
  then endGame (set_vars (set_timeLeft 0%Q (vars w)) w)
  else Returned w.

(** [update(delta)].  The player's move, the spawn phase, the banner timer
    and the bullets loop read and write variables only: they are the
    functions of the model above. *)
Definition update (delta r1 r2 : Q) (w : World) : outcome :=
  let w := set_vars (move_player canvas (vars w)) w in
  let w := set_vars (spawn_phase canvas delta r1 r2 (vars w)) w in
  match bars_loop (length (bars (vars w))) w with
  | Leave o => o
  | Next w =>
    let w := set_vars (instruction_phase delta (vars w)) w in
    match fst (bullets_loop (length (bullets (vars w))) (vars w)) with
    | Throw => TypeError
    | Ret st => Returned (set_vars st w)
    | Go st => time_phase delta (set_vars st w)
    end
  end.

(** [gameLoop(timestamp)].  After [update], [draw()] and the request of
    the next frame write no variable; an exception skips them. *)
Definition gameLoop (timestamp r1 r2 : Q) (w : World) : outcome :=
  if negb (gameRunning (vars w)) then Returned w
  else
    let delta := (timestamp - lastTime (vars w))%Q in
    let w := set_vars (set_lastTime timestamp (vars w)) w in
    update delta r1 r2 w.

(** One handler. *)
Definition react (i : Input) (w : World) : outcome :=
  match i with
  | Start now r => Returned (set_vars (startGame canvas now r (vars w)) w)
  | Frame timestamp r1 r2 => gameLoop timestamp r1 r2 w
  | MouseMove x => Returned (set_vars (mousemove canvas x (vars w)) w)
  | Click => Returned (set_vars (click (vars w)) w)
  | KeyDown key code => Returned (set_vars (keydown key code (vars w)) w)
  | KeyUp key => Returned (set_vars (keyup key (vars w)) w)
  end.

(** What happens next: the page handles an event, or the storage changes
    from outside the page (another tab writes to it, it fills up, access
    to it is granted or taken away). *)
Inductive Step :=
  | Handle (i : Input)
  | Outside (ls : Storage).

(** The event loop.  An exception that leaves a handler is reported and
    the next event is handled in the state the handler left; the result
    lists the exceptions reported, oldest first. *)
Fixpoint run (steps : list Step) (w : World) : option (World * list exn) :=
  match steps with
  | [] => Some (w, [])
  | Outside ls :: steps => run steps (mkWorld (vars w) ls)
  | Handle i :: steps =>
    match react i w with
    | Returned w => run steps w
    | Raised e w =>
      match run steps w with
      | Some (w, es) => Some (w, e :: es)
      | None => None
      end
    | TypeError => None
    end
  end.

End Frame.

End Stored.





Section StoredFacts.

Variable canvas : Canvas.
Variable JSON_stringify : json → string.

Lemma save_cases st ls :
  (∃ ls',
     Stored.saveHighScores JSON_stringify (Stored.mkWorld st ls)
     = Stored.Returned (Stored.mkWorld st ls'))
  ∨ (∃ e,
       Stored.saveHighScores JSON_stringify (Stored.mkWorld st ls)
       = Stored.Raised e (Stored.mkWorld st ls)).
Proof.
  unfold Stored.saveHighScores. cbn [Stored.vars Stored.localStorage].
  destruct (saveHighScores _ _ _); eauto.
Qed.


Lemma stored_endGame st ls :
  Stored.endGame JSON_stringify (Stored.mkWorld st ls)
  = Stored.saveHighScores JSON_stringify (Stored.mkWorld (endGame st) ls).
Proof. reflexivity. Qed.

Lemma stored_winGame st ls :
  Stored.winGame JSON_stringify (Stored.mkWorld st ls)
  = Stored.saveHighScores JSON_stringify (Stored.mkWorld (winGame st) ls).
Proof. reflexivity. Qed.

(** An iteration does to the variables what [bar_body] says, whatever the
    storage; it touches the storage only by saving, when it ends the
    session. *)
Lemma stored_bar_body i st ls :
  Stored.bar_body canvas JSON_stringify i (Stored.mkWorld st ls)
  = match fst (bar_body canvas i st) with
    | Go s => Stored.Next (Stored.mkWorld s ls)
    | Ret s =>
        Stored.Leave
          (Stored.saveHighScores JSON_stringify (Stored.mkWorld s ls))
    | Throw => Stored.Leave Stored.TypeError
    end.
Proof.
  unfold Stored.bar_body, bar_body. cbn [Stored.vars].
  destruct (bars st !! i) as [bar|]; [|reflexivity]. cbv zeta.
  unfold Stored.set_vars. cbn [Stored.vars Stored.localStorage].
  repeat match goal with
         | |- context [if ?c then _ else _] => destruct c
         end; reflexivity.
Qed.

Lemma stored_bars_loop n :
  ∀ st ls,
    Stored.bars_loop canvas JSON_stringify n (Stored.mkWorld st ls)
    = match fst (bars_loop canvas n st) with
      | Go s => Stored.Next (Stored.mkWorld s ls)
      | Ret s =>
          Stored.Leave
            (Stored.saveHighScores JSON_stringify (Stored.mkWorld s ls))
      | Throw => Stored.Leave Stored.TypeError
      end.
Proof.
  induction n as [|i IH]; intros st ls; [reflexivity|].
  cbn [Stored.bars_loop bars_loop]. rewrite stored_bar_body.
  destruct (bar_body canvas i st) as [[s|s|] ev]; cbn [fst];
    try reflexivity.
  rewrite IH. destruct (bars_loop canvas i s) as [c evs]. reflexivity.
Qed.

Lemma bars_loop_running n st :
  match fst (bars_loop canvas n st) with
  | Go s => gameRunning s = gameRunning st
  | Ret s => gameRunning s = false
  | Throw => True
  end.
Proof.
  apply (bars_loop_rule canvas (λ s, gameRunning s = gameRunning st)
           (λ s, gameRunning s = false)); [| |reflexivity].
  - intros i s s' ev HP Hb. apply bar_body_frame in Hb.
    destruct Hb as (_ & _ & _ & _ & _ & -> & _). exact HP.
  - intros i s s' ev HP Hb. apply bar_body_frame in Hb.
    destruct Hb as (_ & _ & _ & _ & _ & Hr). exact Hr.
Qed.

(** A call of [update] leaves the variables that [update] computes,
    whether it returns or throws.  It saves exactly when it has ended the
    session, as its last action, and ends as the save ends. *)
Lemma stored_update delta r1 r2 st ls :
  ∃ st' (saved : bool),
    update canvas delta r1 r2 st = Some st'
    ∧ Stored.update canvas JSON_stringify delta r1 r2 (Stored.mkWorld st ls)
      = (if saved
         then Stored.saveHighScores JSON_stringify (Stored.mkWorld st' ls)
         else Stored.Returned (Stored.mkWorld st' ls))
    ∧ (gameRunning st = true → saved = negb (gameRunning st')).
Proof.
  unfold Stored.update, update, update_log. cbv zeta.
  unfold Stored.set_vars. cbn [Stored.vars Stored.localStorage].
  pose proof (before_loop_running canvas delta r1 r2 st) as Hr1. revert Hr1.
  generalize (spawn_phase canvas delta r1 r2 (move_player canvas st)).
  intros st1 Hr1.
  rewrite stored_bars_loop.
  pose proof (bars_loop_running (length (bars st1)) st1) as Hrun.
  destruct (bars_loop_trace canvas (bars st1) st1 []
              ltac:(by rewrite app_nil_r))
    as (c & todo & seen & _ & Hloop & Hc).
  rewrite Hloop in *. cbn [fst] in *.
  destruct c as [s|s|]; [| |contradiction].
  - cbn [Stored.vars Stored.localStorage].
    assert (Hr2 : gameRunning (instruction_phase delta s) = gameRunning s).
    { unfold instruction_phase. cbv zeta.
      repeat match goal with
             | |- context [if ?c then _ else _] => destruct c
             end; reflexivity. }
    revert Hr2. generalize (instruction_phase delta s). intros s2 Hr2.
    destruct (bullets_loop_trace (length (bullets s2)) s2 ltac:(lia))
      as (s3 & shots & Hbul & _ & _ & Hr3).
    rewrite Hbul. cbn [fst].
    unfold Stored.time_phase, time_phase. cbv zeta.
    unfold Stored.set_vars. cbn [Stored.vars Stored.localStorage]. proj.
    destruct (Qle_bool _ 0).
    + exists (endGame (set_timeLeft 0%Q
                         (set_timeLeft (timeLeft s3 - delta / 1000)%Q s3))),
             true.
      split; [reflexivity|]. split; [apply stored_endGame|]. reflexivity.
    + eexists _, false. split; [reflexivity|]. split; [reflexivity|].
      proj. intros Hr. symmetry. apply negb_false_iff. congruence.
  - exists s, true. split; [reflexivity|]. split; [reflexivity|].
    intros _. by rewrite Hrun.
Qed.



End StoredFacts.

(** X1.  A call of [update] never reads past the end of an array: it
    returns, or the exception of [saveHighScores] leaves it.  Either way
    the score it leaves is the score it found plus the number of good
    catches in its log, and the lives it leaves are the lives it found
    plus 1 for every bad bar shot, less 1 for every bad bar caught and
    less 1 for every bar missed; nothing else in a tick touches the score
    or the lives, and the score never goes down. *)
Theorem tick_books canvas (JSON_stringify : json → string)
    (delta r1 r2 : Q) (st : Game) (ls : Storage) :
  ∃ st' ls' evs,
    (Stored.update canvas JSON_stringify delta r1 r2 (Stored.mkWorld st ls)
     = Stored.Returned (Stored.mkWorld st' ls')
     ∨ ∃ e,
         Stored.update canvas JSON_stringify delta r1 r2
           (Stored.mkWorld st ls)
         = Stored.Raised e (Stored.mkWorld st' ls'))
    ∧ update_log canvas delta r1 r2 st = (Some st', evs)
    ∧ score st' = score st + total points evs
    ∧ lives st' = lives st + total life_change evs
    ∧ score st <= score st'.
Proof.
  destruct (stored_update canvas JSON_stringify delta r1 r2 st ls)
    as (st' & saved & Hup & Hst & _).
  destruct (update_log_total canvas delta r1 r2 st) as (st2 & evs & Hlog).
  assert (st2 = st').
  { unfold update in Hup. rewrite Hlog in Hup. cbn [fst] in Hup.
    congruence. }
  subst st2.
  assert (Hend : ∃ ls',
            Stored.update canvas JSON_stringify delta r1 r2
              (Stored.mkWorld st ls)
            = Stored.Returned (Stored.mkWorld st' ls')
            ∨ ∃ e,
                Stored.update canvas JSON_stringify delta r1 r2
                  (Stored.mkWorld st ls)
                = Stored.Raised e (Stored.mkWorld st' ls')).
  { rewrite Hst. destruct saved; [|by exists ls; left].
    destruct (save_cases JSON_stringify st' ls) as [[ls' ->]|[e ->]];
      [exists ls'; by left|exists ls; right; by exists e]. }
  destruct Hend as (ls' & Hcase).
  exists st', ls', evs. split; [exact Hcase|]. split; [exact Hlog|].
  destruct (update_booked canvas delta r1 r2 st st' evs Hlog) as [Hs Hl].
  split; [exact Hs|]. split; [exact Hl|].
  assert (0 <= total points evs); [|lia].
  clear. induction evs as [|e evs IH]; simpl; [lia|].
  fold (total points evs). destruct e as [b|b|b bl]; simpl; try lia.
  destruct (isBad b); lia.
Qed.


(** A session that times out while the storage is denied: the frame that
    ends it throws, and the score is on the leaderboard all the same. *)
Lemma denied_storage_throws :
  ∃ w,
    Stored.run sample_canvas Codec.stringify
      (Stored.Handle <$> Start 0 (1 # 2) :: timed_out)
      (Stored.mkWorld (page_loaded sample_canvas []) Denied)
    = Some (w, [SecurityError])
    ∧ gameRunning (Stored.vars w) = false
    ∧ highScores (Stored.vars w) = [mkEntry "Nova" 0].
Proof.
  eexists. split; [vm_compute; reflexivity|]. split; reflexivity.
Qed.


